(** * srcYUML: class stereotypes, relationship merging and SVG edge drawing

    A shallow embedding of three parts of the srcYUML sources:

    - [srcyuml_class::analyze_data] (srcyuml_class.hpp), which tags a class
      as datatype or interface, and the [operator<<] that writes the yUML
      line of a class;
    - [svg_sugiyama_outputter::output] (layout_engine/load_graph.hpp), which
      turns classes into sized OGDF nodes and relationships into edges;
    - [SvgPrinter] (SvgPrinter.cpp): for the edges [getArrowSize],
      [isCoveredBy], [drawEdge], [drawArrowHead], [drawCurve] with the
      straight, bezier and round paths, for the nodes [drawNode] and
      [drawNodes], and the top-level [draw].

    The C++ code computes on [double]s.  The embedding is written once
    over an interface of the arithmetic it uses ([DoubleOps]) and read at
    two instances: IEEE binary64 ([float_ops], the numbers the program
    really computes, used to run the code on concrete inputs) and the real
    numbers ([real_ops], used for the geometric statements, which hold of
    the formulas and only approximately of their rounded values). *)

From Stdlib Require Import ZArith List Bool String Ascii Reals Lra Lia Floats Uint63 Permutation.
From stdpp Require Import base decidable option list functions gmap strings.

Set Default Proof Using "Type".

(* ================================================================== *)
(** * Part I: definitions                                              *)
(* ================================================================== *)

(** ** The arithmetic of [double] *)

Declare Scope dbl_scope.
Delimit Scope dbl_scope with dbl.

Class DoubleOps (D : Type) := {
  dadd : D -> D -> D;
  dsub : D -> D -> D;
  dmul : D -> D -> D;
  ddiv : D -> D -> D;
  dsqrt : D -> D;
  (** [a <= b], [a < b] and [a == b] as C++ evaluates them *)
  dle : D -> D -> bool;
  dlt : D -> D -> bool;
  deq : D -> D -> bool;
  (** the conversion of an [int] to [double] *)
  dofZ : Z -> D
}.

Infix "+" := dadd : dbl_scope.
Infix "-" := dsub : dbl_scope.
Infix "*" := dmul : dbl_scope.
Infix "/" := ddiv : dbl_scope.
Infix "<=?" := dle : dbl_scope.
Infix "<?" := dlt : dbl_scope.
Infix "=?" := deq : dbl_scope.

Section DoubleDerived.
Context {D : Type} `{DoubleOps D}.
Local Open Scope dbl_scope.

(** [a >= b] and [a > b] *)
Definition dge (a b : D) : bool := b <=? a.
Definition dgt (a b : D) : bool := b <? a.

(** [std::max(a, b)] is [(a < b) ? b : a]; [std::min(a, b)] is
    [(b < a) ? b : a]. *)
Definition dmax (a b : D) : D := if a <? b then b else a.
Definition dmin (a b : D) : D := if b <? a then b else a.

(** A decimal literal [n/d] of the source ([1.3] is [dlit 13 10]).  At
    binary64 the division of two small integers is correctly rounded, so
    this is the double the compiler reads the literal as. *)
Definition dlit (n d : Z) : D := dofZ n / dofZ d.

(** An [int] variable [sign] holding 1 or -1, used in double arithmetic *)
Definition dsign (positive : bool) : D := if positive then dofZ 1 else dofZ (-1).
End DoubleDerived.

(** *** IEEE binary64 *)

Definition float_ofZ (z : Z) : float :=
  if (z <? 0)%Z then PrimFloat.opp (PrimFloat.of_uint63 (Uint63.of_Z (- z)))
  else PrimFloat.of_uint63 (Uint63.of_Z z).

#[global] Instance float_ops : DoubleOps float := {|
  dadd := PrimFloat.add;
  dsub := PrimFloat.sub;
  dmul := PrimFloat.mul;
  ddiv := PrimFloat.div;
  dsqrt := PrimFloat.sqrt;
  dle := PrimFloat.leb;
  dlt := PrimFloat.ltb;
  deq := PrimFloat.eqb;
  dofZ := float_ofZ
|}.

(** *** Real numbers *)

#[global] Instance Rle_decision : RelDecision Rle := Rle_dec.
#[global] Instance Rlt_decision : RelDecision Rlt := Rlt_dec.
#[global] Instance Req_decision : EqDecision R := Req_dec_T.

#[global] Instance real_ops : DoubleOps R := {|
  dadd := Rplus;
  dsub := Rminus;
  dmul := Rmult;
  ddiv := Rdiv;
  dsqrt := R_sqrt.sqrt;
  dle := fun a b => bool_decide (a <= b)%R;
  dlt := fun a b => bool_decide (a < b)%R;
  deq := fun a b => bool_decide (a = b);
  dofZ := IZR
|}.

(* ------------------------------------------------------------------ *)
(** ** srcyuml_class.hpp: the stereotype of a class                     *)
(* ------------------------------------------------------------------ *)

Module ClassPolicy.

(** The index of the member arrays of [ClassData] *)
Inductive AccessSpecifier := PUBLIC | PRIVATE | PROTECTED.

(** What [analyze_data] reads of a declaration and of a function
    signature ([DeclTypePolicy::DeclTypeData],
    [FunctionSignaturePolicy::FunctionSignatureData]) *)
Record DeclTypeData := { decl_name : string }.
Record FunctionSignatureData := { function_name : string; isPureVirtual : bool }.

Record ClassData := {
  name : string;
  fields : AccessSpecifier -> list DeclTypeData;
  constructors : AccessSpecifier -> list FunctionSignatureData;
  methods : AccessSpecifier -> list FunctionSignatureData;
  hasDestructor : bool
}.

End ClassPolicy.

Module srcyuml.
Import ClassPolicy.

Inductive class_type := NONE | INTERFACE | ABSTRACT | DATATYPE.

Record srcyuml_class := {
  data : ClassData;
  has_field : bool;
  has_constructor : bool;
  has_destructor : bool;
  has_method : bool;
  type : class_type
}.

(** The constructor *)
Definition new (data : ClassData) : srcyuml_class :=
  {| data := data; has_field := false; has_constructor := false;
     has_destructor := false; has_method := false; type := NONE |}.

(** [v.size()] used as a condition, and [v.empty()] *)
Definition size_nonzero {A} (v : list A) : bool := negb (Nat.eqb (length v) 0).
Definition empty {A} (v : list A) : bool := Nat.eqb (length v) 0.

(** The loop over the public methods: [is_interface] starts [true] and is
    cleared by every method that is not pure virtual. *)
Definition is_interface_loop (fs : list FunctionSignatureData) : bool :=
  fold_left (fun is_interface function =>
               if negb (isPureVirtual function) then false else is_interface)
            fs true.

Definition analyze_data (c : srcyuml_class) : srcyuml_class :=
  let d := data c in
  let has_field :=
    size_nonzero (fields d PUBLIC) || size_nonzero (fields d PRIVATE)
    || size_nonzero (fields d PROTECTED) in
  let has_constructor :=
    size_nonzero (constructors d PUBLIC) || size_nonzero (constructors d PRIVATE)
    || size_nonzero (constructors d PROTECTED) in
  let has_destructor := hasDestructor d in
  let has_method :=
    size_nonzero (methods d PUBLIC) || size_nonzero (methods d PRIVATE)
    || size_nonzero (methods d PROTECTED) in
  let only_public_methods :=
    size_nonzero (methods d PUBLIC) && empty (methods d PRIVATE)
    && empty (methods d PROTECTED) in
  let type' :=
    if negb has_constructor && negb has_method then DATATYPE
    else if negb has_constructor && negb has_field && negb has_destructor
            && only_public_methods
    then (if is_interface_loop (methods d PUBLIC) then INTERFACE else type c)
    else type c in
  {| data := d; has_field := has_field; has_constructor := has_constructor;
     has_destructor := has_destructor; has_method := has_method; type := type' |}.

(** The classifier: construct, then analyze. *)
Definition classify (d : ClassData) : class_type := type (analyze_data (new d)).

End srcyuml.

(* ------------------------------------------------------------------ *)
(** ** The OGDF data the two C++ files work on                          *)
(* ------------------------------------------------------------------ *)

Module ogdf.

(** An [ogdf::node] is a pointer to an element of the graph.
    [output] declares its handles [lhs] and [rhs] without an initialiser
    and assigns them only when the class name is found; [dangling]
    stands for the value of a handle that was never assigned: it is not
    an element of the graph. *)
Inductive node := element (index : nat) | dangling.

#[global] Instance node_eq_dec : EqDecision node.
Proof. solve_decision. Defined.

(** An [ogdf::edge], with [e->source()] and [e->target()] *)
Record edge := { index : nat; source : node; target : node }.

#[global] Instance edge_eq_dec : EqDecision edge.
Proof. solve_decision. Defined.

(** [e->opposite(v)] *)
Definition opposite (e : edge) (v : node) : node :=
  if decide (v = source e) then target e else source e.

(** An [ogdf::Graph]: the nodes are numbered as they are made, the edges
    are kept in the order in which they are made. *)
Record Graph := { numberOfNodes : nat; edges : list edge }.

Definition emptyGraph : Graph := {| numberOfNodes := 0; edges := [] |}.

(** [g.newNode()] and [g.newEdge(v, w)] *)
Definition newNode (g : Graph) : Graph * node :=
  ({| numberOfNodes := S (numberOfNodes g); edges := edges g |},
   element (numberOfNodes g)).

Definition newEdge (g : Graph) (v w : node) : Graph * edge :=
  let e := {| index := length (edges g); source := v; target := w |} in
  ({| numberOfNodes := numberOfNodes g; edges := edges g ++ [e] |}, e).

(** The enumerations [StrokeType] and [EdgeArrow] *)
Module StrokeType.
Inductive t := None | Solid | Dash | Dot | Dashdot | Dashdotdot.
#[global] Instance eq_dec : EqDecision t.
Proof. solve_decision. Defined.
End StrokeType.

Module EdgeArrow.
Inductive t := None | Last | First | Both | Undefined.
End EdgeArrow.

(** The flags of [GraphAttributes] the two files name *)
Inductive attribute :=
| nodeGraphics | edgeGraphics | nodeLabel | edgeLabel
| nodeStyle | edgeStyle | nodeTemplate | edgeArrow | threeD.

#[global] Instance attribute_eq_dec : EqDecision attribute.
Proof. solve_decision. Defined.

(** A point of the plane *)
Record DPoint {D : Type} := { m_x : D; m_y : D }.
Arguments DPoint : clear implicits.

(** [GraphAttributes]: the node and edge arrays are total maps. *)
Module GA.
Record GraphAttributes {D : Type} := {
  attributes : list attribute;
  directed : bool;
  x : node -> D;
  y : node -> D;
  width : node -> D;
  height : node -> D;
  label : node -> string;
  fillColor : node -> string;
  strokeWidth : edge -> D;
  strokeType : edge -> StrokeType.t;
  strokeColor : edge -> string;
  arrowType : edge -> EdgeArrow.t;
  bends : edge -> list (DPoint D);
  edgeLabel : edge -> string
}.
Arguments GraphAttributes : clear implicits.

Definition has {D} (ga : GraphAttributes D) (a : attribute) : bool :=
  bool_decide (a ∈ attributes ga).

(** [ga.init(g, flags)] *)
Definition init {D} (ga : GraphAttributes D) (flags : list attribute) : GraphAttributes D :=
  {| attributes := flags; directed := directed ga;
     x := x ga; y := y ga; width := width ga; height := height ga;
     label := label ga; fillColor := fillColor ga;
     strokeWidth := strokeWidth ga; strokeType := strokeType ga;
     strokeColor := strokeColor ga; arrowType := arrowType ga;
     bends := bends ga; edgeLabel := edgeLabel ga |}.

(** Assignments through the references [ga.label(v)], [ga.height(v)],
    [ga.width(v)], [ga.fillColor(v)], [ga.strokeWidth(e)] and
    [ga.strokeType(e)] *)
Definition set_label {D} (ga : GraphAttributes D) (v : node) (s : string) :=
  {| attributes := attributes ga; directed := directed ga;
     x := x ga; y := y ga; width := width ga; height := height ga;
     label := <[v := s]> (label ga); fillColor := fillColor ga;
     strokeWidth := strokeWidth ga; strokeType := strokeType ga;
     strokeColor := strokeColor ga; arrowType := arrowType ga;
     bends := bends ga; edgeLabel := edgeLabel ga |}.
Definition set_height {D} (ga : GraphAttributes D) (v : node) (h : D) :=
  {| attributes := attributes ga; directed := directed ga;
     x := x ga; y := y ga; width := width ga; height := <[v := h]> (height ga);
     label := label ga; fillColor := fillColor ga;
     strokeWidth := strokeWidth ga; strokeType := strokeType ga;
     strokeColor := strokeColor ga; arrowType := arrowType ga;
     bends := bends ga; edgeLabel := edgeLabel ga |}.
Definition set_width {D} (ga : GraphAttributes D) (v : node) (w : D) :=
  {| attributes := attributes ga; directed := directed ga;
     x := x ga; y := y ga; width := <[v := w]> (width ga); height := height ga;
     label := label ga; fillColor := fillColor ga;
     strokeWidth := strokeWidth ga; strokeType := strokeType ga;
     strokeColor := strokeColor ga; arrowType := arrowType ga;
     bends := bends ga; edgeLabel := edgeLabel ga |}.
Definition set_fillColor {D} (ga : GraphAttributes D) (v : node) (c : string) :=
  {| attributes := attributes ga; directed := directed ga;
     x := x ga; y := y ga; width := width ga; height := height ga;
     label := label ga; fillColor := <[v := c]> (fillColor ga);
     strokeWidth := strokeWidth ga; strokeType := strokeType ga;
     strokeColor := strokeColor ga; arrowType := arrowType ga;
     bends := bends ga; edgeLabel := edgeLabel ga |}.
Definition set_strokeWidth {D} (ga : GraphAttributes D) (e : edge) (w : D) :=
  {| attributes := attributes ga; directed := directed ga;
     x := x ga; y := y ga; width := width ga; height := height ga;
     label := label ga; fillColor := fillColor ga;
     strokeWidth := <[e := w]> (strokeWidth ga); strokeType := strokeType ga;
     strokeColor := strokeColor ga; arrowType := arrowType ga;
     bends := bends ga; edgeLabel := edgeLabel ga |}.
Definition set_strokeType {D} (ga : GraphAttributes D) (e : edge) (st : StrokeType.t) :=
  {| attributes := attributes ga; directed := directed ga;
     x := x ga; y := y ga; width := width ga; height := height ga;
     label := label ga; fillColor := fillColor ga;
     strokeWidth := strokeWidth ga; strokeType := <[e := st]> (strokeType ga);
     strokeColor := strokeColor ga; arrowType := arrowType ga;
     bends := bends ga; edgeLabel := edgeLabel ga |}.
End GA.

End ogdf.

(* ------------------------------------------------------------------ *)
(** ** The document and the stream                                      *)
(* ------------------------------------------------------------------ *)

Module pugi.

(** The path data written into the [d] attribute by [drawLine],
    [drawBezier] and [drawRoundPath] *)
Inductive path_cmd {D : Type} :=
| M (x y : D)
| L (x y : D)
| C (x1 y1 x2 y2 x y : D)
| A (rx ry : D) (sweep : bool) (x y : D).
Arguments path_cmd : clear implicits.

(** Attribute values.  Numbers are kept as numbers: their decimal
    printing is not modelled. *)
Inductive attr_value {D : Type} :=
| Str (s : string)
| Num (d : D)
| Int (z : Z)
| Px (d : D)
| Numbers (l : list D)
| PathData (l : list (path_cmd D)).
Arguments attr_value : clear implicits.

(** A node of the document: an element with its attributes and children,
    or text *)
#[warnings="-register-all"]
Inductive xml_node {D : Type} :=
| Element (tag : string) (attrs : list (string * attr_value D)) (children : list xml_node)
| Pcdata (s : string).
Arguments xml_node : clear implicits.

(** The name, the children and the attributes of an element *)
Definition tag_of {D} (n : xml_node D) : string :=
  match n with Element t _ _ => t | Pcdata _ => "" end.
Definition children_of {D} (n : xml_node D) : list (xml_node D) :=
  match n with Element _ _ c => c | Pcdata _ => [] end.
Definition attrs_of {D} (n : xml_node D) : list (string * attr_value D) :=
  match n with Element _ a _ => a | Pcdata _ => [] end.

(** [n.append_attribute(k) = v] on an element *)
Definition append_attribute {D} (n : xml_node D) (k : string) (v : attr_value D) : xml_node D :=
  match n with
  | Element t a c => Element t (a ++ [(k, v)]) c
  | Pcdata s => Pcdata s
  end.

(** Several attributes appended in turn *)
Definition append_attributes {D} (n : xml_node D) (l : list (string * attr_value D)) : xml_node D :=
  fold_left (fun n kv => append_attribute n (fst kv) (snd kv)) l n.

End pugi.

Module iostream.

(** A [std::ostream]: what was written to it, whether it is in a failed
    state, and how many more documents its sink takes before writing
    fails.  A write to a failed stream does nothing; a write the sink
    refuses puts the stream into the failed state. *)
Record ostream {X : Type} := { written : list X; failed : bool; room : nat }.
Arguments ostream : clear implicits.

(** [doc.save(os)] *)
Definition write {X} (os : ostream X) (doc : X) : ostream X :=
  if failed os then os
  else match room os with
       | O => {| written := written os; failed := true; room := O |}
       | S k => {| written := written os ++ [doc]; failed := false; room := k |}
       end.

End iostream.

(* ------------------------------------------------------------------ *)
(** ** SvgPrinter.cpp                                                   *)
(* ------------------------------------------------------------------ *)

Module GraphIO.

Record SVGSettings {D : Type} := {
  margin : D;
  curviness : D;
  bezierInterpolation : bool;
  fontSize : Z;
  fontColor : string;
  fontFamily : string;
  width : string;
  height : string
}.
Arguments SVGSettings : clear implicits.

(** [SVGSettings::SVGSettings()] *)
Definition default_settings {D} `{DoubleOps D} : SVGSettings D :=
  {| margin := dofZ 1; curviness := dofZ 0; bezierInterpolation := false;
     fontSize := 10; fontColor := "#000000"; fontFamily := "Courier";
     width := ""; height := "" |}.

(** A line of [GraphIO::logger]: the edge that could not be drawn *)
Inductive log_line := could_not_draw_edge (e : ogdf.edge).

End GraphIO.

Module SvgPrinter.
Import ogdf pugi.

Section Printer.
Context {D : Type} `{DoubleOps D}.
Local Open Scope dbl_scope.

Abbreviation DPoint := (ogdf.DPoint D).
Abbreviation xml_node := (pugi.xml_node D).
Abbreviation path_cmd := (pugi.path_cmd D).
Abbreviation attr_value := (pugi.attr_value D).

(** The members of the printer *)
Variable m_attr : GA.GraphAttributes D.
Variable m_settings : GraphIO.SVGSettings D.

(** [DPoint(x, y)] *)
Definition P (x y : D) : DPoint := {| m_x := x; m_y := y |}.

(** [DPoint]'s operators: [p + q], [p - q], [c * p] and [p.norm()] *)
Definition padd (p q : DPoint) : DPoint := P (m_x p + m_x q) (m_y p + m_y q).
Definition psub (p q : DPoint) : DPoint := P (m_x p - m_x q) (m_y p - m_y q).
Definition pscale (c : D) (p : DPoint) : DPoint := P (c * m_x p) (c * m_y p).
Definition norm (p : DPoint) : D := dsqrt (m_x p * m_x p + m_y p * m_y p).
(** [p *= c] *)
Definition pscale_by (p : DPoint) (c : D) : DPoint := P (m_x p * c) (m_y p * c).

Definition writeDashArray (lineStyle : StrokeType.t) (lineWidth : D)
  : list (string * attr_value) :=
  match lineStyle with
  | StrokeType.None | StrokeType.Solid => []
  | StrokeType.Dash =>
      [("stroke-dasharray", Numbers [dofZ 4 * lineWidth; dofZ 2 * lineWidth])]
  | StrokeType.Dot =>
      [("stroke-dasharray", Numbers [dofZ 1 * lineWidth; dofZ 2 * lineWidth])]
  | StrokeType.Dashdot =>
      [("stroke-dasharray",
        Numbers [dofZ 4 * lineWidth; dofZ 2 * lineWidth;
                 dofZ 1 * lineWidth; dofZ 2 * lineWidth])]
  | StrokeType.Dashdotdot =>
      [("stroke-dasharray",
        Numbers [dofZ 4 * lineWidth; dofZ 2 * lineWidth;
                 dofZ 1 * lineWidth; dofZ 2 * lineWidth;
                 dofZ 1 * lineWidth; dofZ 2 * lineWidth])]
  end.

(** [appendLineStyle(line, e)]: the attributes it appends *)
Definition appendLineStyle (e : edge) : list (string * attr_value) :=
  let lineStyle :=
    if GA.has m_attr edgeStyle then GA.strokeType m_attr e else StrokeType.Solid in
  if bool_decide (lineStyle <> StrokeType.None) then
    if GA.has m_attr edgeStyle then
      [("stroke", Str (GA.strokeColor m_attr e));
       ("stroke-width", Px (GA.strokeWidth m_attr e))]
      ++ writeDashArray lineStyle (GA.strokeWidth m_attr e)
    else [("stroke", Str "#000000")]
  else [].

(** [drawPolygon(xmlNode, points)]: the appended element *)
Definition drawPolygon (points : list D) : xml_node :=
  Element "polygon" [("points", Numbers points)] [].

(** [getArrowSize(e, v)].  OGDF keeps stroke widths in single precision
    and multiplies by 3 there; the model multiplies doubles, which gives
    the same number for the widths used below (2, which the outputter
    sets, 1 and 0.25), whose triple is exact in single precision. *)
Definition getArrowSize (e : edge) (v : node) : D :=
  if GA.has m_attr edgeArrow || GA.directed m_attr then
    let minSize :=
      (if GA.has m_attr edgeStyle then GA.strokeWidth m_attr e else dofZ 1) * dofZ 3 in
    let w := opposite e v in
    dmax minSize
         ((GA.width m_attr v + GA.height m_attr v
           + GA.width m_attr w + GA.height m_attr w) / dofZ 16)
  else dofZ 0.

(** [isCoveredBy(point, e, v)]: the point is in the rectangle of [v]
    grown by the arrow size on every side. *)
Definition isCoveredBy (point : DPoint) (e : edge) (v : node) : bool :=
  let arrowSize := getArrowSize e v in
  dge (m_x point) (GA.x m_attr v - GA.width m_attr v / dofZ 2 - arrowSize)
  && dle (m_x point) (GA.x m_attr v + GA.width m_attr v / dofZ 2 + arrowSize)
  && dge (m_y point) (GA.y m_attr v - GA.height m_attr v / dofZ 2 - arrowSize)
  && dle (m_y point) (GA.y m_attr v + GA.height m_attr v / dofZ 2 + arrowSize).

(** [drawArrowHead(xmlNode, start, end, v, e)]: the polygon it appends
    and the value it leaves in [end], which is passed by reference. *)
Definition drawArrowHead (start end_ : DPoint) (v : node) (e : edge)
  : xml_node * DPoint :=
  let dx := m_x end_ - m_x start in
  let dy := m_y end_ - m_y start in
  let size := getArrowSize e v in
  if dx =? dofZ 0 then
    let sign := dsign (dgt dy (dofZ 0)) in
    let y := GA.y m_attr v - GA.height m_attr v / dofZ 2 * sign in
    let end' := P (m_x end_) (y - sign * size) in
    let arrowHead :=
      drawPolygon [m_x end'; y;
                   m_x end' - size / dofZ 4; y - size * sign;
                   m_x end' + size / dofZ 4; y - size * sign] in
    (append_attributes arrowHead (appendLineStyle e), end')
  else
    (* identify the position of the tip *)
    let slope := dy / dx in
    let sign := dsign (dgt dx (dofZ 0)) in
    let x := GA.x m_attr v - GA.width m_attr v / dofZ 2 * sign in
    let delta := x - m_x start in
    let y := m_y start + delta * slope in
    let '(x, y) :=
      if negb (isCoveredBy (P x y) e v) then
        let sign := dsign (dgt dy (dofZ 0)) in
        let y := GA.y m_attr v - GA.height m_attr v / dofZ 2 * sign in
        let delta := y - m_y start in
        let x := m_x start + delta / slope in
        (x, y)
      else (x, y) in
    let end' := P x y in
    (* draw the actual arrow head *)
    let dx2 := m_x end' - m_x start in
    let dy2 := m_y end' - m_y start in
    let length := dsqrt (dx2 * dx2 + dy2 * dy2) in
    let dx2 := dx2 / length in
    let dy2 := dy2 / length in
    let mx := m_x end' - size * dx2 in
    let my := m_y end' - size * dy2 in
    let x2 := mx - size / dofZ 4 * dy2 in
    let y2 := my + size / dofZ 4 * dx2 in
    let x3 := mx + size / dofZ 4 * dy2 in
    let y3 := my - size / dofZ 4 * dx2 in
    let arrowHead := drawPolygon [m_x end'; m_y end'; x2; y2; x3; y3] in
    (append_attributes arrowHead (appendLineStyle e), end').

(** [drawLine] and [drawBezier] append to the string stream [ss]. *)
Definition drawLine (ss : list path_cmd) (p1 p2 : DPoint) : list path_cmd :=
  ss ++ [M (m_x p1) (m_y p1); L (m_x p2) (m_y p2)].

Definition drawBezier (ss : list path_cmd) (p1 p2 c1 c2 : DPoint) : list path_cmd :=
  ss ++ [M (m_x p1) (m_y p1);
         C (m_x c1) (m_y c1) (m_x c2) (m_y c2) (m_x p2) (m_y p2)].

(** The [while(points.size() >= 3)] loop of [drawBezierPath]: what is
    left of [points], [cLast] and [ss] when it ends *)
Fixpoint drawBezierPath_loop (c : D) (points : list DPoint) (cLast : DPoint)
         (ss : list path_cmd) : list DPoint * DPoint * list path_cmd :=
  match points with
  | p1 :: rest =>
      match rest with
      | p2 :: p3 :: _ =>
          let delta := psub p2 (pscale (dlit 1 2) (padd p1 p3)) in
          let c1 := padd (padd p1 (pscale c delta)) (pscale (dofZ 1 - c) (psub p2 p1)) in
          let c2 := padd (padd p3 (pscale c delta)) (pscale (dofZ 1 - c) (psub p2 p3)) in
          drawBezierPath_loop c rest c2 (drawBezier ss p1 p2 cLast c1)
      | _ => (points, cLast, ss)
      end
  | [] => (points, cLast, ss)
  end.

(** [drawBezierPath], [drawRoundPath] and [drawLines] are called with
    at least three points; with fewer than two the C++ reads past the
    list, and the model leaves [ss] as it is. *)
Definition drawBezierPath (ss : list path_cmd) (points : list DPoint) : list path_cmd :=
  let c := GraphIO.curviness m_settings in
  match points with
  | front :: second :: _ =>
      let cLast := pscale (dlit 1 2) (padd front second) in
      match drawBezierPath_loop c points cLast ss with
      | (p1 :: p2 :: _, cLast, ss) =>
          let c1 := pscale (dlit 1 2) (padd p2 p1) in
          drawBezier ss p1 p2 cLast c1
      | (_, _, ss) => ss
      end
  | _ => ss
  end.

Fixpoint drawRoundPath_loop (c : D) (points : list DPoint) (ss : list path_cmd)
  : list DPoint * list path_cmd :=
  match points with
  | p1 :: rest =>
      match rest with
      | p2 :: p3 :: _ =>
          let v1 := psub p1 p2 in
          let v2 := psub p3 p2 in
          let length := dmin (norm v1) (norm v2) * c / dofZ 2 in
          let v1 := pscale_by v1 (length / norm v1) in
          let v2 := pscale_by v2 (length / norm v2) in
          let pA := padd p2 v1 in
          let pB := padd p2 v2 in
          let ss := drawLine ss (pscale (dlit 1 2) (padd p1 p2)) pA in
          let ss := drawLine ss (pscale (dlit 1 2) (padd p3 p2)) pB in
          let vA := psub p2 p1 in
          let vB := psub p3 p1 in
          let doSweep := dgt (m_x vA * m_y vB - m_y vA * m_x vB) (dofZ 0) in
          drawRoundPath_loop c rest
            (ss ++ [M (m_x pA) (m_y pA); A length length doSweep (m_x pB) (m_y pB)])
      | _ => (points, ss)
      end
  | [] => (points, ss)
  end.

Definition drawRoundPath (ss : list path_cmd) (points : list DPoint) : list path_cmd :=
  let c := GraphIO.curviness m_settings in
  match points with
  | p1 :: p2 :: _ =>
      let ss :=
        drawLine ss p1
          (pscale (dlit 1 2) (padd (padd p1 p2) (pscale (dofZ 1 - c) (psub p2 p1)))) in
      match drawRoundPath_loop c points ss with
      | (p1 :: p2 :: _, ss) =>
          drawLine ss p2
            (pscale (dlit 1 2) (padd (padd p1 p2) (pscale (dofZ 1 - c) (psub p1 p2))))
      | (_, ss) => ss
      end
  | _ => ss
  end.

Fixpoint drawLines (ss : list path_cmd) (points : list DPoint) : list path_cmd :=
  match points with
  | p :: rest =>
      match rest with
      | front :: _ => drawLines (drawLine ss p front) rest
      | [] => ss
      end
  | [] => ss
  end.

(** What [drawCurve] has written to its string stream [ss] when it sets
    the [d] attribute.  It is called with at least two points
    ([OGDF_ASSERT]). *)
Definition drawCurve_ss (points : list DPoint) : list path_cmd :=
  if Nat.eqb (length points) 2 then
    match points with
    | p1 :: p2 :: _ => drawLine [] p1 p2
    | _ => []
    end
  else if GraphIO.curviness m_settings =? dofZ 0 then drawLines [] points
  else if GraphIO.bezierInterpolation m_settings then drawBezierPath [] points
  else drawRoundPath [] points.

(** [drawCurve(xmlNode, e, points)]: the [path] element it appends *)
Definition drawCurve (e : edge) (points : list DPoint) : xml_node :=
  append_attributes
    (Element "path" [("fill", Str "none"); ("d", PathData (drawCurve_ss points))] [])
    (appendLineStyle e).

(** The locals of [drawEdge] that its loop changes: the two flags, the
    pending label, the arrow heads appended so far and [points]. *)
Record edge_state := {
  drawSegment : bool;
  finished : bool;
  drawLabel : bool;
  label : xml_node;
  heads : list xml_node;
  points : list DPoint
}.

(** One turn of the loop of [drawEdge], on the segment from [*it] to
    [*(it.succ())] *)
Definition drawEdge_segment (e : edge) (drawSourceArrow drawTargetArrow : bool)
           (st : edge_state) (p1 p2 : DPoint) : edge_state :=
  let s := source e in
  let t := target e in
  (* leaving segment at source node ? *)
  let '(drawSegment1, heads1, p1) :=
    if isCoveredBy p1 e s && negb (isCoveredBy p2 e s) then
      if negb (drawSegment st) && drawSourceArrow then
        let '(arrowHead, p1') := drawArrowHead p2 p1 s e in
        (true, heads st ++ [arrowHead], p1')
      else (true, heads st, p1)
    else (drawSegment st, heads st, p1) in
  (* entering segment at target node ? *)
  let '(finished1, heads2, p2) :=
    if negb (isCoveredBy p1 e t) && isCoveredBy p2 e t then
      if drawTargetArrow then
        let '(arrowHead, p2') := drawArrowHead p1 p2 t e in
        (true, heads1 ++ [arrowHead], p2')
      else (true, heads1, p2)
    else (finished st, heads1, p2) in
  let '(label1, drawLabel1) :=
    if drawSegment1 && drawLabel st then
      (append_attribute
         (append_attribute (label st) "x" (Num ((m_x p1 + m_x p2) / dofZ 2)))
         "y" (Num ((m_y p1 + m_y p2) / dofZ 2)),
       false)
    else (label st, drawLabel st) in
  let points1 := if drawSegment1 then points st ++ [p1] else points st in
  let points2 := if finished1 then points1 ++ [p2] else points1 in
  {| drawSegment := drawSegment1; finished := finished1; drawLabel := drawLabel1;
     label := label1; heads := heads2; points := points2 |}.

(** [for(it = path.begin(); it.succ().valid() && !finished; it++)] *)
Fixpoint drawEdge_loop (e : edge) (drawSourceArrow drawTargetArrow : bool)
         (path : list DPoint) (st : edge_state) : edge_state :=
  match path with
  | p1 :: rest =>
      match rest with
      | p2 :: _ =>
          if finished st then st
          else drawEdge_loop e drawSourceArrow drawTargetArrow rest
                 (drawEdge_segment e drawSourceArrow drawTargetArrow st p1 p2)
      | [] => st
      end
  | [] => st
  end.

(** The two arrow flags, from the [switch] on [m_attr.arrowType(e)] *)
Definition arrow_flags (e : edge) : bool * bool :=
  if GA.has m_attr edgeArrow then
    match GA.arrowType m_attr e with
    | EdgeArrow.Undefined => (false, GA.directed m_attr)
    | EdgeArrow.Last => (false, true)
    | EdgeArrow.Both => (true, true)
    | EdgeArrow.First => (true, false)
    | EdgeArrow.None => (false, false)
    end
  else (false, false).

(** [path]: the bends of [e] between the centres of its two nodes *)
Definition edge_path (e : edge) : list DPoint :=
  let s := source e in
  let t := target e in
  [P (GA.x m_attr s) (GA.y m_attr s)] ++ GA.bends m_attr e
  ++ [P (GA.x m_attr t) (GA.y m_attr t)].

Definition edge_label (e : edge) : xml_node :=
  Element "text"
    [("text-anchor", Str "middle"); ("dominant-baseline", Str "middle");
     ("font-family", Str (GraphIO.fontFamily m_settings));
     ("font-size", Int (GraphIO.fontSize m_settings));
     ("fill", Str (GraphIO.fontColor m_settings))]
    [Pcdata (GA.edgeLabel m_attr e)].

(** The state in which [drawEdge] leaves its loop *)
Definition drawEdge_trim (e : edge) : edge_state :=
  let '(drawSourceArrow, drawTargetArrow) := arrow_flags e in
  let drawLabel :=
    GA.has m_attr edgeLabel && negb (String.eqb (GA.edgeLabel m_attr e) "") in
  drawEdge_loop e drawSourceArrow drawTargetArrow (edge_path e)
    {| drawSegment := false; finished := false; drawLabel := drawLabel;
       label := edge_label e; heads := []; points := [] |}.

(** [drawEdge(xmlNode, e)]: the group it appends to [xmlNode] and the
    lines it sends to the logger *)
Definition drawEdge (e : edge) : xml_node * list GraphIO.log_line :=
  let drawLabel :=
    GA.has m_attr edgeLabel && negb (String.eqb (GA.edgeLabel m_attr e) "") in
  let st := drawEdge_trim e in
  let labels := if drawLabel then [label st] else [] in
  if (length (points st) <? 2)%nat then
    (Element "g" [] (labels ++ heads st), [GraphIO.could_not_draw_edge e])
  else
    (Element "g" [] (labels ++ heads st ++ [drawCurve e (points st)]), []).

(** [drawEdges(xmlNode)]: the children it appends to [xmlNode], over
    the edges of the graph of [m_attr], and the logger's lines *)
Definition drawEdges (edges : list edge) : list xml_node * list GraphIO.log_line :=
  if GA.has m_attr edgeGraphics then
    let drawn := map drawEdge edges in
    ([Element "g" [] (map fst drawn)], concat (map snd drawn))
  else ([], []).

(** [draw(os)].  [writeHeader], [drawClusters] and [drawNodes] are not
    embedded: [header] is the root element [writeHeader] returns,
    [clusters] the children [drawClusters] appends when [m_clsAttr] is
    set (empty otherwise) and [nodeGroups] those [drawNodes] appends. *)
Definition draw (header : xml_node) (clusters nodeGroups : list xml_node)
           (edges : list edge) (os : iostream.ostream xml_node)
  : bool * iostream.ostream xml_node * list GraphIO.log_line :=
  let '(edgeGroups, log) := drawEdges edges in
  let doc :=
    Element (tag_of header) (attrs_of header)
      (children_of header ++ clusters ++ nodeGroups ++ edgeGroups) in
  let os := iostream.write os doc in
  (true, os, log).

End Printer.
End SvgPrinter.

(* ------------------------------------------------------------------ *)
(** ** layout_engine/load_graph.hpp: svg_sugiyama_outputter             *)
(* ------------------------------------------------------------------ *)

Module srcuml.

Inductive relationship_type :=
| DEPENDENCY | ASSOCIATION | BIDIRECTIONAL | AGGREGATION | COMPOSITION
| GENERALIZATION | REALIZATION.

#[global] Instance relationship_type_eq_dec : EqDecision relationship_type.
Proof. solve_decision. Defined.

Record srcuml_relationship := {
  get_source : string;
  get_destination : string;
  get_type : relationship_type
}.

End srcuml.

Module svg_sugiyama_outputter.
Import ogdf srcuml.

(** The members [g] and [ga] of the outputter *)
Record outputter {D : Type} := { g : Graph; ga : GA.GraphAttributes D }.
Arguments outputter : clear implicits.

(** The key and the entries of [edge_type_map].  The C++ multimap keeps
    its entries in the order of the handles' addresses, which the program
    does not fix; the list keeps them in the order of insertion.  What is
    stated below of the entries and of the edges either does not depend
    on the order, or is stated for every order in which the entries can
    be walked. *)
Abbreviation edge_key := (node * node)%type.
Abbreviation edge_types := (list (edge_key * relationship_type)).

(** [edge_type_map.find(key)]: the kind stored under [key], if any *)
Fixpoint find (key : edge_key) (m : edge_types) : option relationship_type :=
  match m with
  | [] => None
  | (k, ty) :: m' => if decide (k = key) then Some ty else find key m'
  end.

(** [itr->second = ty] for the entry [find] returned *)
Fixpoint assign (key : edge_key) (ty : relationship_type) (m : edge_types) : edge_types :=
  match m with
  | [] => []
  | (k, ty') :: m' =>
      if decide (k = key) then (k, ty) :: m' else (k, ty') :: assign key ty m'
  end.

(** The three tests of the [else] branch: does the incoming kind replace
    the stored one? *)
Definition replaces (stored incoming : relationship_type) : bool :=
  if bool_decide (stored = ASSOCIATION)
     && (bool_decide (incoming = BIDIRECTIONAL) || bool_decide (incoming = AGGREGATION)
         || bool_decide (incoming = COMPOSITION))
  then true
  else if bool_decide (stored = BIDIRECTIONAL)
          && (bool_decide (incoming = AGGREGATION) || bool_decide (incoming = COMPOSITION))
  then true
  else if bool_decide (stored = AGGREGATION) && bool_decide (incoming = COMPOSITION)
  then true
  else false.

(** [class_node_map.find(name)], leaving the handle unassigned when the
    name is not a key.  Reading a handle that was never assigned is
    undefined in C++: the compiled loop sees whatever the variable held
    before.  [dangling] stands for such a value only to say that the
    entry and the edge are made all the same; the statements about which
    entries and which edges are made are restricted to relationships
    whose two names are keys. *)
Definition lookup_node (class_node_map : gmap string node) (name : string) : node :=
  match class_node_map !! name with
  | Some v => v
  | None => dangling
  end.

(** The body of the loop over the relationships *)
Definition add_relationship (class_node_map : gmap string node)
           (edge_type_map : edge_types) (relationship : srcuml_relationship) : edge_types :=
  let lhs := lookup_node class_node_map (get_source relationship) in
  let rhs := lookup_node class_node_map (get_destination relationship) in
  match find (lhs, rhs) edge_type_map with
  | None => edge_type_map ++ [((lhs, rhs), get_type relationship)]
  | Some stored =>
      if replaces stored (get_type relationship)
      then assign (lhs, rhs) (get_type relationship) edge_type_map
      else edge_type_map
  end.

(** The loop over the relationships, from the empty [edge_type_map] *)
Definition merge (class_node_map : gmap string node)
           (relationships : list srcuml_relationship) : edge_types :=
  fold_left (add_relationship class_node_map) relationships [].

(** The [switch] on the kind of an edge *)
Definition stroke_of (r_type : relationship_type) : StrokeType.t :=
  match r_type with
  | DEPENDENCY => StrokeType.Dash
  | ASSOCIATION => StrokeType.Solid
  | BIDIRECTIONAL => StrokeType.Solid
  | AGGREGATION => StrokeType.Solid
  | COMPOSITION => StrokeType.Solid
  | GENERALIZATION => StrokeType.Dash
  | REALIZATION => StrokeType.Dash
  end.

Section Output.
Context {D : Type} `{DoubleOps D}.
Local Open Scope dbl_scope.

(** What the headers outside these files provide: the class objects
    with their names, [generate_label] (which returns the label and
    sets [num_lines] and [longest_line]) and the analysis that lists
    the relationships. *)
Variable srcuml_class : Type.
Variable get_srcuml_name : srcuml_class -> string.
Variable generate_label : srcuml_class -> string * Z * Z.
Variable analyze_relationships : list srcuml_class -> list srcuml_relationship.

(** The constructor: [ga.init(g, ...)] *)
Definition new (ga0 : GA.GraphAttributes D) : outputter D :=
  {| g := emptyGraph;
     ga := GA.init ga0 [nodeGraphics; edgeGraphics; nodeLabel; edgeLabel;
                        nodeStyle; edgeStyle; nodeTemplate] |}.

(** [class_node_map.insert(pair(name, v))] keeps an existing entry. *)
Definition map_insert (m : gmap string node) (name : string) (v : node) : gmap string node :=
  match m !! name with
  | Some _ => m
  | None => <[name := v]> m
  end.

(** The body of the loop over the classes *)
Definition add_class (st : outputter D * gmap string node) (aclass : srcuml_class)
  : outputter D * gmap string node :=
  let '(o, class_node_map) := st in
  let '(g1, cur_node) := newNode (g o) in
  let class_node_map := map_insert class_node_map (get_srcuml_name aclass) cur_node in
  let '(label, num_lines, longest_line) := generate_label aclass in
  let ga1 := GA.set_label (ga o) cur_node label in
  let ga2 := GA.set_height ga1 cur_node (dofZ num_lines * dlit 13 10 * dofZ 10) in
  let ga3 := GA.set_width ga2 cur_node (dofZ longest_line * dlit 75 100 * dofZ 10) in
  let ga4 := GA.set_fillColor ga3 cur_node "Antiquewhite" in
  ({| g := g1; ga := ga4 |}, class_node_map).

(** The body of the loop over [edge_type_map] *)
Definition add_edge (o : outputter D) (entry : edge_key * relationship_type) : outputter D :=
  let '(g1, cur_edge) := newEdge (g o) (fst (fst entry)) (snd (fst entry)) in
  let ga1 := GA.set_strokeWidth (ga o) cur_edge (dofZ 2) in
  let ga2 := GA.set_strokeType ga1 cur_edge (stroke_of (snd entry)) in
  {| g := g1; ga := ga2 |}.

(** The first three loops of [output]: the outputter, [class_node_map]
    and [edge_type_map] as they are when the layout is called *)
Definition build (o : outputter D) (classes : list srcuml_class)
  : outputter D * gmap string node * edge_types :=
  let relationships := analyze_relationships classes in
  let '(o1, class_node_map) := fold_left add_class classes (o, ∅) in
  let edge_type_map := merge class_node_map relationships in
  (fold_left add_edge edge_type_map o1, class_node_map, edge_type_map).

(** [sl.call(ga)] and [drawSVG(ga, out, settings)] are OGDF's. *)
Variable X : Type.
Variable SugiyamaLayout_call : outputter D -> GA.GraphAttributes D.
Variable drawSVG : Graph -> GA.GraphAttributes D -> iostream.ostream X
                   -> bool * iostream.ostream X.

(** [output(out, classes)]: the value returned, the outputter, the
    stream and what was written to [std::cout] *)
Definition output (o : outputter D) (out : iostream.ostream X) (classes : list srcuml_class)
  : bool * outputter D * iostream.ostream X * list string :=
  let '(o2, _, _) := build o classes in
  let ga' := SugiyamaLayout_call o2 in
  let '(ok, out') := drawSVG (g o2) ga' out in
  let cout := if negb ok then ["Error Write"] else [] in
  (true, {| g := g o2; ga := ga' |}, out', cout).

End Output.
End svg_sugiyama_outputter.


(* ------------------------------------------------------------------ *)
(** ** srcyuml_class.hpp: the yUML line of a class                      *)
(* ------------------------------------------------------------------ *)

Module srcyuml_print.
Import ClassPolicy srcyuml.

(** The character ['\n'] *)
Definition newline : string := String (ascii_of_nat 10) EmptyString.

Section Print.
(** The [operator<<] of a declaration and of a function signature are
    outside this file. *)
Variable print_decl : DeclTypeData -> string.
Variable print_function : FunctionSignatureData -> string.

(** One of the six loops of [operator<<]: every member is written after
    [prefix] and followed by [';']. *)
Definition print_members {A} (out : string) (prefix : string) (print : A -> string)
           (members : list A) : string :=
  fold_left (fun out member => (out ++ prefix ++ print member ++ ";")%string) members out.

(** [out << aclass]: what [out] holds afterwards *)
Definition operator_shl (out : string) (aclass : srcyuml_class) : string :=
  let d := data aclass in
  let out := (out ++ "[")%string in
  let out :=
    match type aclass with
    | DATATYPE => (out ++ "«datatype»;")%string
    | INTERFACE => (out ++ "«interface»;")%string
    | ABSTRACT => (out ++ "«abstract»;")%string
    | NONE => out
    end in
  let out := (out ++ name d)%string in
  let out := if has_field aclass || has_method aclass then (out ++ "|")%string else out in
  let out := print_members out "+ " print_decl (fields d PUBLIC) in
  let out := print_members out "- " print_decl (fields d PRIVATE) in
  let out := print_members out "# " print_decl (fields d PROTECTED) in
  let out := if has_method aclass then (out ++ "|")%string else out in
  let out := print_members out "+ " print_function (methods d PUBLIC) in
  let out := print_members out "- " print_function (methods d PRIVATE) in
  let out := print_members out "# " print_function (methods d PROTECTED) in
  (out ++ "]" ++ newline)%string.

End Print.
End srcyuml_print.

(* ------------------------------------------------------------------ *)
(** ** SvgPrinter.cpp: the nodes                                        *)
(* ------------------------------------------------------------------ *)

Module SvgPrinter_nodes.
Import ogdf pugi SvgPrinter.

(** The values of the attributes [drawNode] writes: those of the edges,
    a length in [em], and the [translate(x, y)] of a group. *)
Inductive node_value {D : Type} :=
| Plain (v : attr_value D)
| Em (d : D)
| Translate (x y : D).
Arguments node_value : clear implicits.

(** The elements [drawNode] appends *)
#[warnings="-register-all"]
Inductive node_xml {D : Type} :=
| NElement (tag : string) (attrs : list (string * node_value D)) (children : list node_xml)
| NPcdata (s : string).
Arguments node_xml : clear implicits.

(** [s.c_str()] read back as a string: the characters before the first
    NUL *)
Fixpoint c_str (s : list ascii) : list ascii :=
  match s with
  | [] => []
  | a :: s' => if Ascii.eqb a Ascii.zero then [] else a :: c_str s'
  end.

Definition c_string (s : string) : string :=
  string_of_list_ascii (c_str (list_ascii_of_string s)).

(** The two tags [drawNode] looks for in a label *)
Definition svg_new_line : list ascii := list_ascii_of_string "<svg_new_line>".
Definition svg_box_divide : list ascii := list_ascii_of_string "<svg_box_divide>".

(** [full_text.substr(i, n) == tag], for [i] below the size of the text
    and [n] the size of the tag *)
Definition tag_at (tag full_text : list ascii) (i : nat) : bool :=
  bool_decide (take (length tag) (drop i full_text) = tag).

(** [full_text.substr(pos, len)] for [int] arguments: it throws when
    [pos] is beyond the size of the text (no value), and a negative [len],
    converted to an unsigned size, takes the text to its end. *)
Definition substr (full_text : list ascii) (pos len : Z) : option (list ascii) :=
  if (Z.of_nat (length full_text) <? pos)%Z then None
  else
    let rest := drop (Z.to_nat pos) full_text in
    Some (if (len <? 0)%Z then rest else take (Z.to_nat len) rest).

(** The locals of the first loop of [drawNode] *)
Record widest := { prev1 : Z; largest_line : Z }.

(** One turn of the first loop, at the index [i] *)
Definition widest_step (full_text : list ascii) (st : widest) (i : nat) : widest :=
  let box_divide := tag_at svg_box_divide full_text i in
  let new_line := tag_at svg_new_line full_text i in
  if new_line || box_divide then
    let largest :=
      if (largest_line st <? Z.of_nat i - prev1 st)%Z then (Z.of_nat i - prev1 st)%Z
      else largest_line st in
    let prev := (Z.of_nat i + 14)%Z in
    let prev := if box_divide then (prev + 2)%Z else prev in
    {| prev1 := prev; largest_line := largest |}
  else st.

(** The first loop: the length of the longest line *)
Definition widest_line (full_text : list ascii) : Z :=
  largest_line
    (fold_left (widest_step full_text) (seq 0 (length full_text))
               {| prev1 := 0; largest_line := 0 |}).

Section Nodes.
Context {D : Type} `{DoubleOps D}.
Local Open Scope dbl_scope.

Variable m_attr : GA.GraphAttributes D.
Variable m_settings : GraphIO.SVGSettings D.

(** The stroke arrays of the nodes, which the attributes of the edge part
    do not hold: [m_attr.strokeWidth(v)], [m_attr.strokeType(v)] and
    [m_attr.strokeColor(v)] *)
Variable nodeStrokeWidth : node -> D.
Variable nodeStrokeType : node -> StrokeType.t.
Variable nodeStrokeColor : node -> string.

(** The locals of the second loop: [num_lines], [prev] and the children
    appended to the group after the rectangle *)
Record lines_state := {
  num_lines : Z;
  prev : Z;
  appended : list (node_xml D)
}.

(** The [text] element of a line *)
Definition text_element (num_lines : Z) (chars : Z) (line : list ascii) : node_xml D :=
  NElement "text"
    [("dy", Em (dlit 83 100 + dofZ (num_lines - 1) * dlit 11 10));
     ("dx", Plain (Str ".17em"));
     ("text-anchor", Plain (Str "start"));
     ("fill", Plain (Str (c_string (GraphIO.fontColor m_settings))));
     ("textLength", Em (dofZ chars * dlit 67 100));
     ("lengthAdjust", Plain (Str "spacingAndGlyphs"))]
    [NPcdata (string_of_list_ascii (c_str line))].

(** The [line] element under a line that ends a box *)
Definition rule_element (num_lines largest_line : Z) : node_xml D :=
  NElement "line"
    [("x1", Plain (Str "0"));
     ("y1", Em (dlit 83 100 + dofZ (num_lines - 1) * dlit 11 10 + dlit 34 100));
     ("x2", Em (dofZ largest_line * dlit 75 100));
     ("y2", Em (dlit 83 100 + dofZ (num_lines - 1) * dlit 11 10 + dlit 34 100));
     ("stroke", Plain (Str "black"));
     ("stroke-width", Plain (Str "2px"))]
    [].

(** One turn of the second loop, at the index [i]; no value when [substr]
    throws *)
Definition lines_step (full_text : list ascii) (largest_line : Z)
           (st : option lines_state) (i : nat) : option lines_state :=
  match st with
  | None => None
  | Some st =>
      let box_divide := tag_at svg_box_divide full_text i in
      let new_line := tag_at svg_new_line full_text i in
      if new_line || box_divide then
        let num_lines := (num_lines st + 1)%Z in
        match substr full_text (prev st) (Z.of_nat i - prev st) with
        | None => None
        | Some line =>
            let text_node := text_element num_lines (Z.of_nat i - prev st) line in
            let prev := (Z.of_nat i + 14)%Z in
            if box_divide then
              Some {| num_lines := num_lines; prev := (prev + 2)%Z;
                      appended := appended st ++ [text_node;
                                                  rule_element num_lines largest_line] |}
            else
              Some {| num_lines := num_lines; prev := prev;
                      appended := appended st ++ [text_node] |}
        end
      else Some st
  end.

(** The second loop *)
Definition draw_lines (full_text : list ascii) (largest_line : Z) : option lines_state :=
  fold_left (lines_step full_text largest_line) (seq 0 (length full_text))
            (Some {| num_lines := 0; prev := 0; appended := [] |}).

(** The attributes of the rectangle that come from the style of the node *)
Definition rect_style (v : node) : list (string * node_value D) :=
  if GA.has m_attr nodeStyle then
    [("fill", Plain (Str (GA.fillColor m_attr v)));
     ("stroke-width", Plain (Px (nodeStrokeWidth v)))]
    ++ (let lineStyle :=
          if GA.has m_attr nodeStyle then nodeStrokeType v else StrokeType.Solid in
        if bool_decide (lineStyle = StrokeType.None) then
          [("stroke", Plain (Str "none"))]
        else
          ("stroke", Plain (Str (nodeStrokeColor v)))
          :: map (fun kv => (fst kv, Plain (snd kv)))
                 (writeDashArray lineStyle (nodeStrokeWidth v)))
  else [].

(** [drawNode(xmlNode, v)]: the group it appends to [xmlNode] (no value
    when [substr] throws) and the line it writes to [std::cerr].  The
    counters are [int]s: the label is taken to be shorter than 2^31
    characters. *)
Definition drawNode (v : node) : option (node_xml D) * string :=
  let x := GA.x m_attr v in
  let y := GA.y m_attr v in
  let full_text := c_str (list_ascii_of_string (GA.label m_attr v)) in
  let cerr :=
    ("Full Text: " ++ string_of_list_ascii full_text ++ srcyuml_print.newline)%string in
  let largest_line := widest_line full_text in
  (match draw_lines full_text largest_line with
   | None => None
   | Some st =>
       let shape :=
         NElement "rect"
           (rect_style v
            ++ [("width", Em (dofZ largest_line * dlit 75 100));
                ("height", Em (dofZ (num_lines st) * dlit 13 10))])
           [] in
       Some (NElement "g"
               [("class", Plain (Str "font_style"));
                ("transform",
                 Translate (x - GA.width m_attr v / dofZ 2) (y - GA.height m_attr v / dofZ 2))]
               (shape :: appended st))
   end, cerr).

(** [nodes.quicksort(...)] by the third coordinate is OGDF's. *)
Variable quicksort_by_z : list node -> list node.

(** [m_attr.constGraph().allNodes(nodes)] *)
Definition allNodes (g : Graph) : list node := map element (seq 0 (numberOfNodes g)).

(** [drawNodes(xmlNode)]: the groups appended, in order, with what went
    to [std::cerr]; no value when a [drawNode] throws *)
Definition drawNodes (g : Graph) : option (list (node_xml D)) * list string :=
  let nodes := allNodes g in
  let nodes :=
    if GA.has m_attr nodeGraphics && GA.has m_attr threeD then quicksort_by_z nodes
    else nodes in
  fold_left
    (fun acc v =>
       match acc with
       | (None, cerr) => (None, cerr)
       | (Some groups, cerr) =>
           match drawNode v with
           | (None, line) => (None, cerr ++ [line])
           | (Some group, line) => (Some (groups ++ [group]), cerr ++ [line])
           end
       end)
    nodes (Some [], []).

End Nodes.
End SvgPrinter_nodes.

(* ================================================================== *)
(** * Part II: the notions of the statements, and concrete inputs      *)
(* ================================================================== *)

(** ** Classes *)

Module srcyuml_notions.
Import ClassPolicy srcyuml.

(** Some member list of the three is not empty. *)
Definition any_member {A} (members : AccessSpecifier -> list A) : Prop :=
  exists a, members a <> [].

(** The shape of class the interface rule accepts *)
Definition interface_shape (d : ClassData) : Prop :=
  ~ any_member (constructors d) /\ ~ any_member (fields d) /\ hasDestructor d = false
  /\ methods d PUBLIC <> [] /\ methods d PRIVATE = [] /\ methods d PROTECTED = []
  /\ Forall (fun f => isPureVirtual f = true) (methods d PUBLIC).

(** An interface: two pure virtual public methods and nothing else *)
Definition shape_class : ClassData :=
  {| name := "Shape";
     fields := fun _ => [];
     constructors := fun _ => [];
     methods := fun a =>
       match a with
       | PUBLIC => [ {| function_name := "area"; isPureVirtual := true |};
                     {| function_name := "draw"; isPureVirtual := true |} ]
       | _ => []
       end;
     hasDestructor := false |}.

(** The same class with a public method that has a body *)
Definition shape_with_body : ClassData :=
  {| name := "Shape";
     fields := fun _ => [];
     constructors := fun _ => [];
     methods := fun a =>
       match a with
       | PUBLIC => [ {| function_name := "area"; isPureVirtual := true |};
                     {| function_name := "name"; isPureVirtual := false |} ]
       | _ => []
       end;
     hasDestructor := false |}.

(** A plain record: three fields and a destructor, no constructor and
    no method *)
Definition point_class : ClassData :=
  {| name := "Point";
     fields := fun a =>
       match a with
       | PUBLIC => [ {| decl_name := "x" |}; {| decl_name := "y" |} ]
       | PRIVATE => [ {| decl_name := "cache" |} ]
       | PROTECTED => []
       end;
     constructors := fun _ => [];
     methods := fun _ => [];
     hasDestructor := true |}.

End srcyuml_notions.

(** ** Relationships and nodes *)

Module outputter_notions.
Import ogdf srcuml svg_sugiyama_outputter.

(** The key [output] computes for a relationship *)
Definition key_of (m : gmap string node) (r : srcuml_relationship) : edge_key :=
  (lookup_node m (get_source r), lookup_node m (get_destination r)).

(** Both names of the relationship are keys of [class_node_map]: the two
    [find] of the loop succeed and both handles are assigned. *)
Definition endpoints_found (m : gmap string node) (r : srcuml_relationship) : Prop :=
  is_Some (m !! get_source r) /\ is_Some (m !! get_destination r).

(** The kinds of the relationships that fall on a key, in the order of
    the list *)
Definition kinds_for (m : gmap string node) (key : edge_key)
           (rs : list srcuml_relationship) : list relationship_type :=
  get_type <$> filter (fun r => key_of m r = key) rs.

(** What one more relationship of kind [k] makes of the kind stored
    under its key *)
Definition resolve (stored : option relationship_type) (k : relationship_type)
  : option relationship_type :=
  match stored with
  | None => Some k
  | Some s => Some (if replaces s k then k else s)
  end.

(** The kinds of the dominance chain *)
Definition in_chain (k : relationship_type) : Prop :=
  k = ASSOCIATION \/ k = BIDIRECTIONAL \/ k = AGGREGATION \/ k = COMPOSITION.

(** The place of a kind in the chain
    Association < Bidirectional < Aggregation < Composition *)
Definition chain_rank (k : relationship_type) : nat :=
  match k with
  | BIDIRECTIONAL => 1
  | AGGREGATION => 2
  | COMPOSITION => 3
  | _ => 0
  end.

(** The kind at a place of the chain *)
Definition chain_kind (n : nat) : relationship_type :=
  match n with
  | 0 => ASSOCIATION
  | 1 => BIDIRECTIONAL
  | 2 => AGGREGATION
  | _ => COMPOSITION
  end.

(** The highest kind of a list of kinds of the chain *)
Definition chain_max (ks : list relationship_type) : relationship_type :=
  chain_kind (max_list (chain_rank <$> ks)).

(** The two ends of an edge of the graph, as a key *)
Definition endpoints (e : edge) : edge_key := (source e, target e).

Section Sizes.
Context {D : Type} `{DoubleOps D}.
Local Open Scope dbl_scope.
Variable srcuml_class : Type.
Variable generate_label : srcuml_class -> string * Z * Z.

(** The height and the width [output] gives the node of a class *)
Definition height_of (c : srcuml_class) : D :=
  dofZ (snd (fst (generate_label c))) * dlit 13 10 * dofZ 10.
Definition width_of (c : srcuml_class) : D :=
  dofZ (snd (generate_label c)) * dlit 75 100 * dofZ 10.

End Sizes.
Arguments height_of {D _ srcuml_class} generate_label c.
Arguments width_of {D _ srcuml_class} generate_label c.

(** *** Concrete inputs, run at binary64 *)

(** Attributes before anything is set: a directed graph, every number 0 *)
Definition blank : GA.GraphAttributes float :=
  {| GA.attributes := []; GA.directed := true;
     GA.x := fun _ => 0%float; GA.y := fun _ => 0%float;
     GA.width := fun _ => 0%float; GA.height := fun _ => 0%float;
     GA.label := fun _ => ""; GA.fillColor := fun _ => "";
     GA.strokeWidth := fun _ => 1%float; GA.strokeType := fun _ => StrokeType.Solid;
     GA.strokeColor := fun _ => "#000000"; GA.arrowType := fun _ => EdgeArrow.Undefined;
     GA.bends := fun _ => []; GA.edgeLabel := fun _ => "" |}.

(** Classes given by their names, each with a label of three lines, the
    longest ten characters long *)
Definition three_by_ten (c : string) : string * Z * Z := (c, 3%Z, 10%Z).

Definition name_of (c : string) : string := c.

Definition rel (s d : string) (ty : relationship_type) : srcuml_relationship :=
  {| get_source := s; get_destination := d; get_type := ty |}.

Definition run (relationships : list srcuml_relationship) (classes : list string) :=
  build string name_of three_by_ten (fun _ => relationships)
        (svg_sugiyama_outputter.new blank) classes.

(** An edge of the graph joins the unordered pair [{u, v}]. *)
Definition joins (u v : node) (e : edge) : Prop :=
  (source e = u /\ target e = v) \/ (source e = v /\ target e = u).

#[global] Instance joins_dec u v e : Decision (joins u v e).
Proof. unfold joins. apply _. Defined.

End outputter_notions.

(** ** Points, paths and arrow heads *)

Module SvgPrinter_notions.
Import ogdf pugi SvgPrinter.

Section Generic.
Context {D : Type} `{DoubleOps D}.
Variable m_attr : GA.GraphAttributes D.

Abbreviation covered p e v := (isCoveredBy m_attr p e v).

(** The segment leaves the covered region of the source; it enters that
    of the target. *)
Definition leaves (e : edge) (p1 p2 : DPoint D) : bool :=
  covered p1 e (source e) && negb (covered p2 e (source e)).
Definition enters (e : edge) (p1 p2 : DPoint D) : bool :=
  negb (covered p1 e (target e)) && covered p2 e (target e).

(** The point is at least the clearance away from the rectangle of [v]:
    left of, right of, above or below the rectangle grown by the arrow
    size, its border included. *)
Definition clear_of (p : DPoint D) (e : edge) (v : node) : bool :=
  let a := getArrowSize m_attr e v in
  (dle (m_x p) (GA.x m_attr v - GA.width m_attr v / dofZ 2 - a)
   || dge (m_x p) (GA.x m_attr v + GA.width m_attr v / dofZ 2 + a)
   || dle (m_y p) (GA.y m_attr v - GA.height m_attr v / dofZ 2 - a)
   || dge (m_y p) (GA.y m_attr v + GA.height m_attr v / dofZ 2 + a))%dbl.

(** The point is on the border of the rectangle of [v] grown by the
    arrow size. *)
Definition on_grown_border (p : DPoint D) (e : edge) (v : node) : bool :=
  let a := getArrowSize m_attr e v in
  (covered p e v
   && (deq (m_x p) (GA.x m_attr v - GA.width m_attr v / dofZ 2 - a)
       || deq (m_x p) (GA.x m_attr v + GA.width m_attr v / dofZ 2 + a)
       || deq (m_y p) (GA.y m_attr v - GA.height m_attr v / dofZ 2 - a)
       || deq (m_y p) (GA.y m_attr v + GA.height m_attr v / dofZ 2 + a)))%dbl.

(** The numbers of the [points] attribute of a polygon *)
Definition polygon_points (n : xml_node D) : list D :=
  match attrs_of n with
  | (_, Numbers l) :: _ => l
  | _ => []
  end.

(** The segments of a polyline: every point with the next one *)
Definition segments (path : list (DPoint D)) : list (DPoint D * DPoint D) :=
  zip path (tail path).

(** The index of the first segment that leaves the covered region of the
    source, and of the first that enters that of the target *)
Definition first_leaving (e : edge) (path : list (DPoint D)) : option nat :=
  fst <$> list_find (fun s => leaves e s.1 s.2 = true) (segments path).
Definition first_entering (e : edge) (path : list (DPoint D)) : option nat :=
  fst <$> list_find (fun s => enters e s.1 s.2 = true) (segments path).

(** The points to emit for a polyline, [drawing] telling whether a
    leaving segment has been met before it.  With [a] the first segment
    from which points are emitted (the first of the polyline when
    [drawing], the first leaving segment otherwise) and [b] the first
    entering segment:
    - when a segment enters and [a] is not after [b], the points from
      the first point of [a] to the second point of [b];
    - when a segment enters and none leaves before it or with it, the
      second point of [b] alone;
    - when no segment enters, the points from the first point of [a] to
      the last but one of the polyline;
    - nothing when no segment enters and there is no [a]. *)
Definition trimmed_from (drawing : bool) (e : edge) (path : list (DPoint D))
  : list (DPoint D) :=
  let start := if drawing then Some 0 else first_leaving e path in
  match first_entering e path with
  | Some b =>
      match start with
      | Some a => if a <=? b then take (b + 2 - a) (drop a path) else take 1 (drop (b + 1) path)
      | None => take 1 (drop (b + 1) path)
      end
  | None =>
      match start with
      | Some a => drop a (removelast path)
      | None => []
      end
  end.

(** The trimmed point list of a polyline *)
Definition trimmed (e : edge) (path : list (DPoint D)) : list (DPoint D) :=
  trimmed_from false e path.

(** The path data in the [d] attribute of an element *)
Definition path_data (n : xml_node D) : option (list (path_cmd D)) :=
  match List.find (fun kv => String.eqb (fst kv) "d") (attrs_of n) with
  | Some (_, PathData l) => Some l
  | _ => None
  end.

(** A bezier or an arc command *)
Definition is_curve (cmd : path_cmd D) : bool :=
  match cmd with
  | C _ _ _ _ _ _ | A _ _ _ _ _ => true
  | M _ _ | L _ _ => false
  end.

End Generic.

(** *** Concrete layouts, run at binary64 *)

Definition box0 : node := element 0.
Definition box1 : node := element 1.
Definition e01 : edge := {| index := 0; source := box0; target := box1 |}.
Definition e10 : edge := {| index := 1; source := box1; target := box0 |}.

(** Two boxes of 16 by 16, centred at (0, 0) and at ([gap], 0), with the
    attributes the outputter initialises and edges of stroke width 2 *)
Definition boxes (gap : float) (flags : list attribute) : GA.GraphAttributes float :=
  {| GA.attributes := flags; GA.directed := true;
     GA.x := fun v => if decide (v = box1) then gap else 0%float;
     GA.y := fun _ => 0%float;
     GA.width := fun _ => 16%float; GA.height := fun _ => 16%float;
     GA.label := fun _ => ""; GA.fillColor := fun _ => "Antiquewhite";
     GA.strokeWidth := fun _ => 2%float; GA.strokeType := fun _ => StrokeType.Solid;
     GA.strokeColor := fun _ => "#000000"; GA.arrowType := fun _ => EdgeArrow.Last;
     GA.bends := fun _ => []; GA.edgeLabel := fun _ => "" |}.

Definition outputter_flags : list attribute :=
  [nodeGraphics; edgeGraphics; nodeLabel; edgeLabel; nodeStyle; edgeStyle; nodeTemplate].

(** 100 apart, as the outputter sets the graph up: no arrow attribute *)
Definition apart : GA.GraphAttributes float := boxes 100%float outputter_flags.
(** The same with arrow heads *)
Definition apart_arrows : GA.GraphAttributes float := boxes 100%float (edgeArrow :: outputter_flags).
(** One box on top of the other *)
Definition stacked : GA.GraphAttributes float := boxes 0%float outputter_flags.

(** Two boxes of 20 by 16, centred at (0, 0) and at (100, 140), with
    arrow heads *)
Definition tall : GA.GraphAttributes float :=
  {| GA.attributes := edgeArrow :: outputter_flags; GA.directed := true;
     GA.x := fun v => if decide (v = box1) then 100%float else 0%float;
     GA.y := fun v => if decide (v = box1) then 140%float else 0%float;
     GA.width := fun _ => 20%float; GA.height := fun _ => 16%float;
     GA.label := fun _ => ""; GA.fillColor := fun _ => "Antiquewhite";
     GA.strokeWidth := fun _ => 2%float; GA.strokeType := fun _ => StrokeType.Solid;
     GA.strokeColor := fun _ => "#000000"; GA.arrowType := fun _ => EdgeArrow.Last;
     GA.bends := fun _ => []; GA.edgeLabel := fun _ => "" |}.

(** A box of 10 by 10 centred at (5, 5) and a node without extent at
    (-5, 5), with thin strokes and arrow heads: the arrow size is 1.25 *)
Definition corner : GA.GraphAttributes float :=
  {| GA.attributes := edgeArrow :: outputter_flags; GA.directed := true;
     GA.x := fun v => if decide (v = box1) then 5%float else (-5)%float;
     GA.y := fun _ => 5%float;
     GA.width := fun v => if decide (v = box1) then 10%float else 0%float;
     GA.height := fun v => if decide (v = box1) then 10%float else 0%float;
     GA.label := fun _ => ""; GA.fillColor := fun _ => "Antiquewhite";
     GA.strokeWidth := fun _ => 0.25%float; GA.strokeType := fun _ => StrokeType.Solid;
     GA.strokeColor := fun _ => "#000000"; GA.arrowType := fun _ => EdgeArrow.Last;
     GA.bends := fun _ => []; GA.edgeLabel := fun _ => "" |}.

Definition settings0 : GraphIO.SVGSettings float := GraphIO.default_settings.
Definition curved : GraphIO.SVGSettings float :=
  {| GraphIO.margin := 1%float; GraphIO.curviness := 0.5%float;
     GraphIO.bezierInterpolation := true;
     GraphIO.fontSize := 10; GraphIO.fontColor := "#000000"; GraphIO.fontFamily := "Courier";
     GraphIO.width := ""; GraphIO.height := "" |}.

Definition svg_root : xml_node float := Element "svg" [("version", Str "1.1")] [].

Definition fresh_stream : iostream.ostream (xml_node float) :=
  {| iostream.written := []; iostream.failed := false; iostream.room := 1 |}.
Definition failed_stream : iostream.ostream (xml_node float) :=
  {| iostream.written := []; iostream.failed := true; iostream.room := 1 |}.

End SvgPrinter_notions.

(** ** The arrow head, over the real numbers *)

Module arrow_head_notions.
Import ogdf pugi SvgPrinter SvgPrinter_notions.
Local Open Scope R_scope.

(** The squared distance of two points, and the middle of two points *)
Definition sqdist (p q : DPoint R) : R :=
  (m_x p - m_x q) * (m_x p - m_x q) + (m_y p - m_y q) * (m_y p - m_y q).
Definition midpoint (p q : DPoint R) : DPoint R :=
  P ((m_x p + m_x q) / 2) ((m_y p + m_y q) / 2).

(** The value of [sign] after [int sign = d > 0 ? 1 : -1] *)
Definition sign_of (d : R) : R := if bool_decide (0 < d) then 1 else -1.

(** The two ends of the base of the head drawn at the tip [(tx, ty)] for
    a segment that starts at [(sx, sy)] *)
Definition base_ends (sx sy tx ty size : R) : DPoint R * DPoint R :=
  let l := R_sqrt.sqrt ((tx - sx) * (tx - sx) + (ty - sy) * (ty - sy)) in
  let ux := (tx - sx) / l in
  let uy := (ty - sy) / l in
  let mx := tx - size * ux in
  let my := ty - size * uy in
  (P (mx - size / 4 * uy) (my + size / 4 * ux),
   P (mx + size / 4 * uy) (my - size / 4 * ux)).

Section Real.
Variable m_attr : GA.GraphAttributes R.

Abbreviation covered p e v := (isCoveredBy m_attr p e v).

(** What [drawArrowHead] is to draw at the end [end_] of the segment
    from [start], at the node [v] of the edge [e], over the real numbers:
    - the size of the head is the larger of three stroke widths and a
      sixteenth of the widths and heights of the two nodes of the edge;
    - the tip lies on the line of the segment and on the line of a side
      of the rectangle of [v] itself: the vertical side facing [start]
      when the segment is not vertical and meets that side inside the
      covered region, the horizontal side facing [start] otherwise; for a
      vertical segment the tip is in the covered region;
    - unless the tip falls on [start], the head is an isoceles triangle:
      its base has its middle at distance [size] from the tip and its
      ends at distance [size / 4] from that middle, it is perpendicular
      to the axis from the middle to the tip, and the axis lies along the
      segment;
    - when [start] is outside the covered region, as it is when
      [drawEdge] calls, the head points from [start] to the tip: the
      middle of the base lies before the tip on the way from [start];
      and when moreover the tip is in the covered region, this is the
      direction of the segment, from [start] to [end_]. *)
Definition arrow_head_spec (start end_ : DPoint R) (v : node) (e : edge) : Prop :=
  let size := getArrowSize m_attr e v in
  let w := opposite e v in
  let dx := m_x end_ - m_x start in
  let dy := m_y end_ - m_y start in
  let side_x := GA.x m_attr v - GA.width m_attr v / 2 * sign_of dx in
  let side_y := GA.y m_attr v - GA.height m_attr v / 2 * sign_of dy in
  exists tip b1 b2 : DPoint R,
    polygon_points (drawArrowHead m_attr start end_ v e).1
    = [m_x tip; m_y tip; m_x b1; m_y b1; m_x b2; m_y b2]
    /\ size = Rmax ((if GA.has m_attr edgeStyle then GA.strokeWidth m_attr e else 1) * 3)
                   ((GA.width m_attr v + GA.height m_attr v
                     + GA.width m_attr w + GA.height m_attr w) / 16)
    /\ ((dx <> 0 /\ m_x tip = side_x /\ covered tip e v = true)
        \/ ((dx = 0 \/ covered (P side_x (m_y start + (side_x - m_x start) * (dy / dx))) e v
                       = false)
            /\ m_y tip = side_y))
    /\ (dx = 0 -> covered tip e v = true)
    /\ (m_x tip - m_x start) * dy = (m_y tip - m_y start) * dx
    /\ (tip <> start ->
        let m := midpoint b1 b2 in
        sqdist tip m = size * size
        /\ sqdist b1 m = size / 4 * (size / 4)
        /\ sqdist b2 m = size / 4 * (size / 4)
        /\ (m_x tip - m_x m) * (m_x b1 - m_x b2) + (m_y tip - m_y m) * (m_y b1 - m_y b2) = 0
        /\ (m_x tip - m_x m) * dy - (m_y tip - m_y m) * dx = 0
        /\ (covered start e v = false ->
            (m_x tip - m_x m) * (m_x tip - m_x start) + (m_y tip - m_y m) * (m_y tip - m_y start)
            = size * R_sqrt.sqrt (sqdist tip start)))
    /\ (covered start e v = false -> covered tip e v = true ->
        0 < (m_x tip - m_x start) * dx + (m_y tip - m_y start) * dy).

End Real.

(** The two boxes of [apart_arrows], over the real numbers *)
Definition apart_arrows_real : GA.GraphAttributes R :=
  {| GA.attributes := edgeArrow :: outputter_flags; GA.directed := true;
     GA.x := fun v => if decide (v = box1) then 100 else 0;
     GA.y := fun _ => 0;
     GA.width := fun _ => 16; GA.height := fun _ => 16;
     GA.label := fun _ => ""; GA.fillColor := fun _ => "Antiquewhite";
     GA.strokeWidth := fun _ => 2; GA.strokeType := fun _ => StrokeType.Solid;
     GA.strokeColor := fun _ => "#000000"; GA.arrowType := fun _ => EdgeArrow.Last;
     GA.bends := fun _ => []; GA.edgeLabel := fun _ => "" |}.

(** The two boxes of [tall], over the real numbers *)
Definition tall_real : GA.GraphAttributes R :=
  {| GA.attributes := edgeArrow :: outputter_flags; GA.directed := true;
     GA.x := fun v => if decide (v = box1) then 100 else 0;
     GA.y := fun v => if decide (v = box1) then 140 else 0;
     GA.width := fun _ => 20; GA.height := fun _ => 16;
     GA.label := fun _ => ""; GA.fillColor := fun _ => "Antiquewhite";
     GA.strokeWidth := fun _ => 2; GA.strokeType := fun _ => StrokeType.Solid;
     GA.strokeColor := fun _ => "#000000"; GA.arrowType := fun _ => EdgeArrow.Last;
     GA.bends := fun _ => []; GA.edgeLabel := fun _ => "" |}.

(** Reads the operations of [real_ops] as those of [R]. *)
Ltac to_real :=
  repeat change (dsign (dgt ?d (dofZ 0))) with (sign_of d) in *;
  cbn [dadd dsub dmul ddiv dsqrt dofZ deq real_ops m_x m_y P] in *.

End arrow_head_notions.


(** ** More on relationships and nodes *)

Module outputter_more_notions.
Import ogdf srcuml svg_sugiyama_outputter outputter_notions.

(** The kinds of the dominance chain, as a test *)
Definition chainb (k : relationship_type) : bool :=
  match k with
  | ASSOCIATION | BIDIRECTIONAL | AGGREGATION | COMPOSITION => true
  | DEPENDENCY | GENERALIZATION | REALIZATION => false
  end.

(** The kind a list of kinds, taken in order, leaves for its pair: a
    first kind outside the chain stays; after a first kind of the chain,
    the highest kind of the chain in the list. *)
Definition resolved (ks : list relationship_type) : option relationship_type :=
  match ks with
  | [] => None
  | k0 :: _ =>
      Some (if chainb k0 then chain_max (filter (fun k => chainb k = true) ks) else k0)
  end.

(** The kinds drawn with a dashed stroke *)
Definition dashed (k : relationship_type) : bool :=
  match k with
  | DEPENDENCY | GENERALIZATION | REALIZATION => true
  | ASSOCIATION | BIDIRECTIONAL | AGGREGATION | COMPOSITION => false
  end.

(** The edge [output] makes of the [i]-th entry of [edge_type_map] *)
Definition edge_of (i : nat) (entry : edge_key * relationship_type) : edge :=
  {| index := i; source := fst (fst entry); target := snd (fst entry) |}.

(** The map of two classes A and B, and relationships between them in
    both directions *)
Definition two_classes : gmap string node :=
  <["A" := element 0]> (<["B" := element 1]> ∅).
Definition both_ways : list srcuml_relationship :=
  [rel "A" "B" DEPENDENCY; rel "A" "B" COMPOSITION;
   rel "B" "A" ASSOCIATION; rel "B" "A" AGGREGATION].

(** Classes with a label of their own each, for the runs *)
Definition label_by_name (c : string) : string * Z * Z :=
  ((c ++ "<svg_new_line>")%string, 1%Z, Z.of_nat (String.length c)).

End outputter_more_notions.

(** ** The yUML line of a class *)

Module srcyuml_print_notions.
Import ClassPolicy srcyuml srcyuml_print srcyuml_notions.

(** The marker written for a stereotype *)
Definition stereotype (t : class_type) : string :=
  match t with
  | NONE => ""
  | INTERFACE => "«interface»;"
  | ABSTRACT => "«abstract»;"
  | DATATYPE => "«datatype»;"
  end.

(** The members of one kind as they stand in a line: the public ones
    after a plus sign, the private ones after a minus sign, the protected
    ones after a hash sign, each closed by a semicolon. *)
Definition member_text {A} (print : A -> string) (members : AccessSpecifier -> list A)
  : string :=
  let entry sign m := (sign ++ print m ++ ";")%string in
  fold_right String.append ""
    (map (entry "+ ") (members PUBLIC) ++ map (entry "- ") (members PRIVATE)
     ++ map (entry "# ") (members PROTECTED)).

(** Declarations and signatures printed by their names, for the runs *)
Definition by_name (d : DeclTypeData) : string := decl_name d.
Definition by_function_name (f : FunctionSignatureData) : string :=
  (function_name f ++ "()")%string.

End srcyuml_print_notions.

(** ** Paths and groups *)

Module SvgPrinter_path_notions.
Import ogdf pugi SvgPrinter SvgPrinter_notions.

Section Generic.
Context {D : Type} `{DoubleOps D}.
Local Open Scope dbl_scope.
Variable m_attr : GA.GraphAttributes D.
Variable m_settings : GraphIO.SVGSettings D.

(** The straight strokes between the consecutive points of a list *)
Definition polyline (points : list (DPoint D)) : list (path_cmd D) :=
  concat (zip_with (fun p q => [M (m_x p) (m_y p); L (m_x q) (m_y q)]) points (tail points)).

(** What [drawBezierPath] and [drawRoundPath] do after their loops, on
    what the loops leave *)
Definition bezier_finish (r : list (DPoint D) * DPoint D * list (path_cmd D))
  : list (path_cmd D) :=
  match r with
  | (p1 :: p2 :: _, cLast, ss) => drawBezier ss p1 p2 cLast (pscale (dlit 1 2) (padd p2 p1))
  | (_, _, ss) => ss
  end.

Definition round_finish (c : D) (r : list (DPoint D) * list (path_cmd D))
  : list (path_cmd D) :=
  match r with
  | (p1 :: p2 :: _, ss) =>
      drawLine ss p2 (pscale (dlit 1 2) (padd (padd p1 p2) (pscale (dofZ 1 - c) (psub p1 p2))))
  | (_, ss) => ss
  end.

(** The two control points [drawBezierPath] computes at the middle one
    of three consecutive points: the one before it and the one after it *)
Definition control_before (c : D) (p1 p2 p3 : DPoint D) : DPoint D :=
  let delta := psub p2 (pscale (dlit 1 2) (padd p1 p3)) in
  padd (padd p1 (pscale c delta)) (pscale (dofZ 1 - c) (psub p2 p1)).
Definition control_after (c : D) (p1 p2 p3 : DPoint D) : DPoint D :=
  let delta := psub p2 (pscale (dlit 1 2) (padd p1 p3)) in
  padd (padd p3 (pscale c delta)) (pscale (dofZ 1 - c) (psub p2 p3)).

(** The radius of the arc [drawRoundPath] draws at the middle one of
    three consecutive points, and the two ends of the arc *)
Definition arc_radius (c : D) (p1 p2 p3 : DPoint D) : D :=
  dmin (norm (psub p1 p2)) (norm (psub p3 p2)) * c / dofZ 2.
Definition arc_end (c : D) (p1 p2 p3 : DPoint D) : DPoint D :=
  padd p2 (pscale_by (psub p1 p2) (arc_radius c p1 p2 p3 / norm (psub p1 p2))).

(** What a turn of the loop of [drawRoundPath] writes for three
    consecutive points *)
Definition round_corner (c : D) (p1 p2 p3 : DPoint D) : list (path_cmd D) :=
  let pA := arc_end c p1 p2 p3 in
  let pB := padd p2 (pscale_by (psub p3 p2) (arc_radius c p1 p2 p3 / norm (psub p3 p2))) in
  let vA := psub p2 p1 in
  let vB := psub p3 p1 in
  let m12 := pscale (dlit 1 2) (padd p1 p2) in
  let m32 := pscale (dlit 1 2) (padd p3 p2) in
  [M (m_x m12) (m_y m12); L (m_x pA) (m_y pA);
   M (m_x m32) (m_y m32); L (m_x pB) (m_y pB);
   M (m_x pA) (m_y pA);
   A (arc_radius c p1 p2 p3) (arc_radius c p1 p2 p3)
     (dgt (m_x vA * m_y vB - m_y vA * m_x vB) (dofZ 0)) (m_x pB) (m_y pB)].

(** Fewer than two points are left of the edge. *)
Definition undrawn (e : edge) : bool :=
  (length (points (drawEdge_trim m_attr m_settings e)) <? 2)%nat.

(** The number of elements of a name in a list *)
Definition count_tag (t : string) (l : list (xml_node D)) : nat :=
  length (filter (fun n => tag_of n = t) l).

End Generic.

(** Three points of a path with a bend, at binary64 *)
Definition bent : list (DPoint float) := [P 0 0; P 50 40; P 100 0]%float.

(** Curviness one half and round corners, over the real numbers *)
Definition rounded_real : GraphIO.SVGSettings R :=
  {| GraphIO.margin := 1%R; GraphIO.curviness := (1 / 2)%R;
     GraphIO.bezierInterpolation := false;
     GraphIO.fontSize := 10; GraphIO.fontColor := "#000000"; GraphIO.fontFamily := "Courier";
     GraphIO.width := ""; GraphIO.height := "" |}.

(** The two boxes of [apart], over the real numbers *)
Definition apart_real : GA.GraphAttributes R :=
  {| GA.attributes := outputter_flags; GA.directed := true;
     GA.x := fun v => if decide (v = box1) then 100%R else 0%R;
     GA.y := fun _ => 0%R;
     GA.width := fun _ => 16%R; GA.height := fun _ => 16%R;
     GA.label := fun _ => ""; GA.fillColor := fun _ => "Antiquewhite";
     GA.strokeWidth := fun _ => 2%R; GA.strokeType := fun _ => StrokeType.Solid;
     GA.strokeColor := fun _ => "#000000"; GA.arrowType := fun _ => EdgeArrow.Last;
     GA.bends := fun _ => []; GA.edgeLabel := fun _ => "" |}.

End SvgPrinter_path_notions.

(** ** Labels *)

Module SvgPrinter_nodes_notions.
Import ogdf pugi SvgPrinter SvgPrinter_nodes.

(** One of the two tags is read at the index [i] of the text. *)
Definition is_tag (text : list ascii) (i : nat) : bool :=
  tag_at svg_new_line text i || tag_at svg_box_divide text i.

(** Neither tag occurs in the text. *)
Definition tag_free (text : list ascii) : bool :=
  forallb (fun i => negb (is_tag text i)) (seq 0 (length text)).

(** The tag that closes a row of a label: the box divider or the line
    break *)
Definition closing (divide : bool) : list ascii :=
  if divide then svg_box_divide else svg_new_line.

(** A label made of rows, each closed by a tag, and of the text after
    the last tag *)
Definition label_text (rows : list (list ascii * bool)) (rest : list ascii) : list ascii :=
  concat (map (fun row => row.1 ++ closing row.2) rows) ++ rest.

(** The length of the longest row *)
Definition longest_row (rows : list (list ascii * bool)) : Z :=
  Z.of_nat (max_list ((fun row => length row.1) <$> rows)).

Section Rows.
Context {D : Type} `{DoubleOps D}.
Variable m_settings : GraphIO.SVGSettings D.

(** The elements of the rows of a label, the first of which is the
    [k+1]-th line of the node: a text for each, and a rule under each row
    closed by a box divider *)
Fixpoint row_elements (k : Z) (width : Z) (rows : list (list ascii * bool))
  : list (node_xml D) :=
  match rows with
  | [] => []
  | row :: rows' =>
      text_element m_settings (k + 1) (Z.of_nat (length row.1)) row.1
      :: (if row.2 then [rule_element (k + 1) width] else [])
      ++ row_elements (k + 1) width rows'
  end.

(** The name of an element *)
Definition name_of_node (n : node_xml D) : string :=
  match n with NElement t _ _ => t | NPcdata _ => "" end.

(** A text or a rule *)
Definition text_or_line (n : node_xml D) : Prop :=
  name_of_node n = "text" \/ name_of_node n = "line".

End Rows.

(** The label of a class with a name, a field and a method *)
Definition account_label : string :=
  "Account<svg_box_divide>- balance<svg_box_divide>+ deposit()<svg_new_line>".

Definition account_rows : list (list ascii * bool) :=
  [(list_ascii_of_string "Account", true);
   (list_ascii_of_string "- balance", true);
   (list_ascii_of_string "+ deposit()", false)].

(** A node at (50, 20) of 82.5 by 39 with that label *)
Definition account_node : GA.GraphAttributes float :=
  {| GA.attributes := SvgPrinter_notions.outputter_flags; GA.directed := true;
     GA.x := fun _ => 50%float; GA.y := fun _ => 20%float;
     GA.width := fun _ => 82.5%float; GA.height := fun _ => 39%float;
     GA.label := fun _ => account_label; GA.fillColor := fun _ => "Antiquewhite";
     GA.strokeWidth := fun _ => 2%float; GA.strokeType := fun _ => StrokeType.Solid;
     GA.strokeColor := fun _ => "#000000"; GA.arrowType := fun _ => EdgeArrow.Last;
     GA.bends := fun _ => []; GA.edgeLabel := fun _ => "" |}.

End SvgPrinter_nodes_notions.

(* ================================================================== *)
(** * Part III: properties                                             *)
(* ================================================================== *)

(** ** The stereotype of a class *)

Module srcyuml_facts.
Import ClassPolicy srcyuml srcyuml_notions.

Lemma size_nonzero_false {A} (v : list A) : size_nonzero v = false <-> v = [].
Proof. destruct v; unfold size_nonzero; simpl; split; congruence. Qed.

Lemma size_nonzero_true {A} (v : list A) : size_nonzero v = true <-> v <> [].
Proof. destruct v; unfold size_nonzero; simpl; split; congruence. Qed.

Lemma empty_true {A} (v : list A) : empty v = true <-> v = [].
Proof. destruct v; unfold empty; simpl; split; congruence. Qed.

(** Once cleared, [is_interface] stays cleared. *)
Lemma is_interface_cleared fs :
  fold_left (fun is_interface function =>
               if negb (isPureVirtual function) then false else is_interface)
            fs false = false.
Proof. induction fs as [|f fs IH]; simpl; [reflexivity|]. by destruct (isPureVirtual f). Qed.

Lemma is_interface_loop_true fs :
  is_interface_loop fs = true <-> Forall (fun f => isPureVirtual f = true) fs.
Proof.
  unfold is_interface_loop. induction fs as [|f fs IH]; simpl.
  - split; [constructor | reflexivity].
  - destruct (isPureVirtual f) eqn:Hf; simpl.
    + rewrite IH. split; [by constructor | by inversion 1].
    + rewrite is_interface_cleared. split; [discriminate |].
      inversion 1; congruence.
Qed.

Lemma has_member_false {A} (members : AccessSpecifier -> list A) :
  size_nonzero (members PUBLIC) || size_nonzero (members PRIVATE)
  || size_nonzero (members PROTECTED) = false <-> ~ any_member members.
Proof.
  rewrite !orb_false_iff, !size_nonzero_false. unfold any_member. split.
  - intros [[H1 H2] H3] [[] Ha]; congruence.
  - intros Hn. repeat split.
    all: match goal with
         | |- ?l = [] => destruct l eqn:E; [reflexivity | exfalso; apply Hn]
         end.
    + exists PUBLIC; congruence.
    + exists PRIVATE; congruence.
    + exists PROTECTED; congruence.
Qed.

(** [analyze_data] tags exactly the classes of that shape as interfaces. *)
Lemma classify_interface_iff d : classify d = INTERFACE <-> interface_shape d.
Proof.
  unfold classify, analyze_data, interface_shape; simpl.
  pose proof (has_member_false (constructors d)) as Hc.
  pose proof (has_member_false (fields d)) as Hf.
  pose proof (has_member_false (methods d)) as Hm.
  pose proof (is_interface_loop_true (methods d PUBLIC)) as Hp.
  pose proof (size_nonzero_true (methods d PUBLIC)) as Hpub.
  pose proof (empty_true (methods d PRIVATE)) as Hpriv.
  pose proof (empty_true (methods d PROTECTED)) as Hprot.
  destruct (size_nonzero (constructors d PUBLIC) || size_nonzero (constructors d PRIVATE)
            || size_nonzero (constructors d PROTECTED)) eqn:Ec; simpl.
  { split; [discriminate |]. intros [Hnc _]. apply Hc in Hnc. discriminate. }
  assert (~ any_member (constructors d)) as Hnc by (by apply Hc).
  destruct (size_nonzero (methods d PUBLIC) || size_nonzero (methods d PRIVATE)
            || size_nonzero (methods d PROTECTED)) eqn:Em; simpl.
  2:{ split; [discriminate |]. intros (_ & _ & _ & Hne & _).
      destruct Hm as [Hm _]. specialize (Hm eq_refl).
      exfalso. apply Hm. by exists PUBLIC. }
  destruct (size_nonzero (fields d PUBLIC) || size_nonzero (fields d PRIVATE)
            || size_nonzero (fields d PROTECTED)) eqn:Ef; simpl.
  { split; [discriminate |]. intros (_ & Hnf & _). apply Hf in Hnf. discriminate. }
  assert (~ any_member (fields d)) as Hnf by (by apply Hf).
  destruct (hasDestructor d) eqn:Ed; simpl.
  { split; [discriminate |]. intros (_ & _ & Hd & _). discriminate. }
  destruct (size_nonzero (methods d PUBLIC)) eqn:E1; simpl.
  2:{ split; [discriminate |]. intros (_ & _ & _ & Hne & _).
      apply Hpub in Hne. discriminate. }
  destruct (empty (methods d PRIVATE)) eqn:E2; simpl.
  2:{ split; [discriminate |]. intros (_ & _ & _ & _ & He & _).
      apply Hpriv in He. discriminate. }
  destruct (empty (methods d PROTECTED)) eqn:E3; simpl.
  2:{ split; [discriminate |]. intros (_ & _ & _ & _ & _ & He & _).
      apply Hprot in He. discriminate. }
  destruct (is_interface_loop (methods d PUBLIC)) eqn:E4.
  - split; [| reflexivity]. intros _.
    repeat split; try assumption; try tauto.
  - split; [discriminate |]. intros (_ & _ & _ & _ & _ & _ & Hall).
    apply Hp in Hall. discriminate.
Qed.

(** C5.  A class with no constructor, no field, no destructor, at least
    one method, all of its methods public and every public method pure
    virtual is classified as an interface; a class with a public method
    that is not pure virtual, a private or protected method, a field, a
    constructor or a destructor is not. *)
Theorem interface_rule (d : ClassData) :
  (~ any_member (constructors d) -> ~ any_member (fields d) -> hasDestructor d = false ->
   methods d PUBLIC <> [] -> methods d PRIVATE = [] -> methods d PROTECTED = [] ->
   Forall (fun f => isPureVirtual f = true) (methods d PUBLIC) ->
   classify d = INTERFACE)
  /\
  ((exists f, In f (methods d PUBLIC) /\ isPureVirtual f = false)
   \/ methods d PRIVATE <> [] \/ methods d PROTECTED <> []
   \/ any_member (fields d) \/ any_member (constructors d) \/ hasDestructor d = true ->
   classify d <> INTERFACE).
Proof.
  split.
  - intros. apply classify_interface_iff. unfold interface_shape. tauto.
  - intros Hbad Hi. apply classify_interface_iff in Hi.
    destruct Hi as (Hc & Hf & Hd & Hpub & Hpriv & Hprot & Hall).
    destruct Hbad as [(f & Hin & Hnp) | [H | [H | [H | [H | H]]]]]; try tauto; try congruence.
    rewrite Forall_forall in Hall. apply list_elem_of_In in Hin.
    specialize (Hall f Hin). congruence.
Qed.

(** [shape_class] is an interface; [shape_with_body] is not. *)
Lemma interface_rule_witness :
  classify shape_class = INTERFACE /\ classify shape_with_body <> INTERFACE.
Proof.
  split.
  - apply (proj1 (interface_rule shape_class)); simpl.
    + intros [[] Ha]; by apply Ha.
    + intros [[] Ha]; by apply Ha.
    + reflexivity.
    + discriminate.
    + reflexivity.
    + reflexivity.
    + repeat constructor.
  - apply (proj2 (interface_rule shape_with_body)). left.
    exists {| function_name := "name"; isPureVirtual := false |}.
    split; [simpl; tauto | reflexivity].
Defined.

(** C6.  A class with no constructor and no method is classified as a
    datatype, whatever its fields and whether or not it has a
    destructor; the datatype rule comes first, so such a class is not
    an interface. *)
Theorem datatype_rule (c : srcyuml_class) :
  ~ any_member (constructors (data c)) -> ~ any_member (methods (data c)) ->
  type (analyze_data c) = DATATYPE /\ type (analyze_data c) <> INTERFACE.
Proof.
  intros Hc Hm. apply has_member_false in Hc. apply has_member_false in Hm.
  unfold analyze_data; simpl. rewrite Hc, Hm. simpl. split; [reflexivity | discriminate].
Qed.

(** [point_class], with its fields and its destructor, is a datatype. *)
Lemma datatype_rule_witness :
  classify point_class = DATATYPE /\ classify point_class <> INTERFACE.
Proof.
  apply (datatype_rule (new point_class)); simpl.
  - intros [[] Ha]; by apply Ha.
  - intros [[] Ha]; by apply Ha.
Defined.

End srcyuml_facts.

(** ** Nodes and edges of the graph handed to the layout *)

Module outputter_facts.
Import ogdf srcuml svg_sugiyama_outputter outputter_notions.

(** *** The entries of [edge_type_map] *)

Lemma find_app key (l1 l2 : edge_types) :
  find key (l1 ++ l2) = match find key l1 with Some ty => Some ty | None => find key l2 end.
Proof.
  induction l1 as [|[k ty] l1 IH]; simpl; [reflexivity|].
  destruct (decide (k = key)); [reflexivity | exact IH].
Qed.

Lemma find_assign_same key ty (l : edge_types) s :
  find key l = Some s -> find key (assign key ty l) = Some ty.
Proof.
  induction l as [|[k ty'] l IH]; simpl; [discriminate|].
  destruct (decide (k = key)) as [->|Hne]; simpl.
  - intros _. by rewrite decide_True.
  - intros Hf. rewrite decide_False by assumption. by apply IH.
Qed.

Lemma find_assign_other key key' ty (l : edge_types) :
  key <> key' -> find key (assign key' ty l) = find key l.
Proof.
  intros Hne. induction l as [|[k ty'] l IH]; simpl; [reflexivity|].
  destruct (decide (k = key')) as [->|Hk]; simpl.
  - rewrite !decide_False by congruence. reflexivity.
  - destruct (decide (k = key)); [reflexivity | exact IH].
Qed.

Lemma assign_keys key ty (l : edge_types) : (assign key ty l).*1 = l.*1.
Proof.
  induction l as [|[k ty'] l IH]; csimpl; [reflexivity|].
  destruct (decide (k = key)); csimpl; [reflexivity | by rewrite IH].
Qed.

Lemma find_None key (l : edge_types) : find key l = None <-> key ∉ l.*1.
Proof.
  induction l as [|[k ty] l IH]; csimpl.
  - split; [intros _; apply not_elem_of_nil | reflexivity].
  - rewrite not_elem_of_cons. destruct (decide (k = key)) as [->|Hne].
    + split; [discriminate | intros [Hk _]; by destruct Hk].
    + rewrite IH. split; [intros Hn; split; [congruence | exact Hn] | by intros [_ Hn]].
Qed.

Lemma add_relationship_same m etm r :
  find (key_of m r) (add_relationship m etm r) = resolve (find (key_of m r) etm) (get_type r).
Proof.
  unfold add_relationship. fold (key_of m r).
  destruct (find (key_of m r) etm) as [s|] eqn:Hf; simpl.
  - destruct (replaces s (get_type r)).
    + by apply find_assign_same with s.
    + exact Hf.
  - rewrite find_app, Hf. simpl. by rewrite decide_True.
Qed.

Lemma add_relationship_other m etm r key :
  key_of m r <> key -> find key (add_relationship m etm r) = find key etm.
Proof.
  intros Hne. unfold add_relationship. fold (key_of m r).
  destruct (find (key_of m r) etm) as [s|] eqn:Hf.
  - destruct (replaces s (get_type r)); [| reflexivity].
    apply find_assign_other. congruence.
  - rewrite find_app. destruct (find key etm); [reflexivity|].
    simpl. by rewrite decide_False.
Qed.

Lemma add_relationship_NoDup m etm r :
  NoDup etm.*1 -> NoDup (add_relationship m etm r).*1.
Proof.
  intros Hnd. unfold add_relationship. fold (key_of m r).
  destruct (find (key_of m r) etm) as [s|] eqn:Hf.
  - destruct (replaces s (get_type r)); [| assumption]. by rewrite assign_keys.
  - rewrite fmap_app. simpl. apply NoDup_app. split; [assumption|]. split.
    + intros k Hk Hin. apply list_elem_of_singleton in Hin. subst k.
      by apply find_None in Hf.
    + apply NoDup_singleton.
Qed.

(** No relationship is left out: its key is a key of the map. *)
Lemma add_relationship_keeps m etm r key :
  key ∈ etm.*1 -> key ∈ (add_relationship m etm r).*1.
Proof.
  intros Hin. unfold add_relationship. fold (key_of m r).
  destruct (find (key_of m r) etm) as [s|] eqn:Hf.
  - destruct (replaces s (get_type r)); [| assumption]. by rewrite assign_keys.
  - rewrite fmap_app. apply elem_of_app. by left.
Qed.

Lemma add_relationship_enters m etm r : key_of m r ∈ (add_relationship m etm r).*1.
Proof.
  unfold add_relationship. fold (key_of m r).
  destruct (find (key_of m r) etm) as [s|] eqn:Hf.
  - assert (key_of m r ∈ etm.*1) as Hin.
    { destruct (decide (key_of m r ∈ etm.*1)) as [|Hn]; [assumption|].
      apply find_None in Hn. congruence. }
    destruct (replaces s (get_type r)); [| assumption]. by rewrite assign_keys.
  - rewrite fmap_app. apply elem_of_app. right. simpl. apply list_elem_of_singleton. reflexivity.
Qed.

Lemma fold_add_relationship_find m rs etm key :
  find key (fold_left (add_relationship m) rs etm)
  = fold_left resolve (kinds_for m key rs) (find key etm).
Proof.
  revert etm. induction rs as [|r rs IH]; intros etm; simpl; [reflexivity|].
  rewrite IH. unfold kinds_for.
  destruct (decide (key_of m r = key)) as [<-|Hne].
  - rewrite filter_cons_True by reflexivity. simpl. by rewrite add_relationship_same.
  - rewrite filter_cons_False by assumption. by rewrite add_relationship_other.
Qed.

Lemma fold_add_relationship_NoDup m rs etm :
  NoDup etm.*1 -> NoDup (fold_left (add_relationship m) rs etm).*1.
Proof.
  revert etm. induction rs as [|r rs IH]; intros etm Hnd; simpl; [assumption|].
  apply IH. by apply add_relationship_NoDup.
Qed.

Lemma fold_add_relationship_keeps m rs etm key :
  key ∈ etm.*1 -> key ∈ (fold_left (add_relationship m) rs etm).*1.
Proof.
  revert etm. induction rs as [|r rs IH]; intros etm Hin; simpl; [assumption|].
  apply IH. by apply add_relationship_keeps.
Qed.

Lemma merge_NoDup m rs : NoDup (merge m rs).*1.
Proof. apply fold_add_relationship_NoDup. simpl. apply NoDup_nil_2. Qed.

Lemma merge_find m rs key :
  find key (merge m rs) = fold_left resolve (kinds_for m key rs) None.
Proof. apply fold_add_relationship_find. Qed.

(** Every relationship of the list has its key in the map. *)
Lemma merge_keeps m rs r : r ∈ rs -> key_of m r ∈ (merge m rs).*1.
Proof.
  unfold merge. generalize (@nil (edge_key * relationship_type)).
  induction rs as [|r' rs IH]; intros etm Hin; [by apply elem_of_nil in Hin|].
  apply elem_of_cons in Hin. destruct Hin as [->|Hin]; simpl.
  - apply fold_add_relationship_keeps, add_relationship_enters.
  - by apply IH.
Qed.

(** *** The dominance chain *)

Lemma chain_kind_rank k : in_chain k -> chain_kind (chain_rank k) = k.
Proof. by intros [->|[->|[->| ->]]]. Qed.

Lemma chain_rank_le k : chain_rank k <= 3.
Proof. destruct k; simpl; lia. Qed.

(** Among kinds of the chain, the incoming kind replaces the stored one
    exactly when it is strictly higher. *)
Lemma replaces_chain s k :
  in_chain s -> in_chain k -> replaces s k = bool_decide (chain_rank s < chain_rank k).
Proof. by intros [->|[->|[->| ->]]] [->|[->|[->| ->]]]. Qed.

Lemma resolve_chain ks s :
  in_chain s -> Forall in_chain ks ->
  fold_left resolve ks (Some s)
  = Some (chain_kind (chain_rank s `max` max_list (chain_rank <$> ks))).
Proof.
  revert s. induction ks as [|k ks IH]; intros s Hs Hks; csimpl.
  - by rewrite Nat.max_0_r, chain_kind_rank.
  - inversion Hks as [|? ? Hk Hks']; subst.
    rewrite replaces_chain by assumption.
    destruct (bool_decide_reflect (chain_rank s < chain_rank k)).
    + rewrite IH by assumption. do 2 f_equal. lia.
    + rewrite IH by assumption. do 2 f_equal. lia.
Qed.

Lemma resolve_chain_max ks :
  ks <> [] -> Forall in_chain ks -> fold_left resolve ks None = Some (chain_max ks).
Proof.
  destruct ks as [|k ks]; [congruence|]. intros _ Hks.
  inversion Hks; subst. simpl. by rewrite resolve_chain.
Qed.

Lemma kinds_for_Permutation m key rs rs' :
  rs ≡ₚ rs' -> kinds_for m key rs ≡ₚ kinds_for m key rs'.
Proof. intros Hp. unfold kinds_for. by rewrite Hp. Qed.

Lemma chain_max_Permutation ks ks' : ks ≡ₚ ks' -> chain_max ks = chain_max ks'.
Proof. intros Hp. unfold chain_max. by rewrite Hp. Qed.

(** *** The graph after the three loops *)

Lemma NoDup_filter_eq_length {A} `{EqDecision A} (k : A) (l : list A) :
  NoDup l -> length (filter (fun x => x = k) l) <= 1.
Proof.
  induction 1 as [|x l Hx Hnd IH]; [simpl; lia|].
  destruct (decide (x = k)) as [->|Hne].
  - rewrite filter_cons_True by reflexivity. simpl.
    assert (filter (fun x => x = k) l = []) as ->; [| simpl; lia].
    apply elem_of_nil_inv. intros y [-> Hy]%list_elem_of_filter. contradiction.
  - by rewrite filter_cons_False.
Qed.

Lemma filter_endpoints_length (u v : node) (es : list edge) :
  length (filter (fun e => source e = u /\ target e = v) es)
  = length (filter (fun k => k = (u, v)) (endpoints <$> es)).
Proof.
  induction es as [|e es IH]; [reflexivity|]. csimpl.
  destruct (decide (source e = u /\ target e = v)) as [[Hs Ht]|Hn].
  - rewrite filter_cons_True by (split; assumption).
    rewrite filter_cons_True by (unfold endpoints; congruence).
    simpl. by rewrite IH.
  - rewrite filter_cons_False by assumption.
    rewrite filter_cons_False; [exact IH|].
    unfold endpoints. intros Heq. apply Hn. by inversion Heq.
Qed.

Section Built.
Context {D : Type} `{DoubleOps D}.
Local Open Scope dbl_scope.
Variable srcuml_class : Type.
Variable get_srcuml_name : srcuml_class -> string.
Variable generate_label : srcuml_class -> string * Z * Z.

Abbreviation add_class := (add_class srcuml_class get_srcuml_name generate_label).

Lemma add_class_graph st c :
  numberOfNodes (g (add_class st c).1) = S (numberOfNodes (g st.1))
  /\ edges (g (add_class st c).1) = edges (g st.1).
Proof.
  destruct st as [o m]. unfold svg_sugiyama_outputter.add_class. simpl.
  destruct (generate_label c) as [[lbl n] l]. simpl. done.
Qed.

Lemma add_class_map st c : (add_class st c).2 = map_insert st.2 (get_srcuml_name c) (element (numberOfNodes (g st.1))).
Proof.
  destruct st as [o m]. unfold svg_sugiyama_outputter.add_class. simpl.
  by destruct (generate_label c) as [[lbl n] l].
Qed.

Lemma add_class_new st c :
  GA.height (ga (add_class st c).1) (element (numberOfNodes (g st.1))) = height_of generate_label c
  /\ GA.width (ga (add_class st c).1) (element (numberOfNodes (g st.1))) = width_of generate_label c.
Proof.
  destruct st as [o m]. unfold svg_sugiyama_outputter.add_class, height_of, width_of. simpl.
  destruct (generate_label c) as [[lbl n] l]. simpl.
  by rewrite !fn_lookup_insert.
Qed.

Lemma add_class_old st c v :
  v <> element (numberOfNodes (g st.1)) ->
  GA.height (ga (add_class st c).1) v = GA.height (ga st.1) v
  /\ GA.width (ga (add_class st c).1) v = GA.width (ga st.1) v.
Proof.
  intros Hne. destruct st as [o m]. unfold svg_sugiyama_outputter.add_class. simpl in *.
  destruct (generate_label c) as [[lbl n] l]. simpl.
  by rewrite !fn_lookup_insert_ne.
Qed.

Lemma fold_add_class_graph classes st :
  numberOfNodes (g (fold_left add_class classes st).1)
  = (numberOfNodes (g st.1) + length classes)%nat
  /\ edges (g (fold_left add_class classes st).1) = edges (g st.1).
Proof.
  revert st. induction classes as [|c classes IH]; intros st; simpl.
  - split; [lia | reflexivity].
  - destruct (IH (add_class st c)) as [-> ->].
    destruct (add_class_graph st c) as [-> ->]. split; [lia | reflexivity].
Qed.

Lemma fold_add_class_old classes st j :
  (j < numberOfNodes (g st.1))%nat ->
  GA.height (ga (fold_left add_class classes st).1) (element j)
  = GA.height (ga st.1) (element j)
  /\ GA.width (ga (fold_left add_class classes st).1) (element j)
     = GA.width (ga st.1) (element j).
Proof.
  revert st. induction classes as [|c classes IH]; intros st Hj; simpl; [done|].
  destruct (add_class_graph st c) as [Hn _].
  destruct (IH (add_class st c)) as [-> ->]; [lia|].
  apply add_class_old. intros [=]. lia.
Qed.

(** The node made for the [i]-th class has the size of its label. *)
Lemma fold_add_class_size classes st i c :
  classes !! i = Some c ->
  GA.height (ga (fold_left add_class classes st).1)
            (element (numberOfNodes (g st.1) + i)) = height_of generate_label c
  /\ GA.width (ga (fold_left add_class classes st).1)
              (element (numberOfNodes (g st.1) + i)) = width_of generate_label c.
Proof.
  revert st i. induction classes as [|c' classes IH]; intros st i Hi; [done|].
  destruct (add_class_graph st c') as [Hn _]. destruct i as [|i]; simpl in *.
  - injection Hi as ->. rewrite Nat.add_0_r.
    destruct (fold_add_class_old classes (add_class st c) (numberOfNodes (g st.1)))
      as [-> ->]; [lia|].
    apply add_class_new.
  - specialize (IH (add_class st c') i Hi). rewrite Hn in IH.
    by replace (numberOfNodes (g st.1) + S i)%nat with (S (numberOfNodes (g st.1)) + i)%nat by lia.
Qed.

Lemma add_edge_spec (o : outputter D) entry :
  GA.height (ga (add_edge o entry)) = GA.height (ga o)
  /\ GA.width (ga (add_edge o entry)) = GA.width (ga o)
  /\ endpoints <$> edges (g (add_edge o entry)) = (endpoints <$> edges (g o)) ++ [entry.1].
Proof.
  unfold add_edge. simpl. repeat split.
  rewrite fmap_app. simpl. unfold endpoints at 3. simpl. by destruct entry as [[u v] ty].
Qed.

Lemma fold_add_edge_spec (etm : edge_types) (o : outputter D) :
  GA.height (ga (fold_left add_edge etm o)) = GA.height (ga o)
  /\ GA.width (ga (fold_left add_edge etm o)) = GA.width (ga o)
  /\ endpoints <$> edges (g (fold_left add_edge etm o))
     = (endpoints <$> edges (g o)) ++ etm.*1.
Proof.
  revert o. induction etm as [|entry etm IH]; intros o; csimpl.
  - by rewrite app_nil_r.
  - destruct (IH (add_edge o entry)) as (-> & -> & ->).
    destruct (add_edge_spec o entry) as (-> & -> & ->).
    by rewrite <- app_assoc.
Qed.

Variable analyze_relationships : list srcuml_class -> list srcuml_relationship.
Variable ga0 : GA.GraphAttributes D.

(** What a fresh outputter builds from [classes] *)
Abbreviation built analyze classes :=
  (build srcuml_class get_srcuml_name generate_label analyze
         (svg_sugiyama_outputter.new ga0) classes).

Lemma built_spec analyze classes :
  exists o1 m,
    fold_left add_class classes (svg_sugiyama_outputter.new ga0, ∅) = (o1, m)
    /\ built analyze classes
       = (fold_left add_edge (merge m (analyze classes)) o1, m, merge m (analyze classes)).
Proof.
  unfold build.
  destruct (fold_left add_class classes (svg_sugiyama_outputter.new ga0, ∅)) as [o1 m] eqn:E.
  by exists o1, m.
Qed.

(** [class_node_map] does not depend on the relationships. *)
Lemma built_map analyze analyze' classes :
  (built analyze classes).1.2 = (built analyze' classes).1.2.
Proof.
  destruct (built_spec analyze classes) as (o1 & m & E & ->).
  destruct (built_spec analyze' classes) as (o1' & m' & E' & ->).
  simpl. congruence.
Qed.

Lemma built_edge_type_map analyze classes :
  (built analyze classes).2 = merge (built analyze classes).1.2 (analyze classes).
Proof. by destruct (built_spec analyze classes) as (o1 & m & E & ->). Qed.

(** The edges of the built graph are the entries of [edge_type_map]. *)
Lemma built_edges analyze classes :
  endpoints <$> edges (g (built analyze classes).1.1) = (built analyze classes).2.*1.
Proof.
  destruct (built_spec analyze classes) as (o1 & m & E & ->). simpl.
  destruct (fold_add_edge_spec (merge m (analyze classes)) o1) as (_ & _ & ->).
  destruct (fold_add_class_graph classes (svg_sugiyama_outputter.new ga0, ∅)) as [_ He].
  rewrite E in He. simpl in He. by rewrite He.
Qed.

(** C1 (amended).  The merged edges are keyed by the ordered pair (source
    node, destination node).  For every list of classes and of
    relationships whose names are all keys of [class_node_map], and every
    ordered pair [(u, v)], the built graph has at most one edge from [u]
    to [v]; and when the relationships that fall on [(u, v)] all carry
    kinds of the dominance chain, the kind stored for the pair is the
    chain maximum of those kinds, in whatever order the relationships
    arrive. *)
Theorem merged_edge_per_ordered_pair analyze classes (u v : node) :
  let b := built analyze classes in
  let kinds := kinds_for b.1.2 (u, v) (analyze classes) in
  (forall r, r ∈ analyze classes -> endpoints_found b.1.2 r) ->
  length (filter (fun e => source e = u /\ target e = v) (edges (g b.1.1))) <= 1
  /\ (kinds <> [] -> Forall in_chain kinds ->
      find (u, v) b.2 = Some (chain_max kinds)
      /\ forall analyze', analyze' classes ≡ₚ analyze classes ->
           find (u, v) (built analyze' classes).2 = Some (chain_max kinds)).
Proof.
  intros b kinds _. split.
  - rewrite filter_endpoints_length. unfold b. rewrite built_edges.
    apply NoDup_filter_eq_length. rewrite built_edge_type_map. apply merge_NoDup.
  - intros Hne Hall. split.
    + unfold b. rewrite built_edge_type_map, merge_find. by apply resolve_chain_max.
    + intros analyze' Hp. rewrite built_edge_type_map, merge_find.
      rewrite (built_map analyze' analyze).
      pose proof (kinds_for_Permutation b.1.2 (u, v) _ _ Hp) as Hk.
      fold b. fold kinds in Hk.
      rewrite resolve_chain_max.
      * f_equal. by apply chain_max_Permutation.
      * intros E. rewrite E in Hk. symmetry in Hk. by apply Permutation_nil_r in Hk.
      * by rewrite Hk.
Qed.

(** C2 (what the code does).  A relationship whose source or destination
    is not a key of [class_node_map] is not dropped: the built graph has
    an edge for it, and that edge has a dangling end. *)
Theorem unresolved_endpoint_kept analyze classes (r : srcuml_relationship) :
  let b := built analyze classes in
  r ∈ analyze classes ->
  b.1.2 !! get_source r = None \/ b.1.2 !! get_destination r = None ->
  exists e, e ∈ edges (g b.1.1) /\ endpoints e = key_of b.1.2 r
            /\ (source e = dangling \/ target e = dangling).
Proof.
  intros b Hr Hmiss.
  pose proof (merge_keeps b.1.2 (analyze classes) r Hr) as Hin.
  unfold b in Hin. rewrite <- built_edge_type_map, <- built_edges in Hin. fold b in Hin.
  apply list_elem_of_fmap in Hin. destruct Hin as (e & He & Hin).
  exists e. split; [assumption|]. split; [by symmetry|].
  unfold endpoints, key_of, lookup_node in He. injection He as Hs Ht.
  destruct Hmiss as [Hm|Hm]; rewrite Hm in *; [by left | by right].
Qed.

(** C7.  The node made for a class has height [num_lines * 1.3 * 10] and
    width [longest_line * .75 * 10], where [num_lines] and
    [longest_line] are what [generate_label] reports for the class. *)
Theorem node_size analyze classes (i : nat) (c : srcuml_class) :
  classes !! i = Some c ->
  let o := (built analyze classes).1.1 in
  let num_lines := snd (fst (generate_label c)) in
  let longest_line := snd (generate_label c) in
  GA.height (ga o) (element i) = dofZ num_lines * dlit 13 10 * dofZ 10
  /\ GA.width (ga o) (element i) = dofZ longest_line * dlit 75 100 * dofZ 10.
Proof.
  intros Hi o num_lines longest_line. unfold o.
  destruct (built_spec analyze classes) as (o1 & m & E & ->). simpl.
  destruct (fold_add_edge_spec (merge m (analyze classes)) o1) as (-> & -> & _).
  pose proof (fold_add_class_size classes (svg_sugiyama_outputter.new ga0, ∅) i c Hi) as Hs.
  rewrite E in Hs. simpl in Hs. exact Hs.
Qed.

End Built.

(** *** Runs at binary64 *)

(** C1 as stated fails: an association from A to B and an aggregation from
    B to A give two edges for the pair {A, B}, and the kind kept for the
    edge from A to B is the association, not the chain maximum. *)
Lemma two_edges_for_one_pair :
  let b := run [rel "A" "B" ASSOCIATION; rel "B" "A" AGGREGATION] ["A"; "B"] in
  ~ (length (filter (joins (element 0) (element 1)) (edges (g b.1.1))) <= 1)
  /\ find (element 0, element 1) b.2 = Some ASSOCIATION
  /\ find (element 1, element 0) b.2 = Some AGGREGATION.
Proof. vm_compute. split; [lia | split; reflexivity]. Qed.

(** Association, aggregation and bidirectional from A to B, in this order
    and in the reverse one: one edge, an aggregation. *)
Lemma merged_edge_per_ordered_pair_witness :
  let b := run [rel "A" "B" ASSOCIATION; rel "A" "B" AGGREGATION; rel "A" "B" BIDIRECTIONAL]
               ["A"; "B"] in
  length (filter (fun e => source e = element 0 /\ target e = element 1) (edges (g b.1.1))) <= 1
  /\ find (element 0, element 1) b.2 = Some AGGREGATION
  /\ find (element 0, element 1)
          (run [rel "A" "B" BIDIRECTIONAL; rel "A" "B" AGGREGATION; rel "A" "B" ASSOCIATION]
               ["A"; "B"]).2 = Some AGGREGATION.
Proof.
  pose proof (merged_edge_per_ordered_pair string name_of three_by_ten blank
    (fun _ => [rel "A" "B" ASSOCIATION; rel "A" "B" AGGREGATION; rel "A" "B" BIDIRECTIONAL])
    ["A"; "B"] (element 0) (element 1)) as [Hone Hmax].
  { intros r Hr. rewrite !elem_of_cons in Hr.
    destruct Hr as [->|[->|[->|Hr]]]; [| | | by apply elem_of_nil in Hr].
    all: split; eexists; vm_compute; reflexivity. }
  split; [exact Hone|].
  destruct Hmax as [Hm Hperm].
  - vm_compute. discriminate.
  - vm_compute. repeat constructor; unfold in_chain; tauto.
  - split; [exact Hm|].
    apply (Hperm (fun _ => [rel "A" "B" BIDIRECTIONAL; rel "A" "B" AGGREGATION;
                            rel "A" "B" ASSOCIATION])).
    apply Permutation_rev.
Defined.

(** A relationship from A to a class that was never given *)
Lemma unresolved_endpoint_kept_witness :
  exists e, e ∈ edges (g (run [rel "A" "Ghost" ASSOCIATION] ["A"]).1.1)
            /\ endpoints e = (element 0, dangling)
            /\ (source e = dangling \/ target e = dangling).
Proof.
  apply (unresolved_endpoint_kept string name_of three_by_ten blank
           (fun _ => [rel "A" "Ghost" ASSOCIATION]) ["A"] (rel "A" "Ghost" ASSOCIATION)).
  - apply list_elem_of_singleton. reflexivity.
  - right. vm_compute. reflexivity.
Defined.

(** The graph built from the class A and a relationship from A to a class
    that was never given: one edge, from the node of A to a dangling
    handle. *)
Lemma dangling_edge_built :
  edges (g (run [rel "A" "Ghost" ASSOCIATION] ["A"]).1.1)
  = [ {| index := 0; source := element 0; target := dangling |} ].
Proof. vm_compute. reflexivity. Qed.

(** Three lines, the longest of ten characters: 39 high and 75 wide, as
    binary64 computes them. *)
Lemma node_size_witness :
  let o := (run [] ["Shape"]).1.1 in
  GA.height (ga o) (element 0) = 39%float /\ GA.width (ga o) (element 0) = 75%float.
Proof.
  exact (node_size string name_of three_by_ten blank (fun _ => []) ["Shape"] 0 "Shape" eq_refl).
Defined.

(** The same label over the real numbers *)
Lemma three_by_ten_real :
  (dofZ 3 * dlit 13 10 * dofZ 10)%dbl = 39%R /\ (dofZ 10 * dlit 75 100 * dofZ 10)%dbl = 75%R.
Proof. simpl. unfold dlit. simpl. split; lra. Qed.

(** The products are rounded: nine lines are not exactly 117 high, but
    the next double above it, 117.00000000000001. *)
Lemma nine_lines_binary64 :
  (dofZ 9 * dlit 13 10 * dofZ 10)%dbl = 0x1.d400000000001p+6%float.
Proof. vm_compute. reflexivity. Qed.

(** [output] returns [true] whatever [drawSVG] returns; a [false] from
    it only sends a line to [std::cout]. *)
Lemma output_returns_true {D} `{DoubleOps D} (srcuml_class X : Type) get_srcuml_name
      generate_label analyze_relationships layout
      (drawSVG : Graph -> GA.GraphAttributes D -> iostream.ostream X -> bool * iostream.ostream X)
      (o : outputter D) (out : iostream.ostream X) (classes : list srcuml_class) :
  let r := output srcuml_class get_srcuml_name generate_label analyze_relationships
                  X layout drawSVG o out classes in
  r.1.1.1 = true
  /\ r.2 = (if (drawSVG (g r.1.1.2) (ga r.1.1.2) out).1 then [] else ["Error Write"]).
Proof.
  unfold output.
  destruct (build _ _ _ _ _ _) as [[o2 m] etm]. simpl.
  destruct (drawSVG (g o2) (layout o2) out) as [ok out'] eqn:E. simpl.
  rewrite E. by destruct ok.
Qed.

End outputter_facts.

(** ** Edges in the SVG document *)

Module SvgPrinter_facts.
Import ogdf pugi SvgPrinter SvgPrinter_notions.

Lemma tag_of_append_attribute {D} (n : xml_node D) k v :
  tag_of (append_attribute n k v) = tag_of n.
Proof. by destruct n. Qed.

Lemma tag_of_append_attributes {D} (l : list (string * attr_value D)) (n : xml_node D) :
  tag_of (append_attributes n l) = tag_of n.
Proof.
  unfold append_attributes. revert n.
  induction l as [|[k v] l IH]; intros n; simpl; [reflexivity|].
  by rewrite IH, tag_of_append_attribute.
Qed.

Lemma attrs_of_append_attributes {D} (l : list (string * attr_value D)) t a c :
  append_attributes (Element t a c) l = Element t (a ++ l) c.
Proof.
  unfold append_attributes. revert a.
  induction l as [|[k v] l IH]; intros a; simpl.
  - by rewrite app_nil_r.
  - rewrite IH. by rewrite <- app_assoc.
Qed.

Section Generic.
Context {D : Type} `{DoubleOps D}.
Variable m_attr : GA.GraphAttributes D.
Variable m_settings : GraphIO.SVGSettings D.

Abbreviation covered p e v := (isCoveredBy m_attr p e v).

(** *** One turn of the loop of [drawEdge] *)

(** Without arrow heads a turn only sets the flags and pushes points. *)
Lemma drawEdge_segment_plain e st p1 p2 :
  let st' := drawEdge_segment m_attr e false false st p1 p2 in
  drawSegment st' = leaves m_attr e p1 p2 || drawSegment st
  /\ finished st' = enters m_attr e p1 p2 || finished st
  /\ heads st' = heads st
  /\ points st' = points st ++ (if drawSegment st' then [p1] else [])
                            ++ (if finished st' then [p2] else []).
Proof.
  unfold drawEdge_segment, leaves, enters. cbv zeta.
  destruct (drawSegment st) eqn:Eds, (finished st) eqn:Efin, (drawLabel st).
  all: destruct (covered p1 e (source e)), (covered p2 e (source e)); simpl.
  all: destruct (covered p1 e (target e)), (covered p2 e (target e)); simpl.
  all: rewrite ?Eds, ?Efin, ?app_nil_r, <- ?app_assoc; auto.
Qed.

(** The arrow head is a polygon. *)
Lemma drawArrowHead_tag start end_ v e :
  tag_of (drawArrowHead m_attr start end_ v e).1 = "polygon".
Proof.
  unfold drawArrowHead.
  destruct (deq _ _); [simpl; apply tag_of_append_attributes|].
  destruct (negb _); simpl; apply tag_of_append_attributes.
Qed.

(** Whatever the arrows, a turn appends only polygons to the group, and
    leaves the label a text element. *)
Lemma drawEdge_segment_tags e sa ta st p1 p2 :
  tag_of (label st) = "text" -> Forall (fun n => tag_of n = "polygon") (heads st) ->
  let st' := drawEdge_segment m_attr e sa ta st p1 p2 in
  tag_of (label st') = "text" /\ Forall (fun n => tag_of n = "polygon") (heads st').
Proof.
  intros Hl Hh. unfold drawEdge_segment. cbv zeta.
  pose proof (drawArrowHead_tag p2 p1 (source e) e) as H1.
  destruct (drawArrowHead m_attr p2 p1 (source e) e) as [h1 p1'] eqn:E1. simpl in H1.
  assert (forall q, tag_of (drawArrowHead m_attr q p2 (target e) e).1 = "polygon") as H2
    by (intros q; apply drawArrowHead_tag).
  destruct (covered p1 e (source e) && negb (covered p2 e (source e)));
    [destruct (negb (drawSegment st) && sa)|].
  all: match goal with
       | |- context [negb (isCoveredBy _ ?q ?e' ?t) && ?c] =>
           specialize (H2 q);
           destruct (drawArrowHead m_attr q p2 t e') as [h2 p2'] eqn:E2; simpl in H2;
           destruct (negb (isCoveredBy m_attr q e' t) && c);
           [destruct ta|]
       end.
  all: match goal with
       | |- context [?ds && drawLabel ?s0] => destruct (ds && drawLabel s0)
       end.
  all: simpl; rewrite ?tag_of_append_attribute; split; [assumption|].
  all: rewrite ?Forall_app; repeat split; try assumption; by repeat constructor.
Qed.

Lemma drawEdge_loop_tags e sa ta path st :
  tag_of (label st) = "text" -> Forall (fun n => tag_of n = "polygon") (heads st) ->
  let st' := drawEdge_loop m_attr e sa ta path st in
  tag_of (label st') = "text" /\ Forall (fun n => tag_of n = "polygon") (heads st').
Proof.
  revert st. induction path as [|p1 rest IH]; intros st Hl Hh; simpl; [done|].
  destruct rest as [|p2 rest']; [done|]. destruct (finished st); [done|].
  destruct (drawEdge_segment_tags e sa ta st p1 p2 Hl Hh) as [Hl' Hh'].
  by apply IH.
Qed.

Lemma drawEdge_trim_tags e :
  let st := drawEdge_trim m_attr m_settings e in
  tag_of (label st) = "text" /\ Forall (fun n => tag_of n = "polygon") (heads st).
Proof.
  unfold drawEdge_trim. destruct (arrow_flags m_attr e) as [sa ta].
  apply drawEdge_loop_tags; [reflexivity | constructor].
Qed.

(** *** The trimmed point list, when no arrow head is drawn *)

Lemma drawEdge_loop_points e path (all : list (DPoint D)) st :
  (forall p, p ∈ path -> p ∈ all) ->
  Forall (fun p => p ∈ all) (points st) ->
  Forall (fun p => p ∈ all) (points (drawEdge_loop m_attr e false false path st)).
Proof.
  revert st. induction path as [|p1 rest IH]; intros st Hsub Hpts; simpl; [done|].
  destruct rest as [|p2 rest']; [done|]. destruct (finished st) eqn:Efin; [done|].
  apply IH.
  - intros p Hp. apply Hsub. by apply elem_of_cons; right.
  - destruct (drawEdge_segment_plain e st p1 p2) as (_ & _ & _ & ->).
    rewrite !Forall_app. repeat split; [assumption | |].
    + destruct (drawSegment (drawEdge_segment m_attr e false false st p1 p2));
        repeat constructor. apply Hsub, elem_of_cons. by left.
    + destruct (finished (drawEdge_segment m_attr e false false st p1 p2));
        repeat constructor.
      apply Hsub, elem_of_cons. right. apply elem_of_cons. by left.
Qed.

Lemma segments_cons (p1 p2 : DPoint D) rest :
  segments (p1 :: p2 :: rest) = (p1, p2) :: segments (p2 :: rest).
Proof. reflexivity. Qed.

Lemma segments_lookup (path : list (DPoint D)) i p q :
  segments path !! i = Some (p, q) <-> path !! i = Some p /\ path !! S i = Some q.
Proof.
  unfold segments. rewrite lookup_zip_with_Some. destruct path as [|p0 path]; simpl.
  - split; [by intros (? & ? & _ & ? & _) | by intros [? _]].
  - split.
    + intros (x & y & [= -> ->] & Hx & Hy). auto.
    + intros [Hp Hq]. eauto.
Qed.

Lemma first_leaving_cons e (p1 p2 : DPoint D) rest :
  first_leaving m_attr e (p1 :: p2 :: rest)
  = if leaves m_attr e p1 p2 then Some 0 else S <$> first_leaving m_attr e (p2 :: rest).
Proof.
  unfold first_leaving. rewrite segments_cons. cbn [list_find fst snd].
  destruct (decide (leaves m_attr e p1 p2 = true)) as [->|Hn].
  - reflexivity.
  - apply not_true_is_false in Hn. rewrite Hn.
    destruct (list_find _ (segments (p2 :: rest))) as [[i x]|]; reflexivity.
Qed.

Lemma first_entering_cons e (p1 p2 : DPoint D) rest :
  first_entering m_attr e (p1 :: p2 :: rest)
  = if enters m_attr e p1 p2 then Some 0 else S <$> first_entering m_attr e (p2 :: rest).
Proof.
  unfold first_entering. rewrite segments_cons. cbn [list_find fst snd].
  destruct (decide (enters m_attr e p1 p2 = true)) as [->|Hn].
  - reflexivity.
  - apply not_true_is_false in Hn. rewrite Hn.
    destruct (list_find _ (segments (p2 :: rest))) as [[i x]|]; reflexivity.
Qed.

Lemma first_leaving_spec e (path : list (DPoint D)) a :
  first_leaving m_attr e path = Some a ->
  exists p q, segments path !! a = Some (p, q) /\ leaves m_attr e p q = true
    /\ forall j p' q', segments path !! j = Some (p', q') -> j < a ->
         leaves m_attr e p' q' = false.
Proof.
  unfold first_leaving. intros Hf. apply fmap_Some in Hf as ([i [p q]] & Hf & ->).
  apply list_find_Some in Hf as (Hl & Hp & Hmin). exists p, q. repeat split; try assumption.
  intros j p' q' Hj Hlt. apply not_true_is_false. exact (Hmin j (p', q') Hj Hlt).
Qed.

Lemma first_entering_spec e (path : list (DPoint D)) b :
  first_entering m_attr e path = Some b ->
  exists p q, segments path !! b = Some (p, q) /\ enters m_attr e p q = true
    /\ forall j p' q', segments path !! j = Some (p', q') -> j < b ->
         enters m_attr e p' q' = false.
Proof.
  unfold first_entering. intros Hf. apply fmap_Some in Hf as ([i [p q]] & Hf & ->).
  apply list_find_Some in Hf as (Hl & Hp & Hmin). exists p, q. repeat split; try assumption.
  intros j p' q' Hj Hlt. apply not_true_is_false. exact (Hmin j (p', q') Hj Hlt).
Qed.

Lemma drawEdge_loop_finished e sa ta path st :
  finished st = true -> drawEdge_loop m_attr e sa ta path st = st.
Proof.
  intros Hf. destruct path as [|p1 [|p2 rest]]; simpl; [done | done |]. by rewrite Hf.
Qed.

(** One step of [trimmed_from] *)
Lemma trimmed_from_cons drawing e (p1 p2 : DPoint D) rest :
  trimmed_from m_attr drawing e (p1 :: p2 :: rest)
  = if enters m_attr e p1 p2
    then (if leaves m_attr e p1 p2 || drawing then [p1] else []) ++ [p2]
    else (if leaves m_attr e p1 p2 || drawing then [p1] else [])
         ++ trimmed_from m_attr (leaves m_attr e p1 p2 || drawing) e (p2 :: rest).
Proof.
  unfold trimmed_from. rewrite first_entering_cons, first_leaving_cons.
  destruct (enters m_attr e p1 p2) eqn:Een.
  - destruct drawing; [by rewrite orb_true_r|]. rewrite orb_false_r.
    destruct (leaves m_attr e p1 p2); [reflexivity|].
    by destruct (first_leaving m_attr e (p2 :: rest)).
  - destruct drawing.
    + rewrite orb_true_r.
      destruct (first_entering m_attr e (p2 :: rest)) as [b|]; cbn [fmap option_fmap option_map].
      * cbn [Nat.leb drop]. replace (S b + 2 - 0) with (S (b + 2 - 0)) by lia. reflexivity.
      * reflexivity.
    + rewrite orb_false_r. destruct (leaves m_attr e p1 p2).
      * destruct (first_entering m_attr e (p2 :: rest)) as [b|];
          cbn [fmap option_fmap option_map].
        -- cbn [Nat.leb drop]. replace (S b + 2 - 0) with (S (b + 2 - 0)) by lia. reflexivity.
        -- reflexivity.
      * destruct (first_entering m_attr e (p2 :: rest)) as [b|],
          (first_leaving m_attr e (p2 :: rest)) as [a|];
          cbn [fmap option_fmap option_map app]; reflexivity.
Qed.

(** The loop of [drawEdge], when no arrow head is drawn, emits the
    points [trimmed_from] gives, and ends as finished exactly when a
    segment enters. *)
Lemma drawEdge_loop_trimmed e path st :
  finished st = false ->
  let st' := drawEdge_loop m_attr e false false path st in
  points st' = points st ++ trimmed_from m_attr (drawSegment st) e path
  /\ (finished st' = true <-> is_Some (first_entering m_attr e path)).
Proof.
  revert st. induction path as [|p1 rest IH]; intros st Hfin.
  - cbn. rewrite Hfin. unfold trimmed_from. cbn. destruct (drawSegment st); simpl;
      rewrite app_nil_r; split; try reflexivity; split; try discriminate; by intros [? ?].
  - destruct rest as [|p2 rest'].
    + cbn. rewrite Hfin. unfold trimmed_from. cbn. destruct (drawSegment st); simpl;
        rewrite app_nil_r; split; try reflexivity; split; try discriminate; by intros [? ?].
    + cbv zeta. rewrite trimmed_from_cons, first_entering_cons.
      change (drawEdge_loop m_attr e false false (p1 :: p2 :: rest') st)
        with (if finished st then st
              else drawEdge_loop m_attr e false false (p2 :: rest')
                     (drawEdge_segment m_attr e false false st p1 p2)).
      rewrite Hfin.
      destruct (drawEdge_segment_plain e st p1 p2) as (Hds & Hf & _ & Hp).
      rewrite Hfin, orb_false_r in Hf.
      set (st1 := drawEdge_segment m_attr e false false st p1 p2) in *.
      destruct (enters m_attr e p1 p2) eqn:Een.
      * rewrite drawEdge_loop_finished by assumption.
        rewrite Hp, Hds, Hf. split; [reflexivity|]. split; [eauto | done].
      * destruct (IH st1 Hf) as [Hpts Hiff]. cbv zeta in Hpts, Hiff.
        rewrite Hpts, Hp, Hds, Hf, app_nil_r, <- app_assoc. split; [reflexivity|].
        rewrite Hiff. destruct (first_entering m_attr e (p2 :: rest')); simpl.
        -- split; eauto.
        -- split; by intros [? ?].
Qed.

Lemma trimmed_from_single drawing e (p : DPoint D) : trimmed_from m_attr drawing e [p] = [].
Proof. by destruct drawing. Qed.

(** C3 (amended).  When no arrow head is drawn, the emitted points are
    those [trimmed] gives for the polyline: they are points of the
    polyline; a path that is drawn (two points or more) starts at the
    first point of the first segment that leaves the covered region of
    the source, a point inside that region; the loop ends as finished
    exactly when a segment enters the covered region of the target, and
    the path then ends at the second point of the first such segment, a
    point inside that region that follows a point outside it; and for an
    edge without bends the drawn path is the segment from the centre of
    the source to the centre of the target. *)
Theorem trimmed_path_ends (e : edge) :
  arrow_flags m_attr e = (false, false) ->
  let st := drawEdge_trim m_attr m_settings e in
  let s := source e in
  let t := target e in
  let path := edge_path m_attr e in
  points st = trimmed m_attr e path
  /\ (finished st = true <-> is_Some (first_entering m_attr e path))
  /\ Forall (fun p => p ∈ path) (points st)
  /\ (2 <= length (points st) ->
      exists a p q rest,
        first_leaving m_attr e path = Some a /\ segments path !! a = Some (p, q)
        /\ leaves m_attr e p q = true
        /\ points st = p :: rest /\ covered p e s = true)
  /\ (finished st = true ->
      exists b p q front,
        first_entering m_attr e path = Some b /\ segments path !! b = Some (p, q)
        /\ enters m_attr e p q = true
        /\ points st = front ++ [q] /\ covered q e t = true)
  /\ (GA.bends m_attr e = [] -> 2 <= length (points st) ->
      points st = [P (GA.x m_attr s) (GA.y m_attr s); P (GA.x m_attr t) (GA.y m_attr t)]
      /\ covered (P (GA.x m_attr s) (GA.y m_attr s)) e s = true
      /\ covered (P (GA.x m_attr t) (GA.y m_attr t)) e t = true).
Proof.
  intros Hflags st s t path.
  assert (points st = trimmed m_attr e path
          /\ (finished st = true <-> is_Some (first_entering m_attr e path))) as [Hpts Hfin].
  { unfold st, drawEdge_trim. rewrite Hflags.
    match goal with
    | |- context [drawEdge_loop m_attr e false false _ ?st0] =>
        destruct (drawEdge_loop_trimmed e path st0 eq_refl) as [Hp Hf]
    end.
    split; [exact Hp | exact Hf]. }
  assert (forall p q, leaves m_attr e p q = true -> covered p e s = true) as Hlv.
  { unfold leaves. by intros p q [? _]%andb_true_iff. }
  assert (forall p q, enters m_attr e p q = true -> covered q e t = true) as Hent.
  { unfold enters. by intros p q [_ ?]%andb_true_iff. }
  split; [exact Hpts|]. split; [exact Hfin|]. split; [| split; [| split]].
  - unfold st, drawEdge_trim. rewrite Hflags.
    apply drawEdge_loop_points; [auto | constructor].
  - intros Hlen. rewrite Hpts in Hlen |- *. unfold trimmed, trimmed_from in *.
    destruct (first_leaving m_attr e path) as [a|] eqn:Ea.
    2:{ destruct (first_entering m_attr e path) as [b|]; simpl in Hlen;
          [rewrite length_take in Hlen|]; lia. }
    destruct (first_leaving_spec e path a Ea) as (p & q & Hseg & Hl & _).
    pose proof (proj1 (segments_lookup path a p q) Hseg) as [Hp Hq].
    exists a, p, q.
    destruct (first_entering m_attr e path) as [b|].
    + destruct (Nat.leb_spec a b) as [Hab|Hab]; [| rewrite length_take in Hlen; lia].
      exists (take (b + 1 - a) (drop (S a) path)). repeat split; try assumption; [| by eapply Hlv].
      rewrite (drop_S _ _ _ Hp). replace (b + 2 - a) with (S (b + 1 - a)) by lia. reflexivity.
    + exists (drop (S a) (removelast path)). repeat split; try assumption; [| by eapply Hlv].
      apply drop_S. rewrite removelast_firstn_len. apply lookup_lt_Some in Hq.
      rewrite lookup_take_lt by lia. exact Hp.
  - intros Hf. apply Hfin in Hf as [b Eb].
    destruct (first_entering_spec e path b Eb) as (p & q & Hseg & Hen & _).
    pose proof (proj1 (segments_lookup path b p q) Hseg) as [Hp Hq].
    exists b, p, q. rewrite Hpts. unfold trimmed, trimmed_from. rewrite Eb.
    assert (take 1 (drop (b + 1) path) = [] ++ [q]) as Hone.
    { replace (b + 1) with (S b) by lia. by rewrite (drop_S _ _ _ Hq). }
    destruct (first_leaving m_attr e path) as [a|].
    + destruct (Nat.leb_spec a b) as [Hab|Hab].
      * exists (take (b + 1 - a) (drop a path)). repeat split; try assumption; [| by eapply Hent].
        replace (b + 2 - a) with (S (b + 1 - a)) by lia. apply take_S_r.
        rewrite lookup_drop. rewrite <- Hq. f_equal. lia.
      * exists []. repeat split; try assumption; by eapply Hent.
    + exists []. repeat split; try assumption; by eapply Hent.
  - intros Hb Hlen. rewrite Hpts in Hlen |- *. unfold path, edge_path in *. rewrite Hb in *.
    fold s t in Hlen |- *. cbn [app] in Hlen |- *. unfold trimmed in *.
    rewrite trimmed_from_cons, trimmed_from_single, orb_false_r, app_nil_r in Hlen |- *.
    destruct (enters m_attr e _ _) eqn:Een, (leaves m_attr e _ _) eqn:El;
      simpl in Hlen; try lia.
    split; [reflexivity|]. split; [by eapply Hlv | by eapply Hent].
Qed.


(** *** An edge that cannot be drawn *)

(** C8.  When fewer than two points are left of an edge, its group holds
    no [path], one line goes to the logger, the groups of the other edges
    are drawn as they are without it, and [draw] writes the document and
    returns. *)
Theorem overlapping_edge_skipped (e : edge) (es1 es2 : list edge)
        (header : xml_node D) (clusters nodeGroups : list (xml_node D))
        (os : iostream.ostream (xml_node D)) :
  length (points (drawEdge_trim m_attr m_settings e)) < 2 ->
  let group_of e' := (drawEdge m_attr m_settings e').1 in
  let log_of e' := (drawEdge m_attr m_settings e').2 in
  let drawn := drawEdges m_attr m_settings (es1 ++ e :: es2) in
  let r := draw m_attr m_settings header clusters nodeGroups (es1 ++ e :: es2) os in
  (forall n, n ∈ children_of (group_of e) -> tag_of n <> "path")
  /\ log_of e = [GraphIO.could_not_draw_edge e]
  /\ (GA.has m_attr edgeGraphics = true ->
      drawn = ([Element "g" [] (map group_of es1 ++ group_of e :: map group_of es2)],
               concat (map log_of es1) ++ GraphIO.could_not_draw_edge e
                 :: concat (map log_of es2)))
  /\ r.1.1 = true
  /\ r.1.2 = iostream.write os
               (Element (tag_of header) (attrs_of header)
                        (children_of header ++ clusters ++ nodeGroups ++ drawn.1))
  /\ r.2 = drawn.2.
Proof.
  intros Hlen group_of log_of drawn r.
  assert (drawEdge m_attr m_settings e
          = (Element "g" []
               ((if GA.has m_attr edgeLabel
                    && negb (String.eqb (GA.edgeLabel m_attr e) "")
                 then [label (drawEdge_trim m_attr m_settings e)] else [])
                ++ heads (drawEdge_trim m_attr m_settings e)),
             [GraphIO.could_not_draw_edge e])) as He.
  { unfold drawEdge. apply Nat.ltb_lt in Hlen. by rewrite Hlen. }
  split; [| split; [| split; [| split; [| split]]]].
  - unfold group_of. rewrite He. simpl. intros n Hn.
    destruct (drawEdge_trim_tags e) as [Hl Hh].
    apply elem_of_app in Hn. destruct Hn as [Hn|Hn].
    + destruct (_ && _); [| by apply elem_of_nil in Hn].
      apply list_elem_of_singleton in Hn. subst n. rewrite Hl. discriminate.
    + rewrite Forall_forall in Hh. rewrite (Hh n Hn). discriminate.
  - unfold log_of. by rewrite He.
  - intros Hg. unfold drawn, drawEdges. rewrite Hg.
    rewrite !map_app, concat_app. simpl. rewrite !map_map.
    unfold group_of, log_of. rewrite He. reflexivity.
  - unfold r, draw. by destruct (drawEdges _ _ _).
  - unfold r, drawn, draw. by destruct (drawEdges _ _ _).
  - unfold r, drawn, draw. by destruct (drawEdges _ _ _).
Qed.

(** *** Two points *)

Lemma path_data_drawCurve settings e (pts : list (DPoint D)) :
  path_data (drawCurve m_attr settings e pts) = Some (drawCurve_ss settings pts).
Proof. unfold drawCurve. rewrite attrs_of_append_attributes. reflexivity. Qed.

(** C10.  With exactly two points [drawCurve] appends a [path] whose [d]
    attribute is one straight line between them, whatever the settings.
    For any points the [d] attribute of the path is the data
    [drawCurve_ss] gives, and a bezier or an arc command is in it only
    for three points or more.  An edge of which exactly two points are
    left gets such a path as the last element of its group, the only
    path of the group. *)
Theorem two_points_one_line (e : edge) (points : list (DPoint D)) :
  (length points = 2 ->
   exists p1 p2, points = [p1; p2]
     /\ drawCurve_ss m_settings points = [M (m_x p1) (m_y p1); L (m_x p2) (m_y p2)]
     /\ tag_of (drawCurve m_attr m_settings e points) = "path"
     /\ path_data (drawCurve m_attr m_settings e points)
        = Some [M (m_x p1) (m_y p1); L (m_x p2) (m_y p2)]
     /\ forall settings', drawCurve m_attr settings' e points
                          = drawCurve m_attr m_settings e points)
  /\ path_data (drawCurve m_attr m_settings e points) = Some (drawCurve_ss m_settings points)
  /\ (forall cmd, cmd ∈ drawCurve_ss m_settings points -> is_curve cmd = true ->
      3 <= length points)
  /\ (forall p1 p2, SvgPrinter.points (drawEdge_trim m_attr m_settings e) = [p1; p2] ->
      exists front path,
        children_of (drawEdge m_attr m_settings e).1 = front ++ [path]
        /\ Forall (fun n => tag_of n <> "path") front
        /\ tag_of path = "path"
        /\ path_data path = Some [M (m_x p1) (m_y p1); L (m_x p2) (m_y p2)]).
Proof.
  split; [| split; [| split]].
  - intros Hlen. destruct points as [|p1 [|p2 [|p3 rest]]]; try discriminate.
    exists p1, p2. split; [reflexivity|]. split; [reflexivity|].
    split; [unfold drawCurve; apply tag_of_append_attributes|].
    split; [apply path_data_drawCurve | reflexivity].
  - apply path_data_drawCurve.
  - intros cmd Hin Hc.
    destruct points as [|p1 [|p2 [|p3 rest]]]; [| | | simpl; lia]; exfalso.
    + unfold drawCurve_ss in Hin. simpl in Hin.
      destruct (deq _ _); [| destruct (GraphIO.bezierInterpolation m_settings)];
        by apply elem_of_nil in Hin.
    + unfold drawCurve_ss in Hin. simpl in Hin.
      destruct (deq _ _); [| destruct (GraphIO.bezierInterpolation m_settings)];
        by apply elem_of_nil in Hin.
    + unfold drawCurve_ss, drawLine in Hin. simpl in Hin.
      apply elem_of_cons in Hin. destruct Hin as [-> | Hin]; [discriminate|].
      apply list_elem_of_singleton in Hin. subst cmd. discriminate.
  - intros p1 p2 Hpts.
    destruct (drawEdge_trim_tags e) as [Hl Hh].
    unfold drawEdge. rewrite Hpts. cbn [length Nat.ltb Nat.leb children_of fst].
    eexists (_ ++ _), _. split; [by rewrite <- app_assoc|]. split; [| split].
    + apply Forall_app. split.
      * destruct (_ && _); repeat constructor. rewrite Hl. discriminate.
      * eapply Forall_impl; [exact Hh|]. intros n ->. discriminate.
    + unfold drawCurve. apply tag_of_append_attributes.
    + apply path_data_drawCurve.
Qed.

(** *** The value [draw] returns *)

(** C9 (what the code does).  [draw] returns [true] also when the stream
    has failed or fails on the write: nothing is written and the stream is
    left in its failed state, and the caller is told of success. *)
Theorem draw_reports_success (header : xml_node D) (clusters nodeGroups : list (xml_node D))
        (edges : list edge) (os : iostream.ostream (xml_node D)) :
  iostream.failed os = true \/ iostream.room os = 0%nat ->
  let r := draw m_attr m_settings header clusters nodeGroups edges os in
  r.1.1 = true
  /\ iostream.failed r.1.2 = true
  /\ iostream.written r.1.2 = iostream.written os.
Proof.
  intros Hbad r. unfold r, draw. destruct (drawEdges _ _ _) as [groups log]. simpl.
  unfold iostream.write.
  destruct (iostream.failed os) eqn:Ef; [auto|].
  destruct Hbad as [|Hroom]; [discriminate|]. rewrite Hroom. auto.
Qed.

End Generic.

(** *** Runs at binary64 *)

(** C3 as stated fails: between two boxes that are 84 apart the drawn
    path runs from centre to centre; its first point is not clear of the
    source box, it is the middle of it. *)
Lemma stroke_runs_from_centre_to_centre :
  let pts := points (drawEdge_trim apart settings0 e01) in
  pts = [P 0 0; P 100 0]%float
  /\ ~ Forall (fun p => clear_of apart p e01 box0 = true /\ clear_of apart p e01 box1 = true) pts.
Proof.
  assert (points (drawEdge_trim apart settings0 e01) = [P 0%float 0%float; P 100%float 0%float])
    as E by (vm_compute; reflexivity).
  cbv zeta. rewrite E. split; [reflexivity|].
  intros Hall. inversion Hall as [|? ? [Hc _] _]. vm_compute in Hc. discriminate.
Qed.

(** The edge between the two boxes 100 apart: drawn from centre to
    centre, both ends inside the covered regions. *)
Lemma trimmed_path_ends_witness :
  points (drawEdge_trim apart settings0 e01) = [P 0 0; P 100 0]%float
  /\ isCoveredBy apart (P 0 0)%float e01 box0 = true
  /\ isCoveredBy apart (P 100 0)%float e01 box1 = true.
Proof.
  destruct (trimmed_path_ends apart settings0 e01) as (_ & _ & _ & _ & _ & Hb).
  - vm_compute. reflexivity.
  - apply Hb.
    + reflexivity.
    + vm_compute. lia.
Defined.

(** C4 as stated fails: the tip of the arrow head at the right box is
    (92, 0), on the side of the box itself; the border of the box grown
    by the clearance 6 is met at (86, 0), where the base of the head is. *)
Lemma arrow_tip_on_the_box :
  polygon_points (drawArrowHead apart_arrows (P 0 0)%float (P 100 0)%float box1 e01).1
  = [92; 0; 86; 1.5; 86; -1.5]%float
  /\ getArrowSize apart_arrows e01 box1 = 6%float
  /\ on_grown_border apart_arrows (P 92 0)%float e01 box1 = false
  /\ on_grown_border apart_arrows (P 86 0)%float e01 box1 = true.
Proof. vm_compute. repeat split. Qed.

(** Three edges between two boxes that lie on each other: a document is
    written, [draw] returns [true] and the logger has three lines. *)
Lemma overlapping_edge_skipped_witness :
  let r := draw stacked settings0 svg_root [] [] [e10; e01; e10] fresh_stream in
  r.1.1 = true
  /\ length (iostream.written r.1.2) = 1
  /\ r.2 = [GraphIO.could_not_draw_edge e10; GraphIO.could_not_draw_edge e01;
            GraphIO.could_not_draw_edge e10].
Proof.
  destruct (overlapping_edge_skipped stacked settings0 e01 [e10] [e10] svg_root [] []
              fresh_stream) as (_ & _ & Hdrawn & Htrue & Hos & Hlog).
  - vm_compute. lia.
  - change ([e10] ++ e01 :: [e10]) with [e10; e01; e10] in *.
    split; [exact Htrue|]. split.
    + rewrite Hos. reflexivity.
    + rewrite Hlog, Hdrawn by reflexivity. vm_compute. reflexivity.
Defined.

(** Curviness 0.5 with bezier interpolation: still one line in the [d]
    attribute, the same element as with the default settings. *)
Lemma two_points_one_line_witness :
  drawCurve_ss curved [P 0 0; P 100 0]%float = [M 0 0; L 100 0]%float
  /\ path_data (drawCurve apart curved e01 [P 0 0; P 100 0]%float)
     = Some [M 0 0; L 100 0]%float
  /\ drawCurve apart curved e01 [P 0 0; P 100 0]%float
     = drawCurve apart settings0 e01 [P 0%float 0%float; P 100%float 0%float]
  /\ exists front path,
       children_of (drawEdge apart curved e01).1 = front ++ [path]
       /\ path_data path = Some [M 0 0; L 100 0]%float.
Proof.
  destruct (two_points_one_line apart curved e01 [P 0 0; P 100 0])%float
    as (Htwo & _ & _ & Hedge).
  destruct (Htwo eq_refl) as (p1 & p2 & Hp & Hss & _ & Hd & Hsame).
  injection Hp as <- <-.
  split; [exact Hss|]. split; [exact Hd|]. split; [symmetry; apply Hsame|].
  destruct (Hedge (P 0 0) (P 100 0))%float as (front & path & Hc & _ & _ & Hpd).
  - vm_compute. reflexivity.
  - exists front, path. split; [exact Hc | exact Hpd].
Defined.

(** A stream that has already failed: nothing is written, and [draw]
    returns [true]. *)
Lemma draw_reports_success_witness :
  let r := draw apart settings0 svg_root [] [] [e01] failed_stream in
  r.1.1 = true /\ iostream.failed r.1.2 = true /\ iostream.written r.1.2 = [].
Proof.
  apply (draw_reports_success apart settings0 svg_root [] [] [e01] failed_stream).
  left. reflexivity.
Defined.

End SvgPrinter_facts.

(** ** The arrow head, over the real numbers *)

Module arrow_head_facts.
Import ogdf pugi SvgPrinter SvgPrinter_notions SvgPrinter_facts arrow_head_notions.
Local Open Scope R_scope.

Lemma sign_of_sq d : sign_of d * sign_of d = 1.
Proof. unfold sign_of. destruct (bool_decide (0 < d)); lra. Qed.

Lemma dsign_real d : dsign (dgt d (dofZ 0)) = sign_of d.
Proof. reflexivity. Qed.

Lemma dmax_real (a b : R) : dmax a b = Rmax a b.
Proof.
  unfold dmax, Rmax. cbn. destruct (Rle_dec a b) as [Hle|Hn].
  - destruct (bool_decide_reflect (a < b)); [reflexivity | lra].
  - destruct (bool_decide_reflect (a < b)); [lra | reflexivity].
Qed.

(** The unit vector of a direction that is not null *)
Lemma unit_vector (a b : R) :
  a <> 0 \/ b <> 0 ->
  let l := R_sqrt.sqrt (a * a + b * b) in
  l <> 0 /\ (a / l) * (a / l) + (b / l) * (b / l) = 1.
Proof.
  intros Hnz l.
  assert (0 < a * a + b * b) as Hpos by (destruct Hnz; nra).
  assert (l * l = a * a + b * b) as Hl by (apply sqrt_sqrt; lra).
  assert (l <> 0) as Hl0 by (intros E; rewrite E in Hl; lra).
  split; [assumption|]. field_simplify_eq; [lra | assumption].
Qed.

(** Two parallel vectors of which a pair of coordinates have the same
    sign point the same way. *)
Lemma dot_pos (a b u v : R) :
  a * v = b * u -> 0 < a * u \/ 0 < b * v -> 0 < a * u + b * v.
Proof.
  intros Hpar [Hpos|Hpos].
  - assert (u <> 0) as Hu by (intros ->; lra).
    assert (0 < u * u) as Hu2 by (apply Rsqr_pos_lt in Hu; exact Hu).
    assert (b * v * (u * u) = a * u * (v * v)) as E
        by (replace (b * v * (u * u)) with (b * u * (v * u)) by ring; rewrite <- Hpar; ring).
    assert (0 <= a * u * (v * v)) as Hge
        by (apply Rmult_le_pos; [lra | apply Rle_0_sqr]).
    assert (0 <= b * v); [| lra].
    apply (Rmult_le_reg_r (u * u)); [assumption|]. lra.
  - assert (v <> 0) as Hv by (intros ->; lra).
    assert (0 < v * v) as Hv2 by (apply Rsqr_pos_lt in Hv; exact Hv).
    assert (a * u * (v * v) = b * v * (u * u)) as E
        by (replace (a * u * (v * v)) with (a * v * (u * v)) by ring; rewrite Hpar; ring).
    assert (0 <= b * v * (u * u)) as Hge
        by (apply Rmult_le_pos; [lra | apply Rle_0_sqr]).
    assert (0 <= a * u); [| lra].
    apply (Rmult_le_reg_r (v * v)); [assumption|]. lra.
Qed.

(** The head drawn at a tip that is not [start] points from [start] to
    the tip. *)
Lemma head_forward (sx sy tx ty size : R) :
  tx - sx <> 0 \/ ty - sy <> 0 ->
  let m := midpoint (base_ends sx sy tx ty size).1 (base_ends sx sy tx ty size).2 in
  (tx - m_x m) * (tx - sx) + (ty - m_y m) * (ty - sy)
  = size * R_sqrt.sqrt (sqdist (P tx ty) (P sx sy)).
Proof.
  intros Hnz. unfold base_ends, sqdist. cbv zeta. cbn [fst snd m_x m_y P].
  set (l := R_sqrt.sqrt ((tx - sx) * (tx - sx) + (ty - sy) * (ty - sy))).
  destruct (unit_vector _ _ Hnz) as [Hl _]. fold l in Hl.
  assert (l * l = (tx - sx) * (tx - sx) + (ty - sy) * (ty - sy)) as Hll.
  { apply sqrt_sqrt. pose proof (Rle_0_sqr (tx - sx)). pose proof (Rle_0_sqr (ty - sy)).
    unfold Rsqr in *. lra. }
  unfold midpoint. cbn [m_x m_y P].
  replace ((tx - (tx - size * ((tx - sx) / l) - size / 4 * ((ty - sy) / l)
                  + (tx - size * ((tx - sx) / l) + size / 4 * ((ty - sy) / l))) / 2) * (tx - sx)
           + (ty - (ty - size * ((ty - sy) / l) + size / 4 * ((tx - sx) / l)
                    + (ty - size * ((ty - sy) / l) - size / 4 * ((tx - sx) / l))) / 2) * (ty - sy))
    with (size * (((tx - sx) * (tx - sx) + (ty - sy) * (ty - sy)) / l)) by (field; assumption).
  rewrite <- Hll. f_equal. field. assumption.
Qed.

Section Real.
Variable m_attr : GA.GraphAttributes R.

Abbreviation covered p e v := (isCoveredBy m_attr p e v).

Lemma covered_real (p : DPoint R) e v :
  covered p e v = true <->
  let a := getArrowSize m_attr e v in
  GA.x m_attr v - GA.width m_attr v / 2 - a <= m_x p <= GA.x m_attr v + GA.width m_attr v / 2 + a
  /\ GA.y m_attr v - GA.height m_attr v / 2 - a <= m_y p
     <= GA.y m_attr v + GA.height m_attr v / 2 + a.
Proof.
  unfold isCoveredBy, dge. cbn.
  rewrite !andb_true_iff, !bool_decide_eq_true. tauto.
Qed.

Lemma getArrowSize_real e v :
  GA.has m_attr edgeArrow = true ->
  getArrowSize m_attr e v
  = Rmax ((if GA.has m_attr edgeStyle then GA.strokeWidth m_attr e else 1) * 3)
         ((GA.width m_attr v + GA.height m_attr v
           + GA.width m_attr (opposite e v) + GA.height m_attr (opposite e v)) / 16).
Proof.
  intros Ha. unfold getArrowSize. rewrite Ha. simpl. by rewrite dmax_real.
Qed.

Lemma polygon_points_drawn (pts : list R) style :
  polygon_points (append_attributes (drawPolygon pts) style) = pts.
Proof. unfold drawPolygon. by rewrite attrs_of_append_attributes. Qed.

(** The triangle drawn at a tip that is not [start] *)
Lemma head_triangle (sx sy tx ty size : R) :
  tx - sx <> 0 \/ ty - sy <> 0 ->
  let b1 := (base_ends sx sy tx ty size).1 in
  let b2 := (base_ends sx sy tx ty size).2 in
  let m := midpoint b1 b2 in
  sqdist (P tx ty) m = size * size
  /\ sqdist b1 m = size / 4 * (size / 4)
  /\ sqdist b2 m = size / 4 * (size / 4)
  /\ (tx - m_x m) * (m_x b1 - m_x b2) + (ty - m_y m) * (m_y b1 - m_y b2) = 0
  /\ (forall dx dy, (tx - sx) * dy = (ty - sy) * dx ->
      (tx - m_x m) * dy - (ty - m_y m) * dx = 0).
Proof.
  intros Hnz. unfold base_ends. cbv zeta. cbn [fst snd].
  set (l := R_sqrt.sqrt ((tx - sx) * (tx - sx) + (ty - sy) * (ty - sy))).
  set (ux := (tx - sx) / l). set (uy := (ty - sy) / l).
  destruct (unit_vector _ _ Hnz) as [Hl Hu]. fold l in Hl, Hu. fold ux uy in Hu.
  unfold sqdist, midpoint. simpl.
  repeat split.
  - replace (size * size) with (size * size * (ux * ux + uy * uy)) by (rewrite Hu; ring). field.
  - replace (size / 4 * (size / 4)) with (size / 4 * (size / 4) * (ux * ux + uy * uy))
      by (rewrite Hu; ring). field.
  - replace (size / 4 * (size / 4)) with (size / 4 * (size / 4) * (ux * ux + uy * uy))
      by (rewrite Hu; ring). field.
  - field.
  - intros dx dy Hline.
    replace ((tx - (tx - size * ux - size / 4 * uy + (tx - size * ux + size / 4 * uy)) / 2) * dy -
             (ty - (ty - size * uy + size / 4 * ux + (ty - size * uy - size / 4 * ux)) / 2) * dx)
      with (size * (ux * dy - uy * dx)) by field.
    unfold ux, uy.
    replace ((tx - sx) / l * dy - (ty - sy) / l * dx)
      with (((tx - sx) * dy - (ty - sy) * dx) / l) by (field; assumption).
    rewrite Hline. field. assumption.
Qed.

Lemma getArrowSize_nonneg e v :
  GA.has m_attr edgeArrow = true ->
  0 <= GA.width m_attr v -> 0 <= GA.height m_attr v ->
  0 <= GA.width m_attr (opposite e v) -> 0 <= GA.height m_attr (opposite e v) ->
  0 <= getArrowSize m_attr e v.
Proof.
  intros Ha ? ? ? ?. rewrite getArrowSize_real by assumption.
  eapply Rle_trans; [| apply Rmax_r]. lra.
Qed.

Lemma point_differs (p : DPoint R) (tx ty : R) :
  P tx ty <> p -> tx - m_x p <> 0 \/ ty - m_y p <> 0.
Proof.
  destruct p as [px py]. simpl. intros Hne.
  destruct (Req_dec_T tx px) as [->|Hx]; [| left; lra].
  destruct (Req_dec_T ty py) as [->|Hy]; [| right; lra].
  by destruct Hne.
Qed.

Lemma not_covered_real (p : DPoint R) e v :
  covered p e v = false ->
  let a := getArrowSize m_attr e v in
  m_x p < GA.x m_attr v - GA.width m_attr v / 2 - a
  \/ GA.x m_attr v + GA.width m_attr v / 2 + a < m_x p
  \/ m_y p < GA.y m_attr v - GA.height m_attr v / 2 - a
  \/ GA.y m_attr v + GA.height m_attr v / 2 + a < m_y p.
Proof.
  intros Hn a.
  destruct (Rlt_dec (m_x p) (GA.x m_attr v - GA.width m_attr v / 2 - a)); [tauto|].
  destruct (Rlt_dec (GA.x m_attr v + GA.width m_attr v / 2 + a) (m_x p)); [tauto|].
  destruct (Rlt_dec (m_y p) (GA.y m_attr v - GA.height m_attr v / 2 - a)); [tauto|].
  destruct (Rlt_dec (GA.y m_attr v + GA.height m_attr v / 2 + a) (m_y p)); [tauto|].
  exfalso. assert (covered p e v = true) as Hc; [| congruence].
  apply covered_real. cbv zeta. fold a. lra.
Qed.

(** A point of the line of the segment that is in the covered region
    lies ahead of a [start] outside it, as [end_] does. *)
Lemma covered_point_ahead (start end_ tip : DPoint R) e v :
  covered start e v = false -> covered end_ e v = true -> covered tip e v = true ->
  (m_x tip - m_x start) * (m_y end_ - m_y start)
  = (m_y tip - m_y start) * (m_x end_ - m_x start) ->
  0 < (m_x tip - m_x start) * (m_x end_ - m_x start)
      + (m_y tip - m_y start) * (m_y end_ - m_y start).
Proof.
  intros Hs He Ht Hline.
  apply not_covered_real in Hs. apply covered_real in He, Ht. cbv zeta in *.
  apply dot_pos; [exact Hline|].
  destruct Hs as [Hs|[Hs|[Hs|Hs]]].
  - left. apply Rmult_lt_0_compat; lra.
  - left. replace ((m_x tip - m_x start) * (m_x end_ - m_x start))
      with ((m_x start - m_x tip) * (m_x start - m_x end_)) by ring.
    apply Rmult_lt_0_compat; lra.
  - right. apply Rmult_lt_0_compat; lra.
  - right. replace ((m_y tip - m_y start) * (m_y end_ - m_y start))
      with ((m_y start - m_y tip) * (m_y start - m_y end_)) by ring.
    apply Rmult_lt_0_compat; lra.
Qed.

(** C4 (amended).  Over the real numbers, at a node with sides of
    non-negative length and for a segment that ends inside the covered
    region of the node, the arrow head is as [arrow_head_spec] says: its
    tip is where the line of the segment meets a side of the rectangle of
    the node itself (not of the rectangle grown by the clearance); the
    head is an isoceles triangle of length the clearance and half base a
    quarter of it, its axis along the line of the segment; when the
    segment starts outside the covered region the head points from the
    start to the tip, and this is the direction of the segment whenever
    the tip is in the covered region.  The statement is about the
    formulas: at binary64 the test of the first intersection is rounded,
    and the other side can be taken when that intersection lies on the
    border of the covered region. *)
Theorem arrow_head_geometry (start end_ : DPoint R) (v : node) (e : edge) :
  GA.has m_attr edgeArrow = true ->
  0 <= GA.width m_attr v -> 0 <= GA.height m_attr v ->
  0 <= GA.width m_attr (opposite e v) -> 0 <= GA.height m_attr (opposite e v) ->
  covered end_ e v = true ->
  arrow_head_spec m_attr start end_ v e.
Proof.
  intros Ha Hw Hh Hw' Hh' Hcov.
  pose proof (getArrowSize_nonneg e v Ha Hw Hh Hw' Hh') as Hsize.
  pose proof (getArrowSize_real e v Ha) as Hmax.
  pose proof Hcov as Hcov'.
  apply covered_real in Hcov. cbv zeta in Hcov.
  unfold arrow_head_spec, drawArrowHead. cbv zeta.
  to_real.
  set (size := getArrowSize m_attr e v) in *.
  set (dx := m_x end_ - m_x start). set (dy := m_y end_ - m_y start).
  destruct (bool_decide_reflect (dx = 0)) as [Hdx|Hdx].
  - cbn [fst]. rewrite polygon_points_drawn.
    set (y := GA.y m_attr v - GA.height m_attr v / 2 * sign_of dy).
    exists (P (m_x end_) y), (P (m_x end_ - size / 4) (y - size * sign_of dy)),
      (P (m_x end_ + size / 4) (y - size * sign_of dy)).
    pose proof (sign_of_sq dy) as Hs.
    assert (covered (P (m_x end_) y) e v = true) as Htip.
    { apply covered_real. cbv zeta. fold size. cbn [m_x m_y P].
      unfold y, sign_of. destruct (bool_decide (0 < dy)); lra. }
    split; [reflexivity|]. split; [exact Hmax|]. split; [right; split; [by left | reflexivity]|].
    split; [intros _; exact Htip|].
    split; [simpl; fold dx; rewrite Hdx; ring|].
    split.
    + intros _. unfold sqdist, midpoint. cbn [m_x m_y P]. 
      split; [| split; [| split; [| split; [| split]]]].
      * replace (size * size) with (size * size * (sign_of dy * sign_of dy))
          by (rewrite Hs; ring). field.
      * field.
      * field.
      * field.
      * rewrite Hdx. field.
      * intros Hout. apply not_covered_real in Hout. cbv zeta in Hout. fold size in Hout.
        assert (m_x start = m_x end_) as Hx by (unfold dx in Hdx; lra).
        rewrite Hx in *.
        replace ((m_x end_ - m_x end_) * (m_x end_ - m_x end_)
                 + (y - m_y start) * (y - m_y start))
          with ((sign_of dy * (y - m_y start)) * (sign_of dy * (y - m_y start)))
          by (replace ((sign_of dy * (y - m_y start)) * (sign_of dy * (y - m_y start)))
                with (sign_of dy * sign_of dy * ((y - m_y start) * (y - m_y start))) by ring;
              rewrite Hs; ring).
        rewrite sqrt_square.
        -- field.
        -- unfold y, sign_of, dy in *. destruct Hout as [Ho|[Ho|[Ho|Ho]]]; try lra.
           ++ destruct (bool_decide_reflect (0 < m_y end_ - m_y start)); lra.
           ++ destruct (bool_decide_reflect (0 < m_y end_ - m_y start)); lra.
    + intros Hout _. apply (covered_point_ahead start end_ (P (m_x end_) y) e v Hout Hcov' Htip).
      cbn [m_x m_y P]. fold dx dy. rewrite Hdx. ring.
  - set (side_x := GA.x m_attr v - GA.width m_attr v / 2 * sign_of dx).
    set (side_y := GA.y m_attr v - GA.height m_attr v / 2 * sign_of dy).
    set (y0 := m_y start + (side_x - m_x start) * (dy / dx)).
    assert (exists tx ty,
      ((tx = side_x /\ ty = y0 /\ covered (P side_x y0) e v = true)
       \/ (tx = m_x start + (side_y - m_y start) / (dy / dx) /\ ty = side_y
           /\ covered (P side_x y0) e v = false))
      /\ (if negb (covered (P side_x y0) e v)
          then (m_x start + (side_y - m_y start) / (dy / dx), side_y)
          else (side_x, y0)) = (tx, ty)) as (tx & ty & Hcase & ->).
    { destruct (covered (P side_x y0) e v); simpl; eauto 10. }
    cbn [fst]. rewrite polygon_points_drawn.
    exists (P tx ty), (base_ends (m_x start) (m_y start) tx ty size).1,
      (base_ends (m_x start) (m_y start) tx ty size).2.
    split; [reflexivity|]. split; [exact Hmax|].
    assert ((tx - m_x start) * dy = (ty - m_y start) * dx) as Hline.
    { destruct Hcase as [(-> & -> & _) | (-> & -> & Hout)].
      - unfold y0. field. assumption.
      - assert (dy <> 0) as Hdy.
        { intros Hdy. assert (covered (P side_x y0) e v = true) as Hin; [| congruence].
          apply covered_real. cbv zeta. fold size. simpl.
          assert (y0 = m_y end_) as ->.
          { unfold y0. rewrite Hdy. unfold dy in Hdy.
            replace (0 / dx) with 0 by (field; assumption). lra. }
          unfold side_x, sign_of. destruct (bool_decide (0 < dx)); lra. }
        field. split; assumption. }
    split; [| split; [intros; contradiction | split; [exact Hline|]]].
    + destruct Hcase as [(-> & -> & Hin) | (-> & -> & Hout)].
      * left. by repeat split.
      * right. split; [by right | reflexivity].
    + split.
      * intros Hne. apply point_differs in Hne.
        destruct (head_triangle (m_x start) (m_y start) tx ty size Hne)
          as (H1 & H2 & H3 & H4 & H5).
        repeat split; try assumption; [by apply H5|].
        intros _. pose proof (head_forward (m_x start) (m_y start) tx ty size Hne) as Hf.
        cbv zeta in Hf. destruct start as [sx sy]. exact Hf.
      * intros Hout Htip.
        exact (covered_point_ahead start end_ (P tx ty) e v Hout Hcov' Htip Hline).
Qed.


End Real.

(** The arrow head at the right box of [apart_arrows_real], for the
    segment from (0, 0) to (100, 0); and at the upper box of [tall_real],
    for the segment from (0, 0) to (100, 140): the first intersection,
    (90, 126), lies on the border of the covered region and is the tip. *)
Lemma arrow_head_geometry_witness :
  arrow_head_spec apart_arrows_real (P 0 0) (P 100 0) box1 e01
  /\ exists tip b1 b2 : DPoint R,
       polygon_points (drawArrowHead tall_real (P 0 0) (P 100 140) box1 e01).1
       = [m_x tip; m_y tip; m_x b1; m_y b1; m_x b2; m_y b2]
       /\ m_x tip = 90 /\ m_y tip = 126.
Proof.
  split.
  - apply arrow_head_geometry.
    + reflexivity.
    + simpl. lra.
    + simpl. lra.
    + simpl. lra.
    + simpl. lra.
    + apply covered_real. cbv zeta.
      rewrite getArrowSize_real by reflexivity. simpl.
      unfold Rmax. destruct (Rle_dec (2 * 3) ((16 + 16 + 16 + 16) / 16)); lra.
  - assert (getArrowSize tall_real e01 box1 = 6) as Hsize.
    { rewrite getArrowSize_real by reflexivity. simpl.
      unfold Rmax. destruct (Rle_dec (2 * 3) ((20 + 16 + 20 + 16) / 16)); lra. }
    destruct (arrow_head_geometry tall_real (P 0 0) (P 100 140) box1 e01)
      as (tip & b1 & b2 & Hpts & _ & Hside & _ & Hline & _).
    + reflexivity.
    + simpl. lra.
    + simpl. lra.
    + simpl. lra.
    + simpl. lra.
    + apply covered_real. cbv zeta. rewrite Hsize. simpl. lra.
    + exists tip, b1, b2. split; [exact Hpts|]. simpl in Hside, Hline.
      assert (sign_of (100 - 0) = 1) as Hs
          by (unfold sign_of; destruct (bool_decide_reflect (0 < 100 - 0)); lra).
      rewrite Hs in Hside.
      destruct Hside as [(_ & Hx & _) | ([Hdx | Hout] & _)].
      * split; lra.
      * lra.
      * exfalso. assert (isCoveredBy tall_real
                           (P (100 - 20 / 2 * 1) (0 + (100 - 20 / 2 * 1 - 0) * ((140 - 0) / (100 - 0))))
                           e01 box1 = true) as Hin; [| congruence].
        apply covered_real. cbv zeta. rewrite Hsize. simpl. lra.
Defined.

(** The same segment at binary64: the first intersection is computed as
    (90, 125.99999999999999), just outside the covered region, and the
    tip is taken on the horizontal side, at (132 / 1.4, 132). *)
Lemma tip_side_at_binary64 :
  let pts := polygon_points
               (drawArrowHead tall (P 0%float 0%float) (P 100%float 140%float) box1 e01).1 in
  isCoveredBy tall (P 90 (90 * (140 / 100)))%float e01 box1 = false
  /\ (90 * (140 / 100) <? 126)%float = true
  /\ nth 1 pts 0%float = 132%float
  /\ (nth 0 pts 0%float =? 132 / (140 / 100))%float = true.
Proof. vm_compute. repeat split. Qed.

(** A head that points away from its node.  The segment from (-5, 5) to
    (-0.5, 11.125) ends inside the covered region of the box of [corner]
    and starts outside it; it meets the line of the left side above the
    covered region, so the tip is taken on the line of the lower side:
    it falls at (-8.67, 0), behind the start. *)
Lemma arrow_head_points_back :
  let pts := polygon_points
               (drawArrowHead corner (P (-5)%float 5%float) (P (-0.5)%float 11.125%float)
                              box1 e01).1 in
  isCoveredBy corner (P (-5) 5)%float e01 box1 = false
  /\ isCoveredBy corner (P (-0.5) 11.125)%float e01 box1 = true
  /\ (nth 0 pts 0%float <? -5)%float = true
  /\ nth 1 pts 0%float = 0%float.
Proof. vm_compute. repeat split. Qed.

End arrow_head_facts.


(** ** More on the graph handed to the layout *)

Module outputter_more_facts.
Import ogdf srcuml svg_sugiyama_outputter outputter_notions outputter_facts
       outputter_more_notions.

(** *** The kind kept for a pair *)

Lemma replaces_spec s k :
  replaces s k = chainb s && chainb k && bool_decide (chain_rank s < chain_rank k).
Proof. by destruct s, k. Qed.

Lemma chainb_in_chain k : chainb k = true <-> in_chain k.
Proof.
  unfold in_chain. destruct k; simpl; split; try tauto; try discriminate.
  all: intros [?|[?|[?|?]]]; discriminate.
Qed.

(** A kind outside the chain is never replaced. *)
Lemma resolve_outside ks s :
  chainb s = false -> fold_left resolve ks (Some s) = Some s.
Proof.
  intros Hs. induction ks as [|k ks IH]; simpl; [reflexivity|].
  rewrite replaces_spec, Hs. simpl. exact IH.
Qed.

(** A kind of the chain is replaced by the higher kinds of the chain
    only. *)
Lemma resolve_inside ks s :
  chainb s = true ->
  fold_left resolve ks (Some s)
  = Some (chain_kind (chain_rank s
                      `max` max_list (chain_rank <$> filter (fun k => chainb k = true) ks))).
Proof.
  revert s. induction ks as [|k ks IH]; intros s Hs; csimpl.
  - rewrite Nat.max_0_r, chain_kind_rank; [reflexivity | by apply chainb_in_chain].
  - rewrite replaces_spec, Hs. simpl. destruct (chainb k) eqn:Hk; simpl.
    + rewrite filter_cons_True by assumption. csimpl.
      destruct (bool_decide_reflect (chain_rank s < chain_rank k)).
      * rewrite IH by assumption. do 2 f_equal. lia.
      * rewrite IH by assumption. do 2 f_equal. lia.
    + rewrite filter_cons_False by congruence. by apply IH.
Qed.

Lemma fold_resolve_resolved ks : fold_left resolve ks None = resolved ks.
Proof.
  destruct ks as [|k0 ks]; [reflexivity|]. simpl. destruct (chainb k0) eqn:Hk.
  - rewrite resolve_inside by assumption. f_equal. unfold chain_max.
    rewrite filter_cons_True by assumption. reflexivity.
  - by apply resolve_outside.
Qed.

(** X1.  The kind [output] keeps for an ordered pair, for relationships
    whose names are all keys of [class_node_map] and for any kinds: none
    when no relationship falls on the pair; the first kind when it is a
    dependency, a generalization or a realization; and otherwise the
    highest of the kinds of the chain that fall on the pair. *)
Theorem merge_resolved_kind (m : gmap string node) (rs : list srcuml_relationship)
        (key : edge_key) :
  (forall r, r ∈ rs -> endpoints_found m r) ->
  find key (merge m rs) = resolved (kinds_for m key rs).
Proof. intros _. rewrite merge_find. apply fold_resolve_resolved. Qed.

(** *** Entries and records *)

Lemma assign_entry key key' ty ty' (l : edge_types) :
  (key, ty) ∈ assign key' ty' l -> (key, ty) ∈ l \/ (key = key' /\ ty = ty').
Proof.
  induction l as [|[k t] l IH]; simpl; [by left|].
  destruct (decide (k = key')) as [->|Hne].
  - rewrite !elem_of_cons. intros [[= -> ->]|Hin]; [by right | left; by right].
  - rewrite !elem_of_cons. intros [Heq|Hin]; [left; by left|].
    destruct (IH Hin) as [?|?]; [left; by right | by right].
Qed.

Lemma add_relationship_entry m etm r key ty :
  (key, ty) ∈ add_relationship m etm r ->
  (key, ty) ∈ etm \/ (key = key_of m r /\ ty = get_type r).
Proof.
  unfold add_relationship. fold (key_of m r).
  destruct (find (key_of m r) etm) as [s|].
  - destruct (replaces s (get_type r)); [| by left]. apply assign_entry.
  - rewrite elem_of_app, list_elem_of_singleton. intros [?|[= -> ->]]; [by left | by right].
Qed.

Lemma fold_add_relationship_entry m rs etm key ty :
  (key, ty) ∈ fold_left (add_relationship m) rs etm ->
  (key, ty) ∈ etm \/ exists r, r ∈ rs /\ key_of m r = key /\ get_type r = ty.
Proof.
  revert etm. induction rs as [|r rs IH]; intros etm; simpl; [by left|].
  intros Hin. destruct (IH _ Hin) as [Hin'|(r' & Hr' & Hk & Ht)].
  - destruct (add_relationship_entry _ _ _ _ _ Hin') as [?|[-> ->]]; [by left|].
    right. exists r. split; [by left | done].
  - right. exists r'. split; [by right | done].
Qed.

(** X2.  For relationships whose names are all keys of
    [class_node_map], [edge_type_map] holds nothing of its own making:
    its keys are the keys of the relationships, all of them, and the kind
    of an entry is the kind of a relationship that falls on its key. *)
Theorem merge_entries_from_records (m : gmap string node) (rs : list srcuml_relationship) :
  (forall r, r ∈ rs -> endpoints_found m r) ->
  (forall key, key ∈ (merge m rs).*1 <-> exists r, r ∈ rs /\ key_of m r = key)
  /\ (forall key ty, (key, ty) ∈ merge m rs ->
      exists r, r ∈ rs /\ key_of m r = key /\ get_type r = ty).
Proof.
  intros _.
  assert (forall key ty, (key, ty) ∈ merge m rs ->
          exists r, r ∈ rs /\ key_of m r = key /\ get_type r = ty) as Hent.
  { intros key ty Hin. apply fold_add_relationship_entry in Hin.
    destruct Hin as [Hin|?]; [by apply elem_of_nil in Hin | assumption]. }
  split; [| exact Hent].
  intros key. split.
  - intros Hin. apply list_elem_of_fmap in Hin. destruct Hin as ([k ty] & -> & Hin).
    destruct (Hent _ _ Hin) as (r & Hr & Hk & _). eauto.
  - intros (r & Hr & <-). by apply merge_keeps.
Qed.

(** *** Relationships that come again *)

(** The kind kept for a pair is replaced by none of the kinds that fell
    on the pair. *)
Lemma replaces_trans s1 s2 k :
  replaces s1 s2 = true -> replaces s1 k = false -> replaces s2 k = false.
Proof. by destruct s1, s2, k. Qed.

Lemma replaces_irrefl k : replaces k k = false.
Proof. by destruct k. Qed.

Lemma resolve_settled ks init s :
  fold_left resolve ks init = Some s ->
  (forall s0, init = Some s0 -> forall k, replaces s0 k = false -> replaces s k = false)
  /\ (forall k, k ∈ ks -> replaces s k = false).
Proof.
  revert init. induction ks as [|k0 ks IH]; intros init Hfold; simpl in Hfold.
  - split; [| intros k Hk; by apply elem_of_nil in Hk].
    intros s0 -> k Hk. by injection Hfold as <-.
  - destruct (IH _ Hfold) as [Hinit Hks].
    assert (exists s1, resolve init k0 = Some s1) as [s1 Hs1]
      by (destruct init; simpl; eauto).
    specialize (Hinit s1 Hs1).
    split.
    + intros s0 -> k Hk. apply Hinit. simpl in Hs1. injection Hs1 as <-.
      destruct (replaces s0 k0) eqn:E; [by apply replaces_trans with s0 | assumption].
    + intros k [->|Hk]%elem_of_cons; [| by apply Hks].
      apply Hinit. destruct init as [s0|]; simpl in Hs1; injection Hs1 as <-.
      * destruct (replaces s0 k0) eqn:E; [apply replaces_irrefl | assumption].
      * apply replaces_irrefl.
Qed.

Lemma add_relationship_settled m etm r s :
  find (key_of m r) etm = Some s -> replaces s (get_type r) = false ->
  add_relationship m etm r = etm.
Proof.
  intros Hf Hr. unfold add_relationship. fold (key_of m r). by rewrite Hf, Hr.
Qed.

(** X3.  For relationships whose names are all keys of
    [class_node_map]: relationships that are already in the list change
    nothing when they come again at its end, the map holds the same
    entries. *)
Theorem merge_repeated_records (m : gmap string node) (rs rs' : list srcuml_relationship) :
  (forall r, r ∈ rs -> endpoints_found m r) ->
  (forall r, r ∈ rs' -> r ∈ rs) -> merge m (rs ++ rs') = merge m rs.
Proof.
  intros _ Hsub. unfold merge. rewrite fold_left_app. fold (merge m rs).
  induction rs' as [|r rs' IH]; simpl; [reflexivity|].
  assert (r ∈ rs) as Hr by (apply Hsub; by left).
  assert (add_relationship m (merge m rs) r = merge m rs) as ->.
  { pose proof (merge_find m rs (key_of m r)) as Hfind.
    destruct (find (key_of m r) (merge m rs)) as [s|] eqn:Hf.
    - apply add_relationship_settled with s; [assumption|].
      symmetry in Hfind. apply resolve_settled in Hfind. destruct Hfind as [_ Hks].
      apply Hks. unfold kinds_for. apply list_elem_of_fmap. exists r. split; [reflexivity|].
      apply list_elem_of_filter. split; [reflexivity | assumption].
    - apply find_None in Hf. destruct Hf. by apply merge_keeps. }
  apply IH. intros r' Hr'. apply Hsub. by right.
Qed.

(** Every name of the four relationships of [both_ways] is a key of
    [two_classes]. *)
Lemma both_ways_found r : r ∈ both_ways -> endpoints_found two_classes r.
Proof.
  intros Hr. unfold both_ways in Hr. rewrite !elem_of_cons in Hr.
  destruct Hr as [->|[->|[->|[->|Hr]]]]; [| | | | by apply elem_of_nil in Hr].
  all: split; eexists; vm_compute; reflexivity.
Qed.

(** From A to B a dependency comes first and stays; from B to A the
    aggregation replaces the association. *)
Lemma merge_resolved_kind_witness :
  find (element 0, element 1) (merge two_classes both_ways) = Some DEPENDENCY
  /\ find (element 1, element 0) (merge two_classes both_ways) = Some AGGREGATION.
Proof.
  split.
  - exact (merge_resolved_kind two_classes both_ways (element 0, element 1) both_ways_found).
  - exact (merge_resolved_kind two_classes both_ways (element 1, element 0) both_ways_found).
Defined.

(** The two keys of [both_ways] *)
Lemma merge_entries_from_records_witness :
  (element 0, element 1) ∈ (merge two_classes both_ways).*1
  /\ (forall key ty, (key, ty) ∈ merge two_classes both_ways ->
      exists r, r ∈ both_ways /\ key_of two_classes r = key /\ get_type r = ty).
Proof.
  destruct (merge_entries_from_records two_classes both_ways both_ways_found) as [Hkeys Hent].
  split; [| exact Hent].
  apply Hkeys. exists (rel "A" "B" DEPENDENCY). split; [by left | reflexivity].
Defined.

(** [both_ways] followed by two relationships it already holds *)
Lemma merge_repeated_records_witness :
  merge two_classes (both_ways ++ [rel "B" "A" ASSOCIATION; rel "A" "B" COMPOSITION])
  = merge two_classes both_ways.
Proof.
  apply merge_repeated_records; [exact both_ways_found|].
  intros r Hr. rewrite !elem_of_cons in Hr. unfold both_ways. rewrite !elem_of_cons.
  destruct Hr as [->|[->|Hr]]; [tauto | tauto | by apply elem_of_nil in Hr].
Defined.

(** *** Nodes and names *)

Section Built.
Context {D : Type} `{DoubleOps D}.
Local Open Scope dbl_scope.
Variable srcuml_class : Type.
Variable get_srcuml_name : srcuml_class -> string.
Variable generate_label : srcuml_class -> string * Z * Z.

Abbreviation add_class := (add_class srcuml_class get_srcuml_name generate_label).

(** The map after the loop over the classes keeps what it had and gives
    a new name the node of the first class that bears it. *)
Lemma fold_add_class_map classes (st : outputter D * gmap string node) name :
  (fold_left add_class classes st).2 !! name
  = match st.2 !! name with
    | Some v => Some v
    | None =>
        (fun ic => element (numberOfNodes (g st.1) + ic.1))
          <$> list_find (fun c => get_srcuml_name c = name) classes
    end.
Proof.
  revert st. induction classes as [|c classes IH]; intros st; simpl.
  - by destruct (st.2 !! name).
  - rewrite IH. destruct (add_class_graph srcuml_class get_srcuml_name generate_label st c)
      as [-> _].
    rewrite add_class_map. unfold map_insert.
    destruct (decide (get_srcuml_name c = name)) as [<-|Hne].
    + destruct (st.2 !! get_srcuml_name c) as [v|] eqn:E.
      * by rewrite E.
      * rewrite lookup_insert_eq. simpl. do 2 f_equal. lia.
    + assert (forall v, (match st.2 !! get_srcuml_name c with
                         | Some _ => st.2
                         | None => <[get_srcuml_name c := v]> st.2
                         end) !! name = st.2 !! name) as ->.
      { intros v. destruct (st.2 !! get_srcuml_name c); [reflexivity|].
        by rewrite lookup_insert_ne. }
      destruct (st.2 !! name); [reflexivity|].
      destruct (list_find _ classes) as [[i c']|]; simpl; [| reflexivity].
      do 2 f_equal. lia.
Qed.

Lemma add_class_strings (st : outputter D * gmap string node) c :
  GA.label (ga (add_class st c).1) (element (numberOfNodes (g st.1)))
  = (generate_label c).1.1
  /\ GA.fillColor (ga (add_class st c).1) (element (numberOfNodes (g st.1))) = "Antiquewhite"
  /\ (forall v, v <> element (numberOfNodes (g st.1)) ->
      GA.label (ga (add_class st c).1) v = GA.label (ga st.1) v
      /\ GA.fillColor (ga (add_class st c).1) v = GA.fillColor (ga st.1) v)
  /\ GA.attributes (ga (add_class st c).1) = GA.attributes (ga st.1).
Proof.
  destruct st as [o m]. unfold svg_sugiyama_outputter.add_class. simpl.
  destruct (generate_label c) as [[lbl n] l]. simpl.
  rewrite !fn_lookup_insert. repeat split.
  all: by rewrite fn_lookup_insert_ne.
Qed.

Lemma fold_add_class_strings_old classes (st : outputter D * gmap string node) j :
  (j < numberOfNodes (g st.1))%nat ->
  GA.label (ga (fold_left add_class classes st).1) (element j) = GA.label (ga st.1) (element j)
  /\ GA.fillColor (ga (fold_left add_class classes st).1) (element j)
     = GA.fillColor (ga st.1) (element j).
Proof.
  revert st. induction classes as [|c classes IH]; intros st Hj; simpl; [done|].
  destruct (add_class_graph srcuml_class get_srcuml_name generate_label st c) as [Hn _].
  destruct (IH (add_class st c)) as [-> ->]; [lia|].
  destruct (add_class_strings st c) as (_ & _ & Hold & _).
  apply Hold. intros [=]. lia.
Qed.

Lemma fold_add_class_strings classes (st : outputter D * gmap string node) i c :
  classes !! i = Some c ->
  GA.label (ga (fold_left add_class classes st).1) (element (numberOfNodes (g st.1) + i))
  = (generate_label c).1.1
  /\ GA.fillColor (ga (fold_left add_class classes st).1)
                  (element (numberOfNodes (g st.1) + i)) = "Antiquewhite".
Proof.
  revert st i. induction classes as [|c' classes IH]; intros st i Hi; [done|].
  destruct (add_class_graph srcuml_class get_srcuml_name generate_label st c') as [Hn _].
  destruct i as [|i]; simpl in *.
  - injection Hi as ->. rewrite Nat.add_0_r.
    destruct (fold_add_class_strings_old classes (add_class st c) (numberOfNodes (g st.1)))
      as [-> ->]; [lia|].
    destruct (add_class_strings st c) as (Hl & Hf & _). by split.
  - specialize (IH (add_class st c') i Hi). rewrite Hn in IH.
    by replace (numberOfNodes (g st.1) + S i)%nat
      with (S (numberOfNodes (g st.1)) + i)%nat by lia.
Qed.

Lemma fold_add_class_attributes classes (st : outputter D * gmap string node) :
  GA.attributes (ga (fold_left add_class classes st).1) = GA.attributes (ga st.1).
Proof.
  revert st. induction classes as [|c classes IH]; intros st; simpl; [reflexivity|].
  rewrite IH. by destruct (add_class_strings st c) as (_ & _ & _ & ->).
Qed.

(** *** Edges and strokes *)

Lemma add_edge_frame (o : outputter D) entry :
  let o' := add_edge o entry in
  let e := edge_of (length (edges (g o))) entry in
  edges (g o') = edges (g o) ++ [e]
  /\ numberOfNodes (g o') = numberOfNodes (g o)
  /\ GA.strokeWidth (ga o') e = dofZ 2
  /\ GA.strokeType (ga o') e = stroke_of entry.2
  /\ (forall e', e' <> e ->
      GA.strokeWidth (ga o') e' = GA.strokeWidth (ga o) e'
      /\ GA.strokeType (ga o') e' = GA.strokeType (ga o) e')
  /\ GA.label (ga o') = GA.label (ga o)
  /\ GA.fillColor (ga o') = GA.fillColor (ga o)
  /\ GA.attributes (ga o') = GA.attributes (ga o).
Proof.
  unfold add_edge, edge_of. simpl. rewrite !fn_lookup_insert.
  repeat split; by rewrite fn_lookup_insert_ne.
Qed.

Lemma fold_add_edge_frame (etm : edge_types) (o : outputter D) :
  let o' := fold_left add_edge etm o in
  edges (g o') = edges (g o) ++ imap (fun i => edge_of (length (edges (g o)) + i)) etm
  /\ numberOfNodes (g o') = numberOfNodes (g o)
  /\ (forall i entry, etm !! i = Some entry ->
      GA.strokeWidth (ga o') (edge_of (length (edges (g o)) + i) entry) = dofZ 2
      /\ GA.strokeType (ga o') (edge_of (length (edges (g o)) + i) entry) = stroke_of entry.2)
  /\ (forall e', (index e' < length (edges (g o)))%nat ->
      GA.strokeWidth (ga o') e' = GA.strokeWidth (ga o) e'
      /\ GA.strokeType (ga o') e' = GA.strokeType (ga o) e')
  /\ GA.label (ga o') = GA.label (ga o)
  /\ GA.fillColor (ga o') = GA.fillColor (ga o)
  /\ GA.attributes (ga o') = GA.attributes (ga o).
Proof.
  revert o. induction etm as [|entry etm IH]; intros o; cbv zeta.
  - simpl. rewrite app_nil_r. repeat split; done.
  - simpl fold_left.
    destruct (add_edge_frame o entry) as (He & Hn & Hw & Ht & Hother & Hl & Hf & Ha).
    destruct (IH (add_edge o entry)) as (He' & Hn' & Hnew & Hold & Hl' & Hf' & Ha').
    rewrite He in He', Hnew, Hold. rewrite length_app in He', Hnew, Hold. simpl in *.
    split; [| split; [| split; [| split; [| split; [| split]]]]].
    + rewrite He', <- app_assoc. simpl. rewrite Nat.add_0_r. do 2 f_equal.
      apply imap_ext. intros i x _. simpl. f_equal. lia.
    + congruence.
    + intros [|i] entry' Hi; simpl in Hi.
      * injection Hi as <-. rewrite Nat.add_0_r.
        destruct (Hold (edge_of (length (edges (g o))) entry)) as [-> ->];
          [simpl; lia | by split].
      * specialize (Hnew i entry' Hi).
        by replace (length (edges (g o)) + S i)%nat
          with (length (edges (g o)) + 1 + i)%nat by lia.
    + intros e' Hlt. destruct (Hold e') as [-> ->]; [lia|].
      apply Hother. intros ->. simpl in Hlt. lia.
    + congruence.
    + congruence.
    + congruence.
Qed.

Variable ga0 : GA.GraphAttributes D.

(** X4.  [output] makes one node per class, in the order of the classes,
    and [class_node_map] gives a name the node of the first class that
    bears it; a name no class bears is not a key. *)
Theorem class_node_map_first_wins analyze (classes : list srcuml_class) (name : string) :
  let b := build srcuml_class get_srcuml_name generate_label analyze
                 (svg_sugiyama_outputter.new ga0) classes in
  numberOfNodes (g b.1.1) = length classes
  /\ b.1.2 !! name
     = (fun ic => element ic.1) <$> list_find (fun c => get_srcuml_name c = name) classes.
Proof.
  intros b. unfold b.
  destruct (built_spec srcuml_class get_srcuml_name generate_label ga0 analyze classes)
    as (o1 & m & E & ->). simpl.
  destruct (fold_add_edge_frame (merge m (analyze classes)) o1) as (_ & -> & _).
  destruct (fold_add_class_graph srcuml_class get_srcuml_name generate_label classes
              (svg_sugiyama_outputter.new ga0, ∅)) as [Hn _].
  pose proof (fold_add_class_map classes (svg_sugiyama_outputter.new ga0, ∅) name) as Hm.
  rewrite E in Hn, Hm. simpl in Hn, Hm. split; [exact Hn|].
  rewrite Hm, lookup_empty. reflexivity.
Qed.

(** X5.  The node of a class carries the label [generate_label] returns
    for the class and is filled with Antiquewhite. *)
Theorem node_label_and_fill analyze (classes : list srcuml_class) (i : nat)
        (c : srcuml_class) :
  classes !! i = Some c ->
  let o := (build srcuml_class get_srcuml_name generate_label analyze
                 (svg_sugiyama_outputter.new ga0) classes).1.1 in
  GA.label (ga o) (element i) = (generate_label c).1.1
  /\ GA.fillColor (ga o) (element i) = "Antiquewhite".
Proof.
  intros Hi o. unfold o.
  destruct (built_spec srcuml_class get_srcuml_name generate_label ga0 analyze classes)
    as (o1 & m & E & ->). simpl.
  destruct (fold_add_edge_frame (merge m (analyze classes)) o1)
    as (_ & _ & _ & _ & -> & -> & _).
  pose proof (fold_add_class_strings classes (svg_sugiyama_outputter.new ga0, ∅) i c Hi) as Hs.
  rewrite E in Hs. exact Hs.
Qed.

(** The values of [class_node_map] are nodes of the graph. *)
Lemma class_node_map_values (classes : list srcuml_class) name v :
  (fold_left add_class classes (svg_sugiyama_outputter.new ga0, ∅)).2 !! name = Some v ->
  exists j, v = element j /\ (j < length classes)%nat.
Proof.
  rewrite fold_add_class_map. simpl. rewrite lookup_empty.
  destruct (list_find _ classes) as [[j c]|] eqn:E; [| discriminate].
  simpl. intros [= <-]. exists j. split; [reflexivity|].
  apply list_find_Some in E as (Hj & _). by apply lookup_lt_Some in Hj.
Qed.

(** X6.  The third loop of [output], for relationships whose names are
    all keys of [class_node_map] and for any order [walk] in which the
    multimap yields its entries: it makes one edge per entry, in that
    order, from the first node of the key to the second, both nodes of
    the graph; every edge has stroke width 2, and a dashed stroke when
    its kind is a dependency, a generalization or a realization, a solid
    one otherwise.  No node is added. *)
Theorem built_edge_strokes analyze (classes : list srcuml_class) (walk : edge_types) :
  let st := fold_left add_class classes (svg_sugiyama_outputter.new ga0, ∅) in
  let o := fold_left add_edge walk st.1 in
  (forall r, r ∈ analyze classes -> endpoints_found st.2 r) ->
  walk ≡ₚ merge st.2 (analyze classes) ->
  numberOfNodes (g o) = length classes
  /\ edges (g o) = imap edge_of walk
  /\ forall i entry, walk !! i = Some entry ->
       (exists j k, entry.1 = (element j, element k)
                    /\ (j < length classes)%nat /\ (k < length classes)%nat)
       /\ GA.strokeWidth (ga o) (edge_of i entry) = dofZ 2
       /\ GA.strokeType (ga o) (edge_of i entry)
          = (if dashed entry.2 then StrokeType.Dash else StrokeType.Solid).
Proof.
  intros st o Hfound Hwalk.
  destruct (fold_add_edge_frame walk st.1) as (He & Hn & Hnew & _).
  destruct (fold_add_class_graph srcuml_class get_srcuml_name generate_label classes
              (svg_sugiyama_outputter.new ga0, ∅)) as [Hnodes Hnil].
  fold st in Hnodes, Hnil. cbv zeta in He, Hn, Hnew. fold o in He, Hn, Hnew.
  rewrite Hnil in He, Hnew. simpl in He, Hnew, Hnodes.
  split; [by rewrite Hn, Hnodes|]. split; [exact He|].
  intros i entry Hi. destruct (Hnew i entry Hi) as [-> ->].
  split; [| split; [reflexivity | by destruct (entry.2)]].
  assert (entry ∈ merge st.2 (analyze classes)) as Hin.
  { rewrite <- Hwalk. by eapply list_elem_of_lookup_2. }
  destruct entry as [key kind].
  apply fold_add_relationship_entry in Hin.
  destruct Hin as [Hin | (r & Hr & <- & _)]; [by apply elem_of_nil in Hin|].
  destruct (Hfound r Hr) as [[vs Hs] [vd Hd]].
  destruct (class_node_map_values classes _ _ Hs) as (j & -> & Hj).
  destruct (class_node_map_values classes _ _ Hd) as (k & -> & Hk).
  exists j, k. unfold key_of, lookup_node. fold st. by rewrite Hs, Hd.
Qed.

(** The flags of the attributes are those the constructor sets. *)
Lemma built_attributes analyze (classes : list srcuml_class) :
  GA.attributes (ga (build srcuml_class get_srcuml_name generate_label analyze
                 (svg_sugiyama_outputter.new ga0) classes).1.1)
  = [nodeGraphics; edgeGraphics; nodeLabel; edgeLabel; nodeStyle; edgeStyle; nodeTemplate].
Proof.
  destruct (built_spec srcuml_class get_srcuml_name generate_label ga0 analyze classes)
    as (o1 & m & E & ->). simpl.
  destruct (fold_add_edge_frame (merge m (analyze classes)) o1)
    as (_ & _ & _ & _ & _ & _ & ->).
  pose proof (fold_add_class_attributes classes (svg_sugiyama_outputter.new ga0, ∅)) as Ha.
  rewrite E in Ha. exact Ha.
Qed.

End Built.

(** An association from B to A and a realization from A to B, the
    entries walked in the order opposite to that of their insertion *)
Lemma built_edge_strokes_witness :
  let o := fold_left add_edge
             [((element 0, element 1), REALIZATION); ((element 1, element 0), ASSOCIATION)]
             (fold_left (add_class string name_of label_by_name) ["A"; "B"]
                        (svg_sugiyama_outputter.new blank, ∅)).1 in
  edges (g o) = [ {| index := 0; source := element 0; target := element 1 |};
                  {| index := 1; source := element 1; target := element 0 |} ]
  /\ GA.strokeType (ga o) {| index := 0; source := element 0; target := element 1 |}
     = StrokeType.Dash
  /\ GA.strokeType (ga o) {| index := 1; source := element 1; target := element 0 |}
     = StrokeType.Solid.
Proof.
  destruct (built_edge_strokes string name_of label_by_name blank
              (fun _ => [rel "B" "A" ASSOCIATION; rel "A" "B" REALIZATION]) ["A"; "B"]
              [((element 0, element 1), REALIZATION); ((element 1, element 0), ASSOCIATION)])
    as (_ & Hedges & Hstroke).
  - intros r Hr. rewrite !elem_of_cons in Hr.
    destruct Hr as [->|[->|Hr]]; [| | by apply elem_of_nil in Hr].
    all: split; eexists; vm_compute; reflexivity.
  - apply perm_swap.
  - split; [exact Hedges|]. split.
    + exact (proj2 (proj2 (Hstroke 0%nat _ eq_refl))).
    + exact (proj2 (proj2 (Hstroke 1%nat _ eq_refl))).
Defined.

(** Two classes, A and B: the second node bears the label of B *)
Lemma node_label_and_fill_witness :
  let o := (build string name_of label_by_name (fun _ => []) (svg_sugiyama_outputter.new blank)
                  ["A"; "B"]).1.1 in
  GA.label (ga o) (element 1) = "B<svg_new_line>"
  /\ GA.fillColor (ga o) (element 1) = "Antiquewhite".
Proof.
  exact (node_label_and_fill string name_of label_by_name blank (fun _ => []) ["A"; "B"]
           1 "B" eq_refl).
Defined.

End outputter_more_facts.

(** ** The stereotypes and the yUML line *)

Module srcyuml_print_facts.
Import ClassPolicy srcyuml srcyuml_print srcyuml_notions srcyuml_print_notions srcyuml_facts.

Lemma has_member_true {A} (members : AccessSpecifier -> list A) :
  size_nonzero (members PUBLIC) || size_nonzero (members PRIVATE)
  || size_nonzero (members PROTECTED) = true <-> any_member members.
Proof.
  pose proof (has_member_false members) as Hf.
  destruct (_ || _ || _).
  - split; [intros _ | reflexivity].
    destruct (members PUBLIC) eqn:E1; [| exists PUBLIC; congruence].
    destruct (members PRIVATE) eqn:E2; [| exists PRIVATE; congruence].
    destruct (members PROTECTED) eqn:E3; [| exists PROTECTED; congruence].
    exfalso. assert (true = false); [| discriminate].
    apply Hf. intros [[] Ha]; congruence.
  - split; [discriminate|]. intros Ha. exfalso. by apply (proj1 Hf).
Qed.

(** X8.  A newly made class that is analyzed is a datatype exactly when
    it has no constructor and no method, an interface exactly when it has
    the shape of one, and bears no stereotype otherwise: it is never
    tagged as abstract. *)
Theorem stereotypes_exhaustive (d : ClassData) :
  (classify d = DATATYPE
   <-> ~ any_member (constructors d) /\ ~ any_member (methods d))
  /\ (classify d = INTERFACE <-> interface_shape d)
  /\ (classify d = NONE
      <-> (any_member (constructors d) \/ any_member (methods d)) /\ ~ interface_shape d)
  /\ classify d <> ABSTRACT.
Proof.
  pose proof (classify_interface_iff d) as Hi.
  pose proof (has_member_true (constructors d)) as Hc.
  pose proof (has_member_true (methods d)) as Hm.
  pose proof (has_member_false (constructors d)) as Hc'.
  pose proof (has_member_false (methods d)) as Hm'.
  assert (interface_shape d -> any_member (methods d)) as Hshape.
  { intros (_ & _ & _ & Hpub & _). by exists PUBLIC. }
  set (shape := interface_shape d) in *. clearbody shape.
  revert Hi. unfold classify, analyze_data. simpl.
  destruct (size_nonzero (constructors d PUBLIC) || size_nonzero (constructors d PRIVATE)
            || size_nonzero (constructors d PROTECTED)) eqn:Ec;
    destruct (size_nonzero (methods d PUBLIC) || size_nonzero (methods d PRIVATE)
              || size_nonzero (methods d PROTECTED)) eqn:Em; simpl.
  all: repeat match goal with
       | |- context [if ?b then _ else _] => destruct b
       end.
  all: intros Hi.
  all: repeat split; try discriminate; try tauto.
  all: intuition discriminate.
Qed.

(** X9.  Analyzing a class a second time changes nothing. *)
Theorem analyze_data_idempotent (c : srcyuml_class) :
  analyze_data (analyze_data c) = analyze_data c.
Proof.
  unfold analyze_data. simpl.
  destruct (negb _ && negb _); [reflexivity|].
  destruct (negb _ && negb _ && negb _ && _); [| reflexivity].
  destruct (is_interface_loop _); reflexivity.
Qed.

Lemma append_cons a (s1 s2 : string) : (String a s1 ++ s2)%string = String a (s1 ++ s2).
Proof. reflexivity. Qed.

Lemma append_assoc (s1 s2 s3 : string) : ((s1 ++ s2) ++ s3 = s1 ++ (s2 ++ s3))%string.
Proof.
  induction s1 as [|a s1 IH]; [reflexivity|]. by rewrite !append_cons, IH.
Qed.

Lemma append_nil_r (s : string) : (s ++ "")%string = s.
Proof. induction s as [|a s IH]; [reflexivity|]. by rewrite append_cons, IH. Qed.

Lemma print_members_text {A} (print : A -> string) (prefix out : string) (members : list A) :
  print_members out prefix print members
  = (out ++ fold_right String.append ""
              (map (fun m => prefix ++ print m ++ ";") members))%string.
Proof.
  unfold print_members. revert out.
  induction members as [|m members IH]; intros out; simpl.
  - by rewrite append_nil_r.
  - rewrite IH. by rewrite !append_assoc.
Qed.

Lemma fold_right_append_app (l1 l2 : list string) :
  fold_right String.append "" (l1 ++ l2)
  = (fold_right String.append "" l1 ++ fold_right String.append "" l2)%string.
Proof.
  induction l1 as [|s l1 IH]; simpl; [reflexivity|]. by rewrite IH, append_assoc.
Qed.

Section Print.
Variable print_decl : DeclTypeData -> string.
Variable print_function : FunctionSignatureData -> string.

Abbreviation operator_shl := (operator_shl print_decl print_function).

(** The line of any class, with the bars as its flags have them *)
Lemma operator_shl_text out (c : srcyuml_class) :
  operator_shl out c
  = (out ++ "[" ++ stereotype (type c) ++ name (data c)
     ++ (if has_field c || has_method c then "|" else "")
     ++ member_text print_decl (fields (data c))
     ++ (if has_method c then "|" else "")
     ++ member_text print_function (methods (data c))
     ++ "]" ++ newline)%string.
Proof.
  unfold srcyuml_print.operator_shl, member_text. cbv zeta.
  rewrite !print_members_text, !fold_right_append_app.
  destruct (type c), (has_field c || has_method c), (has_method c); simpl stereotype.
  all: rewrite ?append_assoc; simpl; rewrite ?append_assoc; reflexivity.
Qed.

(** X10.  The yUML line of an analyzed class: the name after the marker of
    its stereotype, between square brackets; nothing more when the class
    has neither field nor method; a bar and the fields when it has fields
    and no method; a bar, the fields, a second bar and the methods when
    it has a method.  Constructors are not written. *)
Theorem yuml_line (out : string) (d : ClassData) :
  let line := operator_shl out (analyze_data (new d)) in
  let opening := (out ++ "[" ++ stereotype (classify d) ++ name d)%string in
  (~ any_member (fields d) -> ~ any_member (methods d) ->
   line = (opening ++ "]" ++ newline)%string)
  /\ (any_member (fields d) -> ~ any_member (methods d) ->
      line = (opening ++ "|" ++ member_text print_decl (fields d) ++ "]" ++ newline)%string)
  /\ (any_member (methods d) ->
      line = (opening ++ "|" ++ member_text print_decl (fields d)
              ++ "|" ++ member_text print_function (methods d) ++ "]" ++ newline)%string).
Proof.
  intros line opening. unfold line, opening. rewrite operator_shl_text.
  change (type (analyze_data (new d))) with (classify d).
  change (data (analyze_data (new d))) with d.
  change (has_field (analyze_data (new d)))
    with (size_nonzero (fields d PUBLIC) || size_nonzero (fields d PRIVATE)
          || size_nonzero (fields d PROTECTED)).
  change (has_method (analyze_data (new d)))
    with (size_nonzero (methods d PUBLIC) || size_nonzero (methods d PRIVATE)
          || size_nonzero (methods d PROTECTED)).
  assert (forall A (members : AccessSpecifier -> list A) print,
             ~ any_member members -> member_text print members = "") as Hnone.
  { intros A members print Hn. unfold member_text.
    destruct (members PUBLIC) eqn:E1; [| exfalso; apply Hn; exists PUBLIC; congruence].
    destruct (members PRIVATE) eqn:E2; [| exfalso; apply Hn; exists PRIVATE; congruence].
    destruct (members PROTECTED) eqn:E3; [| exfalso; apply Hn; exists PROTECTED; congruence].
    reflexivity. }
  split; [| split].
  - intros Hf Hm. rewrite (Hnone _ _ _ Hf), (Hnone _ _ _ Hm).
    apply has_member_false in Hf, Hm. rewrite Hf, Hm. simpl.
    by rewrite !append_assoc.
  - intros Hf Hm. rewrite (Hnone _ _ _ Hm).
    apply has_member_true in Hf. apply has_member_false in Hm. rewrite Hf, Hm. simpl.
    by rewrite !append_assoc.
  - intros Hm. apply has_member_true in Hm. rewrite Hm, orb_true_r.
    by rewrite !append_assoc.
Qed.

End Print.

(** [point_class], a datatype with three fields; [shape_class], an
    interface with two methods *)
Lemma yuml_line_witness :
  let nl := newline in
  operator_shl by_name by_function_name "" (analyze_data (new point_class))
  = ("[«datatype»;Point|+ x;+ y;- cache;]" ++ nl)%string
  /\ operator_shl by_name by_function_name "" (analyze_data (new shape_class))
     = ("[«interface»;Shape||+ area();+ draw();]" ++ nl)%string.
Proof.
  split.
  - apply (proj1 (proj2 (yuml_line by_name by_function_name "" point_class))).
    + exists PUBLIC. discriminate.
    + intros [[] Ha]; by apply Ha.
  - apply (proj2 (proj2 (yuml_line by_name by_function_name "" shape_class))).
    exists PUBLIC. discriminate.
Defined.

End srcyuml_print_facts.

(** ** Paths and groups of the edges *)

Module SvgPrinter_path_facts.
Import ogdf pugi SvgPrinter SvgPrinter_notions SvgPrinter_facts SvgPrinter_path_notions.
Import srcuml svg_sugiyama_outputter outputter_notions outputter_more_notions.

Section Generic.
Context {D : Type} `{DoubleOps D}.
Variable m_attr : GA.GraphAttributes D.
Variable m_settings : GraphIO.SVGSettings D.

(** *** Straight strokes *)

Lemma drawLines_polyline (ss : list (path_cmd D)) points :
  drawLines ss points = ss ++ polyline points.
Proof.
  revert ss. induction points as [|p rest IH]; intros ss.
  - by rewrite app_nil_r.
  - destruct rest as [|front rest'].
    + by rewrite app_nil_r.
    + change (drawLines ss (p :: front :: rest'))
        with (drawLines (drawLine ss p front) (front :: rest')).
      rewrite IH. unfold drawLine, polyline. simpl. by rewrite <- app_assoc.
Qed.

(** X11.  With curviness 0, as in the default settings, the path of a
    drawn edge is made of straight strokes only: one from every point to
    the next, in order. *)
Theorem straight_strokes (points : list (DPoint D)) :
  deq (GraphIO.curviness m_settings) (dofZ 0) = true ->
  drawCurve_ss m_settings points = polyline points.
Proof.
  intros Hc. unfold drawCurve_ss. rewrite Hc.
  destruct (Nat.eqb_spec (length points) 2) as [Hlen|_].
  - destruct points as [|p1 [|p2 [|p3 rest]]]; try discriminate. reflexivity.
  - apply (drawLines_polyline []).
Qed.

(** *** The loops of [drawBezierPath] and [drawRoundPath] *)

Lemma drawBezierPath_loop_step c p1 p2 p3 rest cLast (ss : list (path_cmd D)) :
  drawBezierPath_loop c (p1 :: p2 :: p3 :: rest) cLast ss
  = drawBezierPath_loop c (p2 :: p3 :: rest) (control_after c p1 p2 p3)
      (drawBezier ss p1 p2 cLast (control_before c p1 p2 p3)).
Proof. reflexivity. Qed.

Lemma drawBezierPath_loop_ss c points cLast (ss : list (path_cmd D)) :
  drawBezierPath_loop c points cLast ss
  = ((drawBezierPath_loop c points cLast []).1.1,
     (drawBezierPath_loop c points cLast []).1.2,
     ss ++ (drawBezierPath_loop c points cLast []).2).
Proof.
  revert cLast ss. induction points as [|p1 rest IH]; intros cLast ss.
  - simpl. by rewrite app_nil_r.
  - destruct rest as [|p2 [|p3 rest']]; try (simpl; by rewrite app_nil_r).
    rewrite !drawBezierPath_loop_step. rewrite IH. rewrite (IH _ (drawBezier [] _ _ _ _)).
    cbn [fst snd]. unfold drawBezier. by rewrite <- app_assoc.
Qed.

Lemma bezier_finish_ss c points cLast (ss : list (path_cmd D)) :
  bezier_finish (drawBezierPath_loop c points cLast ss)
  = ss ++ bezier_finish (drawBezierPath_loop c points cLast []).
Proof.
  rewrite drawBezierPath_loop_ss.
  destruct (drawBezierPath_loop c points cLast []) as [[left cl] out]. cbn [fst snd].
  destruct left as [|p1 [|p2 left']]; simpl; rewrite ?app_nil_r; try reflexivity.
  unfold drawBezier. by rewrite <- app_assoc.
Qed.

Lemma bezier_step c q rest r1 r2 tl cLast :
  rest = r1 :: r2 :: tl ->
  bezier_finish (drawBezierPath_loop c (q :: rest) cLast [])
  = [M (m_x q) (m_y q);
     C (m_x cLast) (m_y cLast) (m_x (control_before c q r1 r2)) (m_y (control_before c q r1 r2))
       (m_x r1) (m_y r1)]
    ++ bezier_finish (drawBezierPath_loop c rest (control_after c q r1 r2) []).
Proof.
  intros ->. rewrite drawBezierPath_loop_step. by rewrite bezier_finish_ss.
Qed.

Lemma bezier_head c q1 q2 rest cLast :
  exists b ss2,
    bezier_finish (drawBezierPath_loop c (q1 :: q2 :: rest) cLast [])
    = [M (m_x q1) (m_y q1);
       C (m_x cLast) (m_y cLast) (m_x b) (m_y b) (m_x q2) (m_y q2)] ++ ss2.
Proof.
  destruct rest as [|q3 rest'].
  - eexists _, []. reflexivity.
  - eexists _, _. by apply (bezier_step c q1 _ q2 q3 rest').
Qed.

Lemma app_two_more {X} (pre : list X) p1 p2 p3 post :
  exists r1 r2 tl, pre ++ p1 :: p2 :: p3 :: post = r1 :: r2 :: tl.
Proof. destruct pre as [|r1 [|r2 pre']]; simpl; eauto. Qed.

(** The strokes at three consecutive points of a bezier path *)
Lemma bezier_at c pre p1 p2 p3 post cLast :
  exists ss1 ss2 a b,
    bezier_finish (drawBezierPath_loop c (pre ++ p1 :: p2 :: p3 :: post) cLast [])
    = ss1
      ++ [M (m_x p1) (m_y p1);
          C (m_x a) (m_y a)
            (m_x (control_before c p1 p2 p3)) (m_y (control_before c p1 p2 p3))
            (m_x p2) (m_y p2);
          M (m_x p2) (m_y p2);
          C (m_x (control_after c p1 p2 p3)) (m_y (control_after c p1 p2 p3))
            (m_x b) (m_y b) (m_x p3) (m_y p3)]
      ++ ss2
    /\ length ss1 = (2 * length pre)%nat.
Proof.
  revert cLast. induction pre as [|q pre IH]; intros cLast.
  - simpl app. rewrite (bezier_step c p1 _ p2 p3 post cLast eq_refl).
    destruct (bezier_head c p2 p3 post (control_after c p1 p2 p3)) as (b & ss2 & ->).
    exists [], ss2, cLast, b. split; reflexivity.
  - destruct (app_two_more pre p1 p2 p3 post) as (r1 & r2 & tl & E).
    change ((q :: pre) ++ p1 :: p2 :: p3 :: post) with (q :: (pre ++ p1 :: p2 :: p3 :: post)).
    rewrite (bezier_step c q _ r1 r2 tl cLast E).
    destruct (IH (control_after c q r1 r2)) as (ss1 & ss2 & a & b & -> & Hlen).
    eexists (_ :: _ :: ss1), ss2, a, b. split; [reflexivity|]. simpl. lia.
Qed.

Lemma drawBezierPath_finish front second tl :
  drawBezierPath m_settings [] (front :: second :: tl)
  = bezier_finish (drawBezierPath_loop (GraphIO.curviness m_settings) (front :: second :: tl)
                     (pscale (dlit 1 2) (padd front second)) []).
Proof. reflexivity. Qed.

Lemma drawRoundPath_loop_step c p1 p2 p3 rest (ss : list (path_cmd D)) :
  drawRoundPath_loop c (p1 :: p2 :: p3 :: rest) ss
  = drawRoundPath_loop c (p2 :: p3 :: rest) (ss ++ round_corner c p1 p2 p3).
Proof.
  transitivity
    (drawRoundPath_loop c (p2 :: p3 :: rest)
       (((ss ++ take 2 (round_corner c p1 p2 p3))
         ++ take 2 (drop 2 (round_corner c p1 p2 p3)))
        ++ drop 4 (round_corner c p1 p2 p3))); [reflexivity|].
  f_equal. by rewrite <- !app_assoc.
Qed.

Lemma drawRoundPath_loop_ss c points (ss : list (path_cmd D)) :
  drawRoundPath_loop c points ss
  = ((drawRoundPath_loop c points []).1, ss ++ (drawRoundPath_loop c points []).2).
Proof.
  revert ss. induction points as [|p1 rest IH]; intros ss.
  - simpl. by rewrite app_nil_r.
  - destruct rest as [|p2 [|p3 rest']]; try (simpl; by rewrite app_nil_r).
    rewrite !drawRoundPath_loop_step. rewrite IH. rewrite (IH ([] ++ _)).
    cbn [fst snd]. by rewrite <- !app_assoc.
Qed.

Lemma round_finish_ss c points (ss : list (path_cmd D)) :
  round_finish c (drawRoundPath_loop c points ss)
  = ss ++ round_finish c (drawRoundPath_loop c points []).
Proof.
  rewrite drawRoundPath_loop_ss.
  destruct (drawRoundPath_loop c points []) as [left out]. cbn [fst snd].
  destruct left as [|p1 [|p2 left']]; simpl; rewrite ?app_nil_r; try reflexivity.
  unfold drawLine. by rewrite <- app_assoc.
Qed.

Lemma round_step c q rest r1 r2 tl :
  rest = r1 :: r2 :: tl ->
  round_finish c (drawRoundPath_loop c (q :: rest) [])
  = round_corner c q r1 r2 ++ round_finish c (drawRoundPath_loop c rest []).
Proof.
  intros ->. rewrite drawRoundPath_loop_step. by rewrite round_finish_ss.
Qed.

(** The strokes at three consecutive points of a round path *)
Lemma round_at c pre p1 p2 p3 post :
  exists ss1 ss2,
    round_finish c (drawRoundPath_loop c (pre ++ p1 :: p2 :: p3 :: post) [])
    = ss1 ++ round_corner c p1 p2 p3 ++ ss2
    /\ length ss1 = (6 * length pre)%nat.
Proof.
  induction pre as [|q pre IH].
  - simpl app. rewrite (round_step c p1 _ p2 p3 post eq_refl).
    by exists [], (round_finish c (drawRoundPath_loop c (p2 :: p3 :: post) [])).
  - destruct (app_two_more pre p1 p2 p3 post) as (r1 & r2 & tl & E).
    change ((q :: pre) ++ p1 :: p2 :: p3 :: post) with (q :: (pre ++ p1 :: p2 :: p3 :: post)).
    rewrite (round_step c q _ r1 r2 tl E).
    destruct IH as (ss1 & ss2 & -> & Hlen).
    exists (round_corner c q r1 r2 ++ ss1), ss2. split.
    + by rewrite <- app_assoc.
    + rewrite length_app. simpl. lia.
Qed.

Lemma drawRoundPath_finish p1 p2 tl :
  let c := GraphIO.curviness m_settings in
  drawRoundPath m_settings [] (p1 :: p2 :: tl)
  = drawLine [] p1
      (pscale (dlit 1 2) (padd (padd p1 p2) (pscale (dofZ 1 - c) (psub p2 p1))))%dbl
    ++ round_finish c (drawRoundPath_loop c (p1 :: p2 :: tl) []).
Proof.
  intros c. unfold drawRoundPath. fold c. cbv zeta.
  rewrite <- round_finish_ss. reflexivity.
Qed.

(** *** The groups of the edges *)

Lemma count_tag_app t (l1 l2 : list (xml_node D)) :
  count_tag t (l1 ++ l2) = (count_tag t l1 + count_tag t l2)%nat.
Proof. unfold count_tag. by rewrite filter_app, length_app. Qed.

Lemma count_tag_other t t' (l : list (xml_node D)) :
  t <> t' -> Forall (fun n => tag_of n = t') l -> count_tag t l = 0%nat.
Proof.
  intros Hne Hall. unfold count_tag.
  induction Hall as [|n l Hn Hall IH]; [reflexivity|].
  rewrite filter_cons_False by congruence. exact IH.
Qed.

Lemma drawCurve_tag e points : tag_of (drawCurve m_attr m_settings e points) = "path".
Proof. unfold drawCurve. by rewrite tag_of_append_attributes. Qed.

(** The children of the group of an edge: the label when there is one,
    the arrow heads, and the path unless the edge is undrawn *)
Lemma drawEdge_children (e : edge) :
  exists labels,
    Forall (fun n => tag_of n = "text") labels
    /\ drawEdge m_attr m_settings e
       = (Element "g" []
            (labels ++ heads (drawEdge_trim m_attr m_settings e)
             ++ (if undrawn m_attr m_settings e then []
                 else [drawCurve m_attr m_settings e
                         (points (drawEdge_trim m_attr m_settings e))])),
          if undrawn m_attr m_settings e then [GraphIO.could_not_draw_edge e] else []).
Proof.
  destruct (drawEdge_trim_tags m_attr m_settings e) as [Hl _].
  exists (if GA.has m_attr edgeLabel && negb (String.eqb (GA.edgeLabel m_attr e) "")
          then [label (drawEdge_trim m_attr m_settings e)] else []).
  split.
  - destruct (_ && _); by repeat constructor.
  - unfold drawEdge, undrawn. destruct (_ <? 2)%nat; [by rewrite app_nil_r | reflexivity].
Qed.

(** X12.  Every edge of the graph has its group, in order, inside the one
    group [drawEdges] appends; an edge is drawn or reported, never both:
    the group of an edge of which fewer than two points are left holds
    no path and the edge is named once to the logger, the group of any
    other edge holds one path and the logger is not told of it. *)
Theorem every_edge_drawn_or_reported (es : list edge) :
  GA.has m_attr edgeGraphics = true ->
  exists groups,
    (drawEdges m_attr m_settings es).1 = [Element "g" [] groups]
    /\ length groups = length es
    /\ (forall i e, es !! i = Some e ->
        exists children, groups !! i = Some (Element "g" [] children)
          /\ count_tag "path" children = (if undrawn m_attr m_settings e then 0 else 1)%nat)
    /\ (drawEdges m_attr m_settings es).2
       = map GraphIO.could_not_draw_edge
             (filter (fun e => undrawn m_attr m_settings e = true) es).
Proof.
  intros Hg. unfold drawEdges. rewrite Hg. cbn [fst snd].
  exists (map fst (map (drawEdge m_attr m_settings) es)).
  split; [reflexivity|]. split; [by rewrite !length_map|]. split.
  - intros i e Hi.
    destruct (drawEdge_children e) as (labels & Hlab & He).
    destruct (drawEdge_trim_tags m_attr m_settings e) as [_ Hh].
    eexists. split.
    + rewrite !list_lookup_fmap, Hi. simpl. rewrite He. reflexivity.
    + rewrite !count_tag_app.
      rewrite (count_tag_other "path" "text") by (done || discriminate).
      rewrite (count_tag_other "path" "polygon") by (done || discriminate).
      destruct (undrawn m_attr m_settings e); [reflexivity|].
      unfold count_tag. rewrite filter_cons_True by apply drawCurve_tag. reflexivity.
  - induction es as [|e es IH]; [reflexivity|]. simpl.
    destruct (drawEdge_children e) as (labels & _ & He). rewrite He. cbn [snd].
    rewrite IH. destruct (undrawn m_attr m_settings e) eqn:Eu.
    + rewrite filter_cons_True by done. reflexivity.
    + rewrite filter_cons_False by (rewrite Eu; discriminate). reflexivity.
Qed.

(** *** Arrow heads *)

Lemma drawEdge_loop_plain_heads e path st :
  heads (drawEdge_loop m_attr e false false path st) = heads st.
Proof.
  revert st. induction path as [|p1 rest IH]; intros st; simpl; [done|].
  destruct rest as [|p2 rest']; [done|]. destruct (finished st); [done|].
  rewrite IH. by destruct (drawEdge_segment_plain m_attr e st p1 p2) as (_ & _ & -> & _).
Qed.

(** X13.  When the attributes lack the arrow flag, as those [output]
    initialises do, no arrow head is drawn, whatever the arrow type of
    the edge and whether or not the graph is directed: the group of an
    edge holds no polygon. *)
Theorem no_arrow_flag_no_head (e : edge) :
  GA.has m_attr edgeArrow = false ->
  heads (drawEdge_trim m_attr m_settings e) = []
  /\ count_tag "polygon" (children_of (drawEdge m_attr m_settings e).1) = 0%nat.
Proof.
  intros Ha.
  assert (heads (drawEdge_trim m_attr m_settings e) = []) as Hh.
  { unfold drawEdge_trim, arrow_flags. rewrite Ha. by rewrite drawEdge_loop_plain_heads. }
  split; [exact Hh|].
  destruct (drawEdge_children e) as (labels & Hlab & ->). simpl. rewrite Hh.
  rewrite !count_tag_app.
  rewrite (count_tag_other "polygon" "text") by (done || discriminate).
  destruct (undrawn m_attr m_settings e); [reflexivity|].
  unfold count_tag. rewrite filter_cons_False; [reflexivity|].
  rewrite drawCurve_tag. discriminate.
Qed.

(** *** The stroke of a relationship *)

(** X14.  The style [appendLineStyle] writes for an edge whose stroke is
    as [output] sets it for a relationship of the kind [kind], under the
    flags [output] initialises: the colour of the edge, the width 2px and,
    for a dependency, a generalization or a realization only, the dash
    array 8, 4.  The seven kinds are drawn in these two ways. *)
Theorem relationship_stroke (e : edge) (kind : relationship_type) :
  GA.has m_attr edgeStyle = true ->
  GA.strokeWidth m_attr e = dofZ 2 ->
  GA.strokeType m_attr e = stroke_of kind ->
  appendLineStyle m_attr e
  = [("stroke", Str (GA.strokeColor m_attr e)); ("stroke-width", Px (dofZ 2))]
    ++ (if dashed kind
        then [("stroke-dasharray", Numbers [dofZ 4 * dofZ 2; dofZ 2 * dofZ 2]%dbl)]
        else []).
Proof.
  intros Hs Hw Ht. unfold appendLineStyle. rewrite Hs, Hw, Ht.
  by destruct kind.
Qed.

End Generic.

(** The default settings and a path with one bend *)
Lemma straight_strokes_witness :
  drawCurve_ss settings0 bent = [M 0 0; L 50 40; M 50 40; L 100 0]%float.
Proof. exact (straight_strokes settings0 bent eq_refl). Defined.

(** The two edges between the boxes 100 apart are drawn. *)
Lemma every_edge_drawn_or_reported_witness :
  exists groups,
    (drawEdges apart settings0 [e01; e10]).1 = [Element "g" [] groups]
    /\ length groups = 2%nat
    /\ (drawEdges apart settings0 [e01; e10]).2 = [].
Proof.
  destruct (every_edge_drawn_or_reported apart settings0 [e01; e10] eq_refl)
    as (groups & Hg & Hlen & _ & Hlog).
  exists groups. split; [exact Hg|]. split; [exact Hlen|]. rewrite Hlog. reflexivity.
Defined.

(** A realization from A to B, in the attributes [output] builds *)
Lemma relationship_stroke_witness :
  let o := (run [rel "A" "B" REALIZATION] ["A"; "B"]).1.1 in
  appendLineStyle (ga o) (edge_of 0 ((element 0, element 1), REALIZATION))
  = [("stroke", Str "#000000"); ("stroke-width", Px 2%float);
     ("stroke-dasharray", Numbers [8; 4]%float)].
Proof.
  exact (relationship_stroke (ga (run [rel "A" "B" REALIZATION] ["A"; "B"]).1.1)
           (edge_of 0 ((element 0, element 1), REALIZATION)) REALIZATION
           eq_refl eq_refl eq_refl).
Defined.

(** The edge between the two boxes of [apart], whose arrow type is
    [Last] and whose graph is directed *)
Lemma no_arrow_flag_no_head_witness :
  heads (drawEdge_trim apart settings0 e01) = []
  /\ count_tag "polygon" (children_of (drawEdge apart settings0 e01).1) = 0%nat.
Proof. exact (no_arrow_flag_no_head apart settings0 e01 eq_refl). Defined.

End SvgPrinter_path_facts.

(** ** Curves and trimmed edges, over the real numbers *)

Module curve_facts.
Import ogdf pugi SvgPrinter SvgPrinter_notions SvgPrinter_facts SvgPrinter_path_notions.
Import SvgPrinter_path_facts arrow_head_notions arrow_head_facts.
Local Open Scope R_scope.

Lemma dmin_real (a b : R) : dmin a b = Rmin a b.
Proof.
  unfold dmin, Rmin. cbn. destruct (Rle_dec a b) as [Hle|Hn].
  - destruct (bool_decide_reflect (b < a)); [lra | reflexivity].
  - destruct (bool_decide_reflect (b < a)); [reflexivity | lra].
Qed.

Lemma control_before_real (c : R) (p1 p2 p3 : DPoint R) :
  control_before c p1 p2 p3
  = P (m_x p2 - c / 2 * (m_x p3 - m_x p1)) (m_y p2 - c / 2 * (m_y p3 - m_y p1)).
Proof.
  unfold control_before, padd, psub, pscale, dlit, P. cbn. f_equal; field.
Qed.

Lemma control_after_real (c : R) (p1 p2 p3 : DPoint R) :
  control_after c p1 p2 p3
  = P (m_x p2 + c / 2 * (m_x p3 - m_x p1)) (m_y p2 + c / 2 * (m_y p3 - m_y p1)).
Proof.
  unfold control_after, padd, psub, pscale, dlit, P. cbn. f_equal; field.
Qed.

(** X15.  A bezier path goes from every point to the next; at a point
    between two others the control point before it and the control point
    after it lie opposite each other about the point, half the curviness
    times the chord from the previous to the next point away: the curve
    has no corner there. *)
Theorem bezier_path_smooth (settings : GraphIO.SVGSettings R)
        (pre : list (DPoint R)) (p1 p2 p3 : DPoint R) (post : list (DPoint R)) :
  let c := GraphIO.curviness settings in
  let tx := c / 2 * (m_x p3 - m_x p1) in
  let ty := c / 2 * (m_y p3 - m_y p1) in
  exists ss1 ss2 a b,
    drawBezierPath settings [] (pre ++ p1 :: p2 :: p3 :: post)
    = ss1
      ++ [M (m_x p1) (m_y p1);
          C (m_x a) (m_y a) (m_x p2 - tx) (m_y p2 - ty) (m_x p2) (m_y p2);
          M (m_x p2) (m_y p2);
          C (m_x p2 + tx) (m_y p2 + ty) (m_x b) (m_y b) (m_x p3) (m_y p3)]
      ++ ss2
    /\ length ss1 = (2 * length pre)%nat.
Proof.
  intros c tx ty.
  destruct (app_two_more pre p1 p2 p3 post) as (front & second & tl & E).
  rewrite E, drawBezierPath_finish, <- E. fold c.
  destruct (bezier_at c pre p1 p2 p3 post (pscale (dlit 1 2) (padd front second)))
    as (ss1 & ss2 & a & b & -> & Hlen).
  exists ss1, ss2, a, b. split; [| exact Hlen].
  by rewrite control_before_real, control_after_real.
Qed.

Lemma half_sum_midpoint (p q : DPoint R) : pscale (dlit 1 2) (padd p q) = midpoint p q.
Proof. unfold midpoint, pscale, padd, dlit, P. cbn. f_equal; field. Qed.

Lemma norm_real (v : DPoint R) :
  norm v = R_sqrt.sqrt (m_x v * m_x v + m_y v * m_y v).
Proof. reflexivity. Qed.

Lemma norm_pos (p q : DPoint R) : p <> q -> 0 < norm (psub p q).
Proof.
  intros Hne. rewrite norm_real. apply sqrt_lt_R0.
  destruct p as [px py], q as [qx qy]. cbn.
  pose proof (Rle_0_sqr (px - qx)) as Hx2. pose proof (Rle_0_sqr (py - qy)) as Hy2.
  destruct (Req_dec_T px qx) as [->|Hx].
  - destruct (Req_dec_T py qy) as [->|Hy]; [by destruct Hne|].
    assert (0 < Rsqr (py - qy)) by (apply Rsqr_pos_lt; lra). unfold Rsqr in *. lra.
  - assert (0 < Rsqr (px - qx)) by (apply Rsqr_pos_lt; lra). unfold Rsqr in *. lra.
Qed.

Lemma norm_sq (v : DPoint R) : norm v * norm v = m_x v * m_x v + m_y v * m_y v.
Proof. rewrite norm_real. apply sqrt_sqrt. nra. Qed.

(** X16.  A round path, at a point [p2] between two others that differ
    from it: a stroke from the middle of each of the two segments towards
    [p2], and an arc between the ends of the two strokes.  The two ends
    lie on the segments, both at the distance of the radius of the arc
    from [p2]: half the curviness times the length of the shorter of the
    two segments.  The arc sweeps in the positive direction exactly when
    the three points turn that way. *)
Theorem round_path_corner (settings : GraphIO.SVGSettings R)
        (pre : list (DPoint R)) (p1 p2 p3 : DPoint R) (post : list (DPoint R)) :
  0 <= GraphIO.curviness settings -> p1 <> p2 -> p3 <> p2 ->
  let c := GraphIO.curviness settings in
  let r := Rmin (R_sqrt.sqrt (sqdist p1 p2)) (R_sqrt.sqrt (sqdist p3 p2)) * c / 2 in
  exists ss1 ss2 (pA pB : DPoint R) (sweep : bool) (tA tB : R),
    drawRoundPath settings [] (pre ++ p1 :: p2 :: p3 :: post)
    = ss1
      ++ [M (m_x (midpoint p1 p2)) (m_y (midpoint p1 p2)); L (m_x pA) (m_y pA);
          M (m_x (midpoint p3 p2)) (m_y (midpoint p3 p2)); L (m_x pB) (m_y pB);
          M (m_x pA) (m_y pA); A r r sweep (m_x pB) (m_y pB)]
      ++ ss2
    /\ length ss1 = (2 + 6 * length pre)%nat
    /\ 0 <= tA <= c / 2 /\ 0 <= tB <= c / 2
    /\ pA = P (m_x p2 + tA * (m_x p1 - m_x p2)) (m_y p2 + tA * (m_y p1 - m_y p2))
    /\ pB = P (m_x p2 + tB * (m_x p3 - m_x p2)) (m_y p2 + tB * (m_y p3 - m_y p2))
    /\ sqdist pA p2 = r * r /\ sqdist pB p2 = r * r
    /\ (sweep = true
        <-> 0 < (m_x p2 - m_x p1) * (m_y p3 - m_y p1) - (m_y p2 - m_y p1) * (m_x p3 - m_x p1)).
Proof.
  intros Hc H12 H32 c r.
  destruct (app_two_more pre p1 p2 p3 post) as (front & second & tl & E).
  rewrite E, drawRoundPath_finish, <- E. fold c.
  destruct (round_at c pre p1 p2 p3 post) as (ss1 & ss2 & -> & Hlen).
  pose proof (norm_pos p1 p2 H12) as Hn1. pose proof (norm_pos p3 p2 H32) as Hn3.
  pose proof (norm_sq (psub p1 p2)) as Hs1. pose proof (norm_sq (psub p3 p2)) as Hs3.
  set (n1 := norm (psub p1 p2)) in *. set (n3 := norm (psub p3 p2)) in *.
  assert (arc_radius c p1 p2 p3 = r) as Hr.
  { unfold arc_radius, r. fold n1 n3. rewrite dmin_real. reflexivity. }
  assert (r = Rmin n1 n3 * c / 2) as Hr' by reflexivity.
  assert (0 <= Rmin n1 n3 <= n1 /\ Rmin n1 n3 <= n3) as ((Hmin0 & Hmin1) & Hmin3).
  { unfold Rmin. destruct (Rle_dec n1 n3); lra. }
  assert (0 <= c) as Hc0 by exact Hc.
  assert (0 <= Rmin n1 n3 * c) as Hmc by (by apply Rmult_le_pos).
  assert (0 <= r) as Hr0 by (rewrite Hr'; lra).
  eexists (_ ++ ss1), ss2,
    (padd p2 (pscale_by (psub p1 p2) (r / n1))), (padd p2 (pscale_by (psub p3 p2) (r / n3))),
    (dgt (m_x (psub p2 p1) * m_y (psub p3 p1) - m_y (psub p2 p1) * m_x (psub p3 p1))%dbl
         (dofZ 0)),
    (r / n1), (r / n3).
  split.
  { rewrite <- app_assoc. f_equal. f_equal.
    unfold round_corner. cbv zeta. unfold arc_end. rewrite Hr. fold n1 n3.
    by rewrite !half_sum_midpoint. }
  split; [rewrite length_app; simpl; lia|].
  clearbody n1 n3 r c. cbn in Hs1, Hs3.
  assert (forall n, 0 < n -> Rmin n1 n3 <= n -> 0 <= r / n <= c / 2) as Ht.
  { intros n Hn Hle. rewrite Hr'. split.
    - apply Rmult_le_pos; [lra | left; by apply Rinv_0_lt_compat].
    - apply (Rmult_le_reg_r n); [assumption|].
      replace (Rmin n1 n3 * c / 2 / n * n) with (Rmin n1 n3 * (c / 2)) by (field; lra).
      rewrite (Rmult_comm (c / 2) n). apply Rmult_le_compat_r; lra. }
  split; [by apply Ht|]. split; [by apply Ht|].
  split; [unfold padd, pscale_by, psub, P; cbn; f_equal; ring|].
  split; [unfold padd, pscale_by, psub, P; cbn; f_equal; ring|].
  unfold sqdist, psub, padd, pscale_by, P. cbn.
  split; [| split].
  - replace (r * r) with (r / n1 * (r / n1) * (n1 * n1)) by (field; lra).
    rewrite Hs1. ring.
  - replace (r * r) with (r / n3 * (r / n3) * (n3 * n3)) by (field; lra).
    rewrite Hs3. ring.
  - apply bool_decide_eq_true.
Qed.

Section Real.
Variable m_attr : GA.GraphAttributes R.
Variable m_settings : GraphIO.SVGSettings R.

Abbreviation covered p e v := (isCoveredBy m_attr p e v).

Lemma getArrowSize_not_negative e v :
  0 <= GA.width m_attr v -> 0 <= GA.height m_attr v ->
  0 <= GA.width m_attr (opposite e v) -> 0 <= GA.height m_attr (opposite e v) ->
  0 <= getArrowSize m_attr e v.
Proof.
  intros ? ? ? ?. unfold getArrowSize.
  destruct (_ || _); [| cbn; lra].
  rewrite dmax_real. eapply Rle_trans; [| apply Rmax_r]. cbn. lra.
Qed.

Lemma centre_covered e v :
  0 <= GA.width m_attr v -> 0 <= GA.height m_attr v ->
  0 <= GA.width m_attr (opposite e v) -> 0 <= GA.height m_attr (opposite e v) ->
  covered (P (GA.x m_attr v) (GA.y m_attr v)) e v = true.
Proof.
  intros Hw Hh Hw' Hh'. pose proof (getArrowSize_not_negative e v Hw Hh Hw' Hh').
  apply covered_real. cbv zeta. cbn. lra.
Qed.

(** X17.  An edge without bends, when no arrow head is asked for and the
    sides of its two nodes are not negative, is drawn exactly when the
    centre of neither node lies in the covered region of the other; then
    it is drawn from centre to centre.  An edge from a node to itself is
    not drawn. *)
Theorem bend_free_edge_drawn (e : edge) :
  arrow_flags m_attr e = (false, false) -> GA.bends m_attr e = [] ->
  0 <= GA.width m_attr (source e) -> 0 <= GA.height m_attr (source e) ->
  0 <= GA.width m_attr (target e) -> 0 <= GA.height m_attr (target e) ->
  let s := source e in
  let t := target e in
  let ps := P (GA.x m_attr s) (GA.y m_attr s) in
  let pt := P (GA.x m_attr t) (GA.y m_attr t) in
  (undrawn m_attr m_settings e = false
   <-> covered pt e s = false /\ covered ps e t = false)
  /\ (undrawn m_attr m_settings e = false -> points (drawEdge_trim m_attr m_settings e) = [ps; pt])
  /\ (s = t -> undrawn m_attr m_settings e = true).
Proof.
  intros Hflags Hb Hws Hhs Hwt Hht s t ps pt.
  assert (covered ps e s = true) as Hcs.
  { apply centre_covered; try assumption; unfold opposite;
      destruct (decide _); assumption. }
  assert (covered pt e t = true) as Hct.
  { apply centre_covered; try assumption; unfold opposite;
      destruct (decide _); assumption. }
  assert (points (drawEdge_trim m_attr m_settings e)
          = (if negb (covered pt e s) then [ps] else [])
            ++ (if negb (covered ps e t) then [pt] else [])) as Hp.
  { unfold drawEdge_trim. rewrite Hflags. unfold edge_path. rewrite Hb. simpl.
    match goal with
    | |- context [drawEdge_segment m_attr e false false ?st0 ?a ?b] =>
        destruct (drawEdge_segment_plain m_attr e st0 a b) as (Hds & Hf & _ & ->);
        rewrite Hds, Hf
    end.
    simpl. rewrite !orb_false_r. unfold leaves, enters. fold s t ps pt.
    by rewrite Hcs, Hct, andb_true_r. }
  unfold undrawn. rewrite Hp.
  split; [| split].
  - destruct (covered pt e s), (covered ps e t); simpl; split; try done; intros [? ?]; done.
  - destruct (covered pt e s), (covered ps e t); simpl; try done.
  - intros Est. assert (covered pt e s = true) as -> by (by rewrite Est).
    by destruct (covered ps e t).
Qed.

End Real.

(** Curviness one half, at the corner (4, 0) of a path from (0, 0) to
    (4, 3) *)
Lemma round_path_corner_witness :
  let r := Rmin (R_sqrt.sqrt (sqdist (P 0 0) (P 4 0))) (R_sqrt.sqrt (sqdist (P 4 3) (P 4 0)))
           * (1 / 2) / 2 in
  exists ss1 ss2 (pA pB : DPoint R),
    drawRoundPath rounded_real [] [P 0 0; P 4 0; P 4 3]
    = ss1 ++ [M 2 0; L (m_x pA) (m_y pA); M 4 (3 / 2); L (m_x pB) (m_y pB);
              M (m_x pA) (m_y pA); A r r true (m_x pB) (m_y pB)] ++ ss2
    /\ sqdist pA (P 4 0) = r * r /\ sqdist pB (P 4 0) = r * r.
Proof.
  intros r.
  destruct (round_path_corner rounded_real [] (P 0 0) (P 4 0) (P 4 3) [])
    as (ss1 & ss2 & pA & pB & sweep & tA & tB & Heq & _ & _ & _ & _ & _ & HA & HB & Hsw).
  - simpl. lra.
  - intros E. apply (f_equal m_x) in E. simpl in E. lra.
  - intros E. apply (f_equal m_y) in E. simpl in E. lra.
  - assert (sweep = true) as -> by (apply Hsw; simpl; lra).
    exists ss1, ss2, pA, pB. split; [| split; assumption].
    simpl app in Heq. rewrite Heq. unfold midpoint. simpl.
    replace ((0 + 4) / 2) with 2 by lra. replace ((0 + 0) / 2) with 0 by lra.
    replace ((4 + 4) / 2) with 4 by lra. replace ((3 + 0) / 2) with (3 / 2) by lra.
    reflexivity.
Defined.

(** The edge between the two boxes of [apart_real] is drawn. *)
Lemma bend_free_edge_drawn_witness :
  undrawn apart_real rounded_real e01 = false
  <-> isCoveredBy apart_real (P 100 0) e01 box0 = false
      /\ isCoveredBy apart_real (P 0 0) e01 box1 = false.
Proof.
  apply (bend_free_edge_drawn apart_real rounded_real e01).
  - reflexivity.
  - reflexivity.
  - simpl. lra.
  - simpl. lra.
  - simpl. lra.
  - simpl. lra.
Defined.

End curve_facts.

(** ** The nodes in the SVG document *)

Module SvgPrinter_nodes_facts.
Import ogdf pugi SvgPrinter SvgPrinter_nodes SvgPrinter_nodes_notions.

(** *** Where the tags are *)

Lemma tag_at_spec (tag text : list ascii) (i : nat) :
  tag_at tag text i = true <-> forall k, k < length tag -> text !! (i + k) = tag !! k.
Proof.
  unfold tag_at. rewrite bool_decide_eq_true. split.
  - intros E k Hk. pose proof (f_equal (fun l => l !! k) E) as Ek. simpl in Ek.
    rewrite lookup_take_lt, lookup_drop in Ek by lia. exact Ek.
  - intros Hk. apply list_eq. intros k. destruct (decide (k < length tag)).
    + rewrite lookup_take_lt, lookup_drop by lia. by apply Hk.
    + rewrite lookup_take_ge by lia. symmetry. apply lookup_ge_None. lia.
Qed.

Lemma closing_length b : length (closing b) = if b then 16 else 14.
Proof. by destruct b. Qed.

Lemma closing_head b : closing b !! 0 = Some "<"%char.
Proof. by destruct b. Qed.

(** The tags hold the character [<] at their start only. *)
Lemma closing_inner b k : closing b !! k = Some "<"%char -> k = 0.
Proof.
  intros Hk.
  destruct b; do 17 (destruct k as [|k]; [first [reflexivity | cbv in Hk; discriminate]|]);
    cbv in Hk; discriminate.
Qed.

Lemma closing_differ b : closing b !! 5 <> closing (negb b) !! 5.
Proof. destruct b; cbv; discriminate. Qed.

Lemma is_tag_closing text i :
  is_tag text i = true <-> exists b, tag_at (closing b) text i = true.
Proof.
  unfold is_tag. rewrite orb_true_iff. split.
  - intros [Ht|Ht]; [by exists false | by exists true].
  - intros [[] Ht]; [by right | by left].
Qed.

Lemma tag_at_fits b text i :
  tag_at (closing b) text i = true ->
  text !! i = Some "<"%char /\ i + length (closing b) <= length text.
Proof.
  intros Ht. rewrite tag_at_spec in Ht. split.
  - rewrite <- (closing_head b), <- (Ht 0) by (rewrite closing_length; destruct b; lia).
    f_equal. lia.
  - assert (length (closing b) - 1 < length (closing b)) as Hlast
        by (rewrite closing_length; destruct b; lia).
    pose proof (Ht _ Hlast) as E.
    assert (is_Some (closing b !! (length (closing b) - 1))) as Hsome
        by (by apply lookup_lt_is_Some).
    rewrite <- E in Hsome. apply lookup_lt_is_Some in Hsome.
    rewrite closing_length in *. destruct b; lia.
Qed.

Lemma tag_free_spec text i : tag_free text = true -> i < length text -> is_tag text i = false.
Proof.
  unfold tag_free. rewrite forallb_forall. intros Hall Hi.
  apply negb_true_iff, Hall, in_seq. lia.
Qed.

(** Inside a row that is closed by a tag no tag is read. *)
Lemma row_no_tag pre l b more j :
  tag_free l = true -> j < length l ->
  is_tag (pre ++ l ++ closing b ++ more) (length pre + j) = false.
Proof.
  intros Hfree Hj. apply not_true_is_false. intros Htag.
  apply is_tag_closing in Htag as [b' Ht].
  assert (is_tag l j = true) as Hin; [| by rewrite (tag_free_spec l j) in Hin].
  apply is_tag_closing. exists b'. rewrite tag_at_spec in *. intros k Hk.
  destruct (decide (j + k < length l)) as [Hlt|Hge].
  - rewrite <- (Ht k Hk). rewrite lookup_app_r by lia. rewrite lookup_app_l by lia.
    f_equal. lia.
  - exfalso. assert (length l - j < length (closing b')) as Hk0 by lia.
    pose proof (Ht _ Hk0) as E.
    rewrite lookup_app_r in E by lia. rewrite lookup_app_r in E by lia.
    rewrite lookup_app_l in E by (rewrite closing_length; destruct b; lia).
    replace (length pre + j + (length l - j) - length pre - length l) with 0 in E by lia.
    rewrite closing_head in E. symmetry in E. apply closing_inner in E. lia.
Qed.

(** At the end of the row its closing tag is read, and not the other. *)
Lemma at_closing pre l b more b' :
  tag_at (closing b') (pre ++ l ++ closing b ++ more) (length pre + length l)
  = bool_decide (b' = b).
Proof.
  assert (forall k, k < length (closing b) ->
             (pre ++ l ++ closing b ++ more) !! (length pre + length l + k) = closing b !! k)
    as Hhere.
  { intros k Hk. rewrite lookup_app_r by lia. rewrite lookup_app_r by lia.
    rewrite lookup_app_l by lia. f_equal. lia. }
  destruct (bool_decide_reflect (b' = b)) as [->|Hne].
  - apply tag_at_spec. exact Hhere.
  - apply not_true_is_false. intros Ht. rewrite tag_at_spec in Ht.
    assert (5 < length (closing b) /\ 5 < length (closing b')) as [H5 H5']
        by (rewrite !closing_length; destruct b, b'; lia).
    pose proof (Ht 5 H5') as E. rewrite (Hhere 5 H5) in E.
    apply (closing_differ b). rewrite E. by destruct b, b'.
Qed.

(** Inside the closing tag no tag is read. *)
Lemma inner_no_tag pre l b more k :
  1 <= k < length (closing b) ->
  is_tag (pre ++ l ++ closing b ++ more) (length pre + length l + k) = false.
Proof.
  intros Hk. apply not_true_is_false. intros Htag.
  apply is_tag_closing in Htag as [b' Ht]. apply tag_at_fits in Ht as [Hlt _].
  rewrite lookup_app_r in Hlt by lia. rewrite lookup_app_r in Hlt by lia.
  rewrite lookup_app_l in Hlt by lia.
  apply closing_inner in Hlt. lia.
Qed.

(** After the last tag no tag is read. *)
Lemma rest_no_tag pre rest i :
  tag_free rest = true -> length pre <= i -> is_tag (pre ++ rest) i = false.
Proof.
  intros Hfree Hi. apply not_true_is_false. intros Htag.
  apply is_tag_closing in Htag as [b' Ht].
  pose proof (tag_at_fits _ _ _ Ht) as [_ Hfit]. rewrite length_app in Hfit.
  assert (is_tag rest (i - length pre) = true) as Hin.
  { apply is_tag_closing. exists b'. rewrite tag_at_spec in *. intros k Hk.
    rewrite <- (Ht k Hk). rewrite lookup_app_r by lia. f_equal. lia. }
  rewrite tag_free_spec in Hin; [discriminate | assumption |].
  rewrite closing_length in Hfit. destruct b'; lia.
Qed.

(** *** Loops over the indices of a text *)

Lemma fold_skip {St} (f : St -> nat -> St) text a n s :
  (forall s i, is_tag text i = false -> f s i = s) ->
  (forall i, a <= i < a + n -> is_tag text i = false) ->
  fold_left f (seq a n) s = s.
Proof.
  intros Hf. revert a. induction n as [|n IH]; intros a Hno; simpl; [done|].
  rewrite Hf by (apply Hno; lia). apply IH. intros i Hi. apply Hno. lia.
Qed.

(** Over a row and its closing tag the loop acts once, at the tag. *)
Lemma fold_row {St} (f : St -> nat -> St) pre l b more s :
  (forall s i, is_tag (pre ++ l ++ closing b ++ more) i = false -> f s i = s) ->
  tag_free l = true ->
  fold_left f (seq (length pre) (length l + length (closing b))) s
  = f s (length pre + length l).
Proof.
  intros Hf Hl.
  replace (length (closing b)) with (S (length (closing b) - 1))
    by (rewrite closing_length; destruct b; lia).
  rewrite seq_app, fold_left_app. cbn [seq fold_left].
  rewrite (fold_skip f _ _ _ s Hf).
  - apply (fold_skip f _ _ _ _ Hf). intros i Hi.
    replace i with (length pre + length l + (i - length pre - length l)) by lia.
    apply inner_no_tag. lia.
  - intros i Hi. replace i with (length pre + (i - length pre)) by lia.
    apply row_no_tag; [assumption | lia].
Qed.

Lemma label_text_cons (row : list ascii * bool) rows rest :
  label_text (row :: rows) rest = row.1 ++ closing row.2 ++ label_text rows rest.
Proof. unfold label_text. simpl. by rewrite <- !app_assoc. Qed.

Lemma label_text_length rows rest :
  length (label_text rows rest) = length (label_text rows []) + length rest.
Proof. unfold label_text. rewrite !length_app. simpl. lia. Qed.

(** *** The first loop: the longest line *)

Lemma widest_rows pre rows rest st :
  Forall (fun row => tag_free row.1 = true) rows -> tag_free rest = true ->
  prev1 st = Z.of_nat (length pre) -> (0 <= largest_line st)%Z ->
  largest_line
    (fold_left (widest_step (pre ++ label_text rows rest))
               (seq (length pre) (length (label_text rows rest))) st)
  = Z.max (largest_line st) (longest_row rows).
Proof.
  intros Hrows Hrest. revert pre st.
  assert (forall text s i, is_tag text i = false -> widest_step text s i = s) as Hskip.
  { intros text s i. unfold is_tag, widest_step. intros Hno. cbv zeta. by rewrite Hno. }
  induction Hrows as [|[l b] rows Hl Hrows IH]; intros pre st Hprev Hpos.
  - rewrite (fold_skip _ (pre ++ label_text [] rest) _ _ st (Hskip _)).
    + unfold longest_row. simpl. lia.
    + intros i Hi. apply rest_no_tag; [assumption | lia].
  - rewrite label_text_cons. cbn [fst snd].
    rewrite !length_app, Nat.add_assoc, seq_app, fold_left_app.
    rewrite (fold_row _ pre l b (label_text rows rest) st (Hskip _) Hl).
    replace (pre ++ l ++ closing b ++ label_text rows rest)
      with ((pre ++ l ++ closing b) ++ label_text rows rest) by (by rewrite <- !app_assoc).
    replace (length pre + (length l + length (closing b)))
      with (length (pre ++ l ++ closing b)) by (rewrite !length_app; lia).
    rewrite IH.
    + replace ((pre ++ l ++ closing b) ++ label_text rows rest)
        with (pre ++ l ++ closing b ++ label_text rows rest) by (by rewrite <- !app_assoc).
      unfold widest_step.
      change svg_box_divide with (closing true). change svg_new_line with (closing false).
      rewrite !at_closing. unfold longest_row. cbn [fmap list_fmap max_list fst].
      destruct b; simpl; rewrite Hprev;
        destruct (Z.ltb_spec (largest_line st)
                    (Z.of_nat (length pre + length l) - Z.of_nat (length pre))); simpl; lia.
    + replace ((pre ++ l ++ closing b) ++ label_text rows rest)
        with (pre ++ l ++ closing b ++ label_text rows rest) by (by rewrite <- !app_assoc).
      unfold widest_step.
      change svg_box_divide with (closing true). change svg_new_line with (closing false).
      rewrite !at_closing. rewrite !length_app, closing_length.
      destruct b; simpl; lia.
    + replace ((pre ++ l ++ closing b) ++ label_text rows rest)
        with (pre ++ l ++ closing b ++ label_text rows rest) by (by rewrite <- !app_assoc).
      unfold widest_step.
      change svg_box_divide with (closing true). change svg_new_line with (closing false).
      rewrite !at_closing. rewrite Hprev.
      destruct b; simpl;
        destruct (Z.ltb_spec (largest_line st)
                    (Z.of_nat (length pre + length l) - Z.of_nat (length pre))); simpl; lia.
Qed.

Lemma widest_line_rows rows rest :
  Forall (fun row => tag_free row.1 = true) rows -> tag_free rest = true ->
  widest_line (label_text rows rest) = longest_row rows.
Proof.
  intros Hrows Hrest. unfold widest_line.
  pose proof (widest_rows [] rows rest {| prev1 := 0; largest_line := 0 |} Hrows Hrest eq_refl)
    as Hw.
  simpl in Hw. rewrite Hw by lia. unfold longest_row. lia.
Qed.

(** *** What [c_str] leaves *)

Lemma c_str_no_nul s : Forall (fun a => a <> Ascii.zero) (c_str s).
Proof.
  induction s as [|a s IH]; simpl; [constructor|].
  destruct (Ascii.eqb_spec a Ascii.zero); by constructor.
Qed.

Lemma c_str_fixed s : Forall (fun a => a <> Ascii.zero) s -> c_str s = s.
Proof.
  induction 1 as [|a s Ha _ IH]; simpl; [reflexivity|].
  destruct (Ascii.eqb_spec a Ascii.zero); [done | by rewrite IH].
Qed.

Lemma label_text_rows_no_nul rows rest :
  Forall (fun a => a <> Ascii.zero) (label_text rows rest) ->
  Forall (fun row : list ascii * bool => c_str row.1 = row.1) rows.
Proof.
  induction rows as [|row rows IH]; intros Hall; [constructor|].
  rewrite label_text_cons in Hall. apply Forall_app in Hall as [Hrow Hall].
  apply Forall_app in Hall as [_ Hall]. constructor; [by apply c_str_fixed | by apply IH].
Qed.

(** *** The second loop: the lines *)

Section Nodes.
Context {D : Type} `{DoubleOps D}.
Variable m_attr : GA.GraphAttributes D.
Variable m_settings : GraphIO.SVGSettings D.
Variable nodeStrokeWidth : node -> D.
Variable nodeStrokeType : node -> StrokeType.t.
Variable nodeStrokeColor : node -> string.
Variable quicksort_by_z : list node -> list node.

Abbreviation drawNode :=
  (drawNode m_attr m_settings nodeStrokeWidth nodeStrokeType nodeStrokeColor).
Abbreviation drawNodes :=
  (drawNodes m_attr m_settings nodeStrokeWidth nodeStrokeType nodeStrokeColor quicksort_by_z).
Abbreviation lines_step := (lines_step m_settings).

Lemma lines_step_skip text W (s : option (lines_state (D := D))) i :
  is_tag text i = false -> lines_step text W s i = s.
Proof.
  unfold is_tag, SvgPrinter_nodes.lines_step. intros Hno.
  destruct s as [st|]; [| reflexivity]. cbv zeta. by rewrite Hno.
Qed.

Lemma substr_row pre l more :
  substr (pre ++ l ++ more) (Z.of_nat (length pre))
         (Z.of_nat (length pre + length l) - Z.of_nat (length pre))
  = Some l.
Proof.
  unfold substr.
  destruct (Z.ltb_spec (Z.of_nat (length (pre ++ l ++ more))) (Z.of_nat (length pre)))
    as [Hlt|_]; [rewrite length_app in Hlt; lia|].
  destruct (Z.ltb_spec (Z.of_nat (length pre + length l) - Z.of_nat (length pre)) 0)
    as [Hlt|_]; [lia|].
  rewrite Nat2Z.id, drop_app_length. f_equal.
  replace (Z.to_nat (Z.of_nat (length pre + length l) - Z.of_nat (length pre)))
    with (length l) by lia.
  apply take_app_length.
Qed.

Lemma draw_rows pre rows rest W (st : lines_state) :
  Forall (fun row => tag_free row.1 = true) rows -> tag_free rest = true ->
  prev st = Z.of_nat (length pre) ->
  fold_left (lines_step (pre ++ label_text rows rest) W)
            (seq (length pre) (length (label_text rows rest))) (Some st)
  = Some {| num_lines := (num_lines st + Z.of_nat (length rows))%Z;
            prev := Z.of_nat (length pre + length (label_text rows []));
            appended := appended st ++ row_elements m_settings (num_lines st) W rows |}.
Proof.
  intros Hrows Hrest. revert pre st.
  induction Hrows as [|[l b] rows Hl Hrows IH]; intros pre st Hprev.
  - rewrite (fold_skip _ (pre ++ label_text [] rest) _ _ _
               (fun s i => lines_step_skip _ W s i)).
    + destruct st as [n p a]. simpl in *. rewrite app_nil_r.
      do 2 f_equal; lia.
    + intros i Hi. apply rest_no_tag; [assumption | lia].
  - rewrite label_text_cons. cbn [fst snd].
    rewrite !length_app, Nat.add_assoc, seq_app, fold_left_app.
    rewrite (fold_row _ pre l b (label_text rows rest) (Some st)
               (fun s i => lines_step_skip _ W s i) Hl).
    assert (lines_step (pre ++ l ++ closing b ++ label_text rows rest) W (Some st)
                       (length pre + length l)
            = Some {| num_lines := (num_lines st + 1)%Z;
                      prev := Z.of_nat (length (pre ++ l ++ closing b));
                      appended := appended st
                                  ++ text_element m_settings (num_lines st + 1)%Z
                                       (Z.of_nat (length l)) l
                                  :: (if b then [rule_element (num_lines st + 1)%Z W]
                                      else []) |})
      as ->.
    { unfold SvgPrinter_nodes.lines_step. cbv zeta.
      change svg_box_divide with (closing true). change svg_new_line with (closing false).
      rewrite !at_closing, Hprev, substr_row.
      replace (Z.of_nat (length pre + length l) - Z.of_nat (length pre))%Z
        with (Z.of_nat (length l)) by lia.
      rewrite !length_app, closing_length.
      destruct b; simpl; do 2 f_equal; lia. }
    replace (pre ++ l ++ closing b ++ label_text rows rest)
      with ((pre ++ l ++ closing b) ++ label_text rows rest) by (by rewrite <- !app_assoc).
    replace (length pre + (length l + length (closing b)))
      with (length (pre ++ l ++ closing b)) by (rewrite !length_app; lia).
    rewrite IH by reflexivity. cbn [num_lines prev appended row_elements fst snd length].
    f_equal. f_equal.
    + lia.
    + rewrite label_text_cons. cbn [fst snd]. rewrite !length_app. simpl. lia.
    + rewrite <- app_assoc. reflexivity.
Qed.

(** X18.  A label made of rows that are each closed by a tag: the group of
    the node holds a rectangle as wide as the longest row and as high as
    the number of rows, and after it, in order, the text of every row,
    with a rule under every row that a box divider closes.  What stands
    after the last tag is not drawn. *)
Theorem label_rows_drawn (v : node) (rows : list (list ascii * bool)) (rest : list ascii) :
  c_str (list_ascii_of_string (GA.label m_attr v)) = label_text rows rest ->
  Forall (fun row => tag_free row.1 = true) rows -> tag_free rest = true ->
  (drawNode v).1
  = Some (NElement "g"
            [("class", Plain (Str "font_style"));
             ("transform",
              Translate (GA.x m_attr v - GA.width m_attr v / dofZ 2)%dbl
                        (GA.y m_attr v - GA.height m_attr v / dofZ 2)%dbl)]
            (NElement "rect"
               (rect_style m_attr nodeStrokeWidth nodeStrokeType nodeStrokeColor v
                ++ [("width", Em (dofZ (longest_row rows) * dlit 75 100)%dbl);
                    ("height", Em (dofZ (Z.of_nat (length rows)) * dlit 13 10)%dbl)])
               []
             :: row_elements m_settings 0 (longest_row rows) rows))
  /\ Forall (fun row => c_str row.1 = row.1) rows.
Proof.
  intros Hlabel Hrows Hrest. split.
  - unfold SvgPrinter_nodes.drawNode. cbv zeta. cbn [fst]. rewrite Hlabel.
    rewrite (widest_line_rows rows rest Hrows Hrest). unfold draw_lines.
    pose proof (draw_rows [] rows rest (longest_row rows)
                  {| num_lines := 0; prev := 0; appended := [] |} Hrows Hrest eq_refl) as Hd.
    simpl in Hd. rewrite Hd. reflexivity.
  - apply (label_text_rows_no_nul rows rest). rewrite <- Hlabel. apply c_str_no_nul.
Qed.

(** *** Any label *)

Lemma lines_step_total text W (st : lines_state) i :
  (0 <= prev st <= Z.of_nat (length text))%Z -> Forall text_or_line (appended st) ->
  exists st', lines_step text W (Some st) i = Some st'
    /\ (0 <= prev st' <= Z.of_nat (length text))%Z /\ Forall text_or_line (appended st').
Proof.
  intros Hprev Happ. unfold SvgPrinter_nodes.lines_step. cbv zeta.
  change svg_box_divide with (closing true). change svg_new_line with (closing false).
  destruct (tag_at (closing false) text i) eqn:Enl, (tag_at (closing true) text i) eqn:Ebd;
    cbn [orb]; [| | | by eauto].
  all: unfold substr;
    destruct (Z.ltb_spec (Z.of_nat (length text)) (prev st)) as [Hlt|_]; [lia|].
  all: eexists; split; [reflexivity|]; cbn [prev appended]; split.
  all: try (apply Forall_app; split; [assumption|]; repeat constructor; by (left + right)).
  - apply tag_at_fits in Ebd as [_ Hfit]. rewrite closing_length in Hfit. lia.
  - apply tag_at_fits in Enl as [_ Hfit]. rewrite closing_length in Hfit. lia.
  - apply tag_at_fits in Ebd as [_ Hfit]. rewrite closing_length in Hfit. lia.
Qed.

Lemma draw_lines_total text W (indices : list nat) (st : lines_state) :
  (0 <= prev st <= Z.of_nat (length text))%Z -> Forall text_or_line (appended st) ->
  exists st', fold_left (lines_step text W) indices (Some st) = Some st'
    /\ Forall text_or_line (appended st').
Proof.
  revert st. induction indices as [|i indices IH]; intros st Hprev Happ; cbn [fold_left];
    [by eauto|].
  destruct (lines_step_total text W st i Hprev Happ) as (st' & -> & Hprev' & Happ').
  by apply IH.
Qed.

Lemma drawNode_returns (v : node) : exists group, (drawNode v).1 = Some group.
Proof.
  unfold SvgPrinter_nodes.drawNode. cbv zeta. cbn [fst]. unfold draw_lines.
  match goal with
  | |- context [fold_left (lines_step ?text ?W) ?l (Some ?st)] =>
      destruct (draw_lines_total text W l st) as (st' & -> & _)
  end.
  - simpl. lia.
  - constructor.
  - eauto.
Qed.

(** X19.  [drawNode] appends a group for every label: [substr] does not
    throw, because the index it starts from is at most the length of the
    text.  The group holds the rectangle first, and after it only texts
    and rules. *)
Theorem drawNode_total (v : node) :
  exists rect_attrs children,
    (drawNode v).1
    = Some (NElement "g"
              [("class", Plain (Str "font_style"));
               ("transform",
                Translate (GA.x m_attr v - GA.width m_attr v / dofZ 2)%dbl
                          (GA.y m_attr v - GA.height m_attr v / dofZ 2)%dbl)]
              (NElement "rect" rect_attrs [] :: children))
    /\ Forall text_or_line children.
Proof.
  unfold SvgPrinter_nodes.drawNode. cbv zeta. cbn [fst]. unfold draw_lines.
  match goal with
  | |- context [fold_left (lines_step ?text ?W) ?l (Some ?st)] =>
      destruct (draw_lines_total text W l st) as (st' & -> & Happ)
  end.
  - simpl. lia.
  - constructor.
  - eexists _, _. split; [reflexivity | exact Happ].
Qed.

(** X20.  [drawNodes] appends one group for every node, in the order of
    the nodes it draws (that of the graph, unless the third coordinate is
    kept), and writes one line for every node to [std::cerr]: the label
    up to its first NUL. *)
Theorem drawNodes_groups (g : Graph) :
  let nodes :=
    if GA.has m_attr nodeGraphics && GA.has m_attr threeD
    then quicksort_by_z (allNodes g) else allNodes g in
  exists groups,
    (drawNodes g).1 = Some groups
    /\ Forall2 (fun v group => (drawNode v).1 = Some group) nodes groups
    /\ (drawNodes g).2
       = map (fun v => ("Full Text: " ++ c_string (GA.label m_attr v)
                        ++ srcyuml_print.newline)%string) nodes.
Proof.
  intros nodes. unfold SvgPrinter_nodes.drawNodes. fold nodes.
  assert (forall l groups cerr,
    exists groups',
      fold_left
        (fun acc v =>
           match acc with
           | (None, cerr) => (None, cerr)
           | (Some groups, cerr) =>
               match drawNode v with
               | (None, line) => (None, cerr ++ [line])
               | (Some group, line) => (Some (groups ++ [group]), cerr ++ [line])
               end
           end) l (Some groups, cerr)
      = (Some (groups ++ groups'),
         cerr ++ map (fun v => ("Full Text: " ++ c_string (GA.label m_attr v)
                                ++ srcyuml_print.newline)%string) l)
      /\ Forall2 (fun v group => (drawNode v).1 = Some group) l groups') as Hfold.
  { induction l as [|v l IH]; intros groups cerr.
    - exists []. simpl. rewrite !app_nil_r. split; [reflexivity | constructor].
    - destruct (drawNode_returns v) as (group & Hv).
      assert ((drawNode v).2 = ("Full Text: " ++ c_string (GA.label m_attr v)
                                ++ srcyuml_print.newline)%string) as Hline by reflexivity.
      cbn [fold_left]. destruct (drawNode v) as [res line] eqn:Ev. cbn [fst snd] in Hv, Hline.
      subst res line.
      match goal with
      | |- context [fold_left _ l (Some ?gs, ?ce)] =>
          destruct (IH gs ce) as (groups' & -> & Hall)
      end.
      exists (group :: groups'). rewrite <- !app_assoc. split; [reflexivity|].
      constructor; [by rewrite Ev | exact Hall]. }
  destruct (Hfold nodes [] []) as (groups & -> & Hall).
  exists groups. simpl. auto.
Qed.

End Nodes.

(** The label of [account_node]: three rows, the first two closed by box
    dividers *)
Lemma label_rows_drawn_witness :
  (drawNode account_node SvgPrinter_notions.settings0 (fun _ => 1%float) (fun _ => StrokeType.Solid)
            (fun _ => "#000000") (element 0)).1
  = Some (NElement "g"
            [("class", Plain (Str "font_style")); ("transform", Translate 8.75 0.5)]
            (NElement "rect"
               [("fill", Plain (Str "Antiquewhite")); ("stroke-width", Plain (Px 1));
                ("stroke", Plain (Str "#000000"));
                ("width", Em 8.25); ("height", Em (3 * (13 / 10)))]
               []
             :: row_elements SvgPrinter_notions.settings0 0 11 account_rows))%float.
Proof.
  refine (proj1 (label_rows_drawn account_node SvgPrinter_notions.settings0 (fun _ => 1%float)
                   (fun _ => StrokeType.Solid) (fun _ => "#000000") (element 0)
                   account_rows [] _ _ _)).
  - reflexivity.
  - repeat constructor.
  - reflexivity.
Defined.

End SvgPrinter_nodes_facts.
